(** * gomplerate: a cubic-spline audio resampler (resample.go)

    A shallow embedding of [resample.go] and the properties of its
    specification.

    - Go's [float64] is IEEE 754 binary64: Rocq's primitive [float], with
      the operators [+ - * /] rounding to nearest, ties to even, and no
      fused multiply-add (the amd64 code generator emits none).
    - Go's [int] is a 64-bit signed integer, embedded in [Z].
    - A run-time panic (index out of range, integer division by zero,
      [make] with a length that is negative or beyond what one allocation
      may hold) is the result [None]. An allocation that the run time
      accepts is taken to succeed: running out of memory is a fatal error
      of the run time, not a panic of the program, and is not modelled.
    - The program is read twice. In the first reading a slice is the list
      of its elements and a function returns the list it computes; the
      claims about values, lengths and panics are settled there. In the
      second ([Mem]) the arrays live in a store, a slice is a header that
      points into it, and every write is a write to the store; what a call
      leaves of the caller's memory is settled there, and [Refine] relates
      the two. *)

From Stdlib Require Import ZArith List Bool Lia Floats.
From Stdlib Require QArith.
From Stdlib Require Qround.
Import ListNotations.

Local Open Scope Z_scope.

(** ** Run-time conventions of Go *)

Module Go.

Definition int_min : Z := - 2 ^ 63.
Definition int_max : Z := 2 ^ 63 - 1.

Definition panics (A : Type) : Type := option A.

Definition bind {A B : Type} (m : panics A) (k : A -> panics B) : panics B :=
  match m with
  | Some a => k a
  | None => None
  end.

(** [float64(i)]: the float64 nearest to the integer [i], ties to even. *)
Definition float64_of_int (i : Z) : float :=
  SF2Prim (binary_normalize prec emax i 0 false).

(** The integer part of a finite float, rounded toward zero. *)
Definition trunc (f : float) : option Z :=
  match Prim2SF f with
  | S754_zero _ => Some 0
  | S754_finite s m e =>
      let a := if 0 <=? e then Z.shiftl (Zpos m) e
               else Z.shiftr (Zpos m) (- e) in
      Some (if s then - a else a)
  | S754_infinity _ | S754_nan => None
  end.

(** [int(f)]: the fraction is discarded. When the value does not fit the
    language leaves the result to the implementation; amd64's CVTTSD2SQ
    answers with the smallest 64-bit integer. *)
Definition int_of_float64 (f : float) : Z :=
  match trunc f with
  | Some z => if (int_min <=? z) && (z <=? int_max) then z else int_min
  | None => int_min
  end.

(** [uint64(f)], as amd64 computes it: through the signed conversion
    below 2^63, and through the conversion of [f - 2^63] from there on. *)
Definition uint64_of_float64 (f : float) : Z :=
  if PrimFloat.ltb f 0x1p63%float then int_of_float64 f mod 2 ^ 64
  else (int_of_float64 (f - 0x1p63)%float + 2 ^ 63) mod 2 ^ 64.

(** [int32(f)], as amd64's CVTTSD2SL computes it: the smallest 32-bit
    integer when the value does not fit. *)
Definition int32_of_float64 (f : float) : Z :=
  match trunc f with
  | Some z => if (- 2 ^ 31 <=? z) && (z <=? 2 ^ 31 - 1) then z else - 2 ^ 31
  | None => - 2 ^ 31
  end.

(** [int16(f)]: the compiler converts to 32 bits and keeps the low 16
    bits, read as a two's complement number. *)
Definition int16_of_float64 (f : float) : Z :=
  (int32_of_float64 f + 2 ^ 15) mod 2 ^ 16 - 2 ^ 15.

(** [math.Ceil]: the least integral float not below [f]; zeros,
    infinities and NaN are returned as they are. *)
Definition math_Ceil (f : float) : float :=
  match Prim2SF f with
  | S754_finite s m e =>
      if 0 <=? e then f
      else
        let q := Z.shiftr (Zpos m) (- e) in
        let exact := Zpos m =? Z.shiftl q (- e) in
        if s then (if q =? 0 then neg_zero else (- float64_of_int q)%float)
        else float64_of_int (if exact then q else q + 1)
  | _ => f
  end.

(** The most bytes one allocation may ask for: [maxAlloc] of the run
    time, which is 2^48 on amd64. *)
Definition maxAlloc : Z := 2 ^ 48.

(** The sizes in bytes of the element types the program allocates:
    [float64], [int16], and the header of a slice ([[]float64]). *)
Definition sizeof_float64 : Z := 8.
Definition sizeof_int16 : Z := 2.
Definition sizeof_slice : Z := 24.

(** The check of [makeslice] for [n] elements of [size] bytes: a negative
    length, and a length that takes more than [maxAlloc] bytes, are the
    panic "makeslice: len out of range". *)
Definition panicmakeslicelen (size n : Z) : bool :=
  (n <? 0) || (maxAlloc <? size * n).

(** [make([]T, n)] for an element type of [size] bytes whose zero value is
    [z]. An allocation that passes the check of [makeslice] is taken to
    succeed: the memory of the machine has no bound here. *)
Definition make {T : Type} (size : Z) (z : T) (n : Z) : panics (list T) :=
  if panicmakeslicelen size n then None else Some (repeat z (Z.to_nat n)).

(** [s[i]] *)
Definition index {T : Type} (s : list T) (i : Z) : panics T :=
  if (0 <=? i) && (i <? Z.of_nat (length s)) then nth_error s (Z.to_nat i)
  else None.

(** [s[i] = v] *)
Fixpoint set_nth {T : Type} (s : list T) (n : nat) (v : T) : list T :=
  match s, n with
  | [], _ => []
  | _ :: s', O => v :: s'
  | a :: s', S n' => a :: set_nth s' n' v
  end.

Definition store {T : Type} (s : list T) (i : Z) (v : T) : panics (list T) :=
  if (0 <=? i) && (i <? Z.of_nat (length s)) then Some (set_nth s (Z.to_nat i) v)
  else None.

(** [s[lo:hi]] on a list. Go checks [hi] against the capacity; a list has
    only its length, and that is the bound here. The windows the program
    cuts under a configuration of [NewResampler] end within the length
    ([rawSample_first_interval]); [Mem.reslice] has the bound of Go. *)
Definition slice {T : Type} (s : list T) (lo hi : Z) : panics (list T) :=
  if (0 <=? lo) && (lo <=? hi) && (hi <=? Z.of_nat (length s))
  then Some (firstn (Z.to_nat (hi - lo)) (skipn (Z.to_nat lo) s))
  else None.

(** [a % b] and [a / b] on integers: truncated, and a panic on zero. *)
Definition rem (a b : Z) : panics Z :=
  if b =? 0 then None else Some (Z.rem a b).

Definition quot (a b : Z) : panics Z :=
  if b =? 0 then None else Some (Z.quot a b).

End Go.

Notation "x <- m ;; k" := (Go.bind m (fun x => k))
  (at level 61, m at next level, right associativity).

(** ** The resampler *)

Record Resampler : Type := {
  FromRate : Z;  (* The original audio sample rate. *)
  ToRate : Z;    (* The resampled audio sample rate. *)
  Channels : Z   (* The amount of channels. *)
}.

(** The three errors of [NewResampler], each with the value it reports. *)
Inductive error : Type :=
| ErrChannels (have : Z)
| ErrInputRate (got : Z)
| ErrOutputRate (got : Z).

Definition NewResampler (channels inputRate outputRate : Z) : Resampler + error :=
  if channels <? 1 then inr (ErrChannels channels)
  else if inputRate <? 1 then inr (ErrInputRate inputRate)
  else if outputRate <? 1 then inr (ErrOutputRate outputRate)
  else inl {| FromRate := inputRate; ToRate := outputRate; Channels := channels |}.

(** ** The spline evaluator *)

Section Spline.

Local Open Scope float_scope.

Definition splineC1 (yi : list float) : Go.panics float :=
  y0 <- Go.index yi 0%Z ;; y1 <- Go.index yi 1%Z ;;
  y2 <- Go.index yi 2%Z ;; _ <- Go.index yi 3%Z ;;
  Some (3 * ((y2 - y1) - (y1 - y0))).

Definition splineC2 (yi : list float) : Go.panics float :=
  _ <- Go.index yi 0%Z ;; y1 <- Go.index yi 1%Z ;;
  y2 <- Go.index yi 2%Z ;; y3 <- Go.index yi 3%Z ;;
  Some (3 * ((y3 - y2) - (y2 - y1))).

Definition splineM1 (c1 c2 : float) : float :=
  (c1 * 2 - c2 / 2) / 3.75.

Definition splineM2 (c1 c2 : float) : float :=
  (c1 / 2 - c2 * 2) / -7.75.

Definition splineZ0 (m1 h0 x0 x1 y0 y1 x : float) : float :=
  let v1 := (x - x0) * (x - x0) * (x - x0) * m1 / (6 * h0) in
  let v2 := -1.0 * y0 * (x - x1) / h0 in
  let v3 := (y1 - h0 * h0 * m1 / 6) * (x - x0) / h0 in
  v1 + v2 + v3.

Definition splineZ1 (m1 m2 h1 x1 x2 y1 y2 x : float) : float :=
  let v0 := -1.0 * (x - x2) * (x - x2) * (x - x2) * m1 / (6 * h1) in
  let v1 := (x - x1) * (x - x1) * (x - x1) * m2 / (6 * h1) in
  let v2 := -1.0 * (y1 - h1 * h1 * m1 / 6) * (x - x2) / h1 in
  let v3 := (y2 - h1 * h1 * m2 / 6) * (x - x1) / h1 in
  v0 + v1 + v2 + v3.

Definition splineZ2 (m2 h2 x2 x3 y2 y3 x : float) : float :=
  let v0 := -1.0 * (x - x3) * (x - x3) * (x - x3) * m2 / (6 * h2) in
  let v2 := -1.0 * (y2 - h2 * h2 * m2 / 6) * (x - x3) / h2 in
  let v3 := y3 * (x - x2) / h2 in
  v0 + v2 + v3.

(** The sub-interval of the window that [spline] evaluates. *)
Inductive branch : Type := Z0_branch | Z1_branch | Z2_branch.

Definition spline_branch (xi xo : float) : branch :=
  if xo <=? xi + 1 then Z0_branch
  else if xo <=? xi + 2 then Z1_branch
  else Z2_branch.

Definition spline (xi : float) (yi : list float) (xo : float) : Go.panics float :=
  y0 <- Go.index yi 0%Z ;; y1 <- Go.index yi 1%Z ;;
  y2 <- Go.index yi 2%Z ;; y3 <- Go.index yi 3%Z ;;
  c1 <- splineC1 yi ;; c2 <- splineC2 yi ;;
  let m1 := splineM1 c1 c2 in
  let m2 := splineM2 c1 c2 in (* m0=m3=0 *)
  if xo <=? xi + 1 then
    Some (splineZ0 m1 1 xi (xi + 1) y0 y1 xo)
  else if xo <=? xi + 2 then
    Some (splineZ1 m1 m2 1 (xi + 1) (xi + 2) y1 y2 xo)
  else
    Some (splineZ2 m2 1 (xi + 2) (xi + 3) y2 y3 xo).

End Spline.

(** ** The per-channel resampler *)

Section Channel.

Local Open Scope float_scope.

(** [float64(0x7FFF)] *)
Definition x7FFF : float := Go.float64_of_int 32767.

(** The resample step between new samples. *)
Definition channelStep (r : Resampler) : float :=
  let channelFrom := Go.float64_of_int (FromRate r) / Go.float64_of_int (Channels r) in
  let channelTo := Go.float64_of_int (ToRate r) / Go.float64_of_int (Channels r) in
  channelFrom / channelTo.

(** The value of the spline evaluator in the pass whose cursor is [x]. *)
Definition rawSample (data : list float) (x : float) : Go.panics float :=
  let xi0 := Go.float64_of_int (Go.uint64_of_float64 x) in
  let yi0 := Go.uint64_of_float64 xi0 in
  yi <- Go.slice data yi0 (yi0 + 4)%Z ;;
  spline xi0 yi x.

(** One pass through the body of the resampling loop: the sample written
    to [output[i]]. *)
Definition resampleAt (data : list float) (x : float) : Go.panics float :=
  yo <- rawSample data x ;;
  Some (yo / x7FFF).

(** The loop [for x := step; x < float64(availSamples); x += step], from
    the state [(x, i, output)]. A pass either leaves the loop, panics, or
    fills one more slot of [output], so [fuel] passes are enough once
    [fuel] exceeds the length of [output]. *)
Fixpoint resampleLoop (fuel : nat) (data : list float) (avail step : float)
    (x : float) (i : Z) (output : list float) : Go.panics (list float) :=
  if x <? avail then
    match fuel with
    | O => None
    | S fuel' =>
        v <- resampleAt data x ;;
        output' <- Go.store output i v ;;
        resampleLoop fuel' data avail step (x + step) (i + 1)%Z output'
    end
  else Go.slice output 0%Z i.

Definition resampleChannelData (r : Resampler) (data : list float)
  : Go.panics (list float) :=
  let len := Z.of_nat (length data) in
  (* Need at least 16 samples to resample a channel *)
  if (len <=? 16)%Z then Go.make Go.sizeof_float64 0 len
  else
    (* The samples we can use to resample *)
    let availSamples := (len - 16)%Z in
    let step := channelStep r in
    output <- Go.make Go.sizeof_float64 0
      (Go.int_of_float64 (Go.math_Ceil (Go.float64_of_int availSamples / step))) ;;
    (* Resample each position from x0 *)
    resampleLoop (S (length output)) data (Go.float64_of_int availSamples) step
      step 0%Z output.

End Channel.

(** ** Counted loops *)

(** [for i := lo; i < lo + n; i++ { body }] over a state [s]. *)
Fixpoint for_range {S : Type} (n : nat) (i : Z) (body : Z -> S -> Go.panics S) (s : S)
  : Go.panics S :=
  match n with
  | O => Some s
  | S n' => s' <- body i s ;; for_range n' (i + 1) body s'
  end.

(** [for i := 0; i < hi; i++ { body }] *)
Definition for_upto {S : Type} (hi : Z) (body : Z -> S -> Go.panics S) (s : S)
  : Go.panics S :=
  for_range (Z.to_nat hi) 0 body s.

Definition len {T : Type} (s : list T) : Z := Z.of_nat (length s).

(** ** The buffer adapter *)

Section Buffer.

Local Open Scope float_scope.

(** Split channels: one pass of the loop. *)
Definition splitBody (r : Resampler) (data : list float) (i : Z)
    (channels : list (list float)) : Go.panics (list (list float)) :=
  channelIdx <- Go.rem i (Channels r) ;;
  ch <- Go.index channels channelIdx ;;
  d <- Go.index data i ;;
  Go.store channels channelIdx (ch ++ [d]).

(** The length of the resampled buffer. *)
Definition targetLength (r : Resampler) (data : list float) : Z :=
  Go.int_of_float64
    ((Go.float64_of_int (len data) / Go.float64_of_int (FromRate r))
     * Go.float64_of_int (ToRate r)).

(** Resample channels: one pass of the loop. *)
Definition resampleBody (r : Resampler) (channels : list (list float)) (c : Z)
    (resampledData : list (list float)) : Go.panics (list (list float)) :=
  ch <- Go.index channels c ;;
  out <- resampleChannelData r ch ;;
  Go.store resampledData c out.

(** The interleaving loop: one pass. *)
Definition mergeBody (r : Resampler) (channels resampledData : list (list float))
    (i : Z) (resampled : list float) : Go.panics (list float) :=
  dataIdx <- Go.quot i (Channels r) ;;
  c <- Go.rem i (len channels) ;;
  rd <- Go.index resampledData c ;;
  let dataLen := len rd in
  if (dataLen =? 0)%Z then Some resampled
  else
    let dataIdx := if (dataIdx >? dataLen - 1)%Z then (dataLen - 1)%Z else dataIdx in
    let dataIdx := if (dataIdx <? 0)%Z then 0%Z else dataIdx in
    v <- Go.index rd dataIdx ;;
    Go.store resampled i v.

(** Resamples a float64 audio buffer. Returns the resampled buffer. *)
Definition ResampleFloat64 (r : Resampler) (data : list float)
  : Go.panics (list float) :=
  if (len data =? 0)%Z then Some []
  else if (FromRate r =? ToRate r)%Z then Some data
  else
    channels <- Go.make Go.sizeof_slice [] (Channels r) ;;
    channels <- for_upto (len data) (splitBody r data) channels ;;
    resampled <- Go.make Go.sizeof_float64 0 (targetLength r data) ;;
    resampledData <- Go.make Go.sizeof_slice [] (len channels) ;;
    resampledData <- for_upto (len channels) (resampleBody r channels) resampledData ;;
    for_upto (len resampled) (mergeBody r channels resampledData) resampled.

(** Resamples an int16 audio buffer. Returns the resampled buffer. *)
Definition ResampleInt16 (r : Resampler) (data : list Z) : Go.panics (list Z) :=
  (* Convert the data to float64 *)
  f64data <- Go.make Go.sizeof_float64 0 (len data) ;;
  f64data <- for_upto (len data)
               (fun i f64data =>
                  d <- Go.index data i ;;
                  Go.store f64data i (Go.float64_of_int d / x7FFF))
               f64data ;;
  (* Resample *)
  resampledf64 <- ResampleFloat64 r f64data ;;
  (* Convert back to int16 *)
  resampledi16 <- Go.make Go.sizeof_int16 0%Z (len resampledf64) ;;
  for_upto (len resampledf64)
    (fun i resampledi16 =>
       v <- Go.index resampledf64 i ;;
       Go.store resampledi16 i (Go.int16_of_float64 (v * x7FFF)))
    resampledi16.

End Buffer.

(** ** The cursor of the per-channel loop *)

Section Cursor.

Local Open Scope float_scope.

(** The cursor of the loop after [k] increments from [x]. *)
Fixpoint advance (step : float) (k : nat) (x : float) : float :=
  match k with
  | O => x
  | S k' => advance step k' (x + step)
  end.

(** The value of [x] in pass [k] (from 0): [step] incremented [k] times. *)
Definition cursor (step : float) (k : nat) : float := advance step k step.

(** The loop started at [x] makes exactly [n] passes. *)
Definition passes (step avail x : float) (n : nat) : Prop :=
  (forall j, (j < n)%nat -> (advance step j x <? avail) = true)
  /\ (advance step n x <? avail) = false.

(** The number of iterations executed by the cursor that starts at [step]
    and is incremented by [step] while it is below [avail]. *)
Definition iterations (step avail : float) (n : nat) : Prop :=
  passes step avail step n.

(** The capacity allocated for the output of a channel. *)
Definition capacity (r : Resampler) (availSamples : Z) : Z :=
  Go.int_of_float64
    (Go.math_Ceil (Go.float64_of_int availSamples / channelStep r)).

End Cursor.

(** ** The 16-bit conversions *)

(** The conversions of [ResampleInt16], sample by sample. *)
Definition normalize (d : Z) : float := (Go.float64_of_int d / x7FFF)%float.
Definition denormalize (v : float) : Z := Go.int16_of_float64 (v * x7FFF)%float.

(** ** Binary64 arithmetic on mantissas *)

(** [M / 2^n] rounded to nearest, ties to even. *)
Definition round_shift (M n : Z) : Z :=
  let q := M / 2 ^ n in
  let r := M mod 2 ^ n in
  if 2 * r <? 2 ^ n then q
  else if 2 * r =? 2 ^ n then (if Z.even q then q else q + 1)
  else q + 1.

(** The record after [k] one-bit shifts of [M]: the quotient, and the
    position of the remainder against half a unit. *)
Definition shifted (M : Z) (k : Z) (mrs : shr_record) : Prop :=
  exists r,
    M = shr_m mrs * 2 ^ k + r /\ 0 <= r < 2 ^ k /\ 0 <= shr_m mrs
    /\ shr_r mrs = (2 ^ k <=? 2 * r)
    /\ shr_s mrs = negb (r =? 0) && negb (2 * r =? 2 ^ k).

(** The float a rounded mantissa denotes: [m] at exponent [e], or an
    infinity when the exponent is beyond the format. *)
Definition finite_or_inf (s : bool) (m e : Z) : spec_float :=
  match m with
  | Zpos p => if e <=? emax - prec then S754_finite s p e else S754_infinity s
  | Z0 => S754_zero s
  | Zneg _ => S754_nan
  end.

(** A positive float of full mantissa whose exponent is inside the format. *)
Definition normal (m e : Z) : Prop :=
  2 ^ (prec - 1) <= m < 2 ^ prec /\ emin <= e <= emax - prec.

Definition fin (m : Z) (e : Z) : spec_float := S754_finite false (Z.to_pos m) e.

(** The float64 of mantissa [m] and exponent [e]. *)
Definition F (m e : Z) : float := SF2Prim (fin m e).

Definition normalb (m e : Z) : bool :=
  (2 ^ (prec - 1) <=? m) && (m <? 2 ^ prec) && (emin <=? e) && (e <=? emax - prec).

(** The cursor [x] and the passes it makes before its mantissa leaves the
    binade (at most [todo]): inside a binade every increment adds the same
    number of units to the mantissa. *)
Definition binade_jump (step x : float) (todo : Z) : option (float * Z) :=
  match Prim2SF x, Prim2SF step with
  | S754_finite false m e, S754_finite false ms es =>
      let d := e - es in
      let inc := round_shift (Zpos ms) d in
      let n := Z.min todo ((2 ^ prec - 1 - Zpos m) / inc) in
      if normalb (Zpos m) e && normalb (Zpos ms) es && (es <? e)
         && negb (2 * (Zpos ms mod 2 ^ d) =? 2 ^ d) && (0 <? n)
      then Some (F (Zpos m + n * inc) e, n)
      else None
  | _, _ => None
  end.

(** Whether the cursor stays below [avail] for [todo] more increments from
    [x]; binades are crossed in one jump each. *)
Fixpoint stays_below (fuel : nat) (step avail x : float) (todo : Z) : bool :=
  match fuel with
  | O => false
  | S fuel' =>
      PrimFloat.ltb x avail
      && (if todo <=? 0 then true
          else match binade_jump step x todo with
               | Some (x', n) => stays_below fuel' step avail x' (todo - n)
               | None => stays_below fuel' step avail (x + step)%float (todo - 1)
               end)
  end.

(** The sign of a rounded float is the sign given. *)
Definition sign_is (s : bool) (f : spec_float) : Prop :=
  match f with
  | S754_nan => True
  | S754_zero s' | S754_infinity s' | S754_finite s' _ _ => s' = s
  end.

Definition nonneg (x : float) : Prop := sign_is false (Prim2SF x).

(** The positive floats of the format: a mantissa below 2^53 that is full
    unless the exponent is the least one. *)
Definition positive_float (m e : Z) : Prop :=
  0 < m < 2 ^ prec /\ emin <= e <= emax - prec
  /\ (2 ^ (prec - 1) <= m \/ e = emin).

(** The value of [m * 2^e] in units of the least exponent. *)
Definition units (m e : Z) : Z := m * 2 ^ (e - emin).

(** A configuration as [NewResampler] builds it from three [int]s. *)
Definition valid_config (r : Resampler) : Prop :=
  1 <= Channels r <= Go.int_max
  /\ 1 <= FromRate r <= Go.int_max
  /\ 1 <= ToRate r <= Go.int_max.

(** The exact value of a finite float, as a rational. *)
Definition Qval (x : float) : option QArith_base.Q :=
  match Prim2SF x with
  | S754_zero _ => Some (QArith_base.inject_Z 0)
  | S754_finite s m e =>
      let a := if 0 <=? e then QArith_base.inject_Z (Zpos m * 2 ^ e)
               else QArith_base.Qmake (Zpos m) (Z.to_pos (2 ^ (- e))) in
      Some (if s then QArith_base.Qopp a else a)
  | S754_infinity _ | S754_nan => None
  end.

(** The length of the resampled buffer in the words of the specification:
    [floor((length / sourceRate) * targetRate)], the quotient and the
    product taken exactly. *)
Definition targetLength_spec (r : Resampler) (data : list float) : Z :=
  Qround.Qfloor
    (QArith_base.Qmult
       (QArith_base.Qdiv (QArith_base.inject_Z (len data))
          (QArith_base.inject_Z (FromRate r)))
       (QArith_base.inject_Z (ToRate r))).

(** ** The same program over a store

    The caller's buffer, the receiver and every array the program allocates
    live in a store; a slice is a header that points into it. *)

Module Mem.

(** A slice header: the array it points into, the offset of its first
    element there, its length and its capacity. *)
Record slice : Type := {
  base : nat;
  off : nat;
  slen : nat;
  scap : nat
}.

(** The nil slice. *)
Definition nil : slice := {| base := 0; off := 0; slen := 0; scap := 0 |}.

Record store : Type := {
  floats : list (list float);  (* the arrays of float64, by address *)
  ints : list (list Z);        (* the arrays of int16, by address *)
  receiver : Resampler         (* the struct the method is called on *)
}.

(** A computation reads and writes the store; it ends with a value or
    with a panic, and with the store it leaves in either case. *)
Definition M (A : Type) : Type := store -> Go.panics A * store.

Definition ret {A : Type} (a : A) : M A := fun st => (Some a, st).

Definition bind {A B : Type} (m : M A) (k : A -> M B) : M B :=
  fun st => match m st with
            | (Some a, st') => k a st'
            | (None, st') => (None, st')
            end.

(** A step that leaves the store alone. *)
Definition lift {A : Type} (p : Go.panics A) : M A := fun st => (p, st).

(** [len(s)] *)
Definition len (s : slice) : Z := Z.of_nat (slen s).

(** The elements a slice shows of an array. *)
Definition window {T : Type} (s : slice) (arr : list T) : list T :=
  firstn (slen s) (skipn (off s) arr).

Definition contents (st : store) (s : slice) : list float :=
  window s (nth (base s) (floats st) []).

Definition contents16 (st : store) (s : slice) : list Z :=
  window s (nth (base s) (ints st) []).

(** [arr] with the array at address [b] replaced by its image under [f]. *)
Fixpoint update {T : Type} (arr : list T) (b : nat) (f : T -> T) : list T :=
  match arr, b with
  | [], _ => []
  | a :: arr', O => f a :: arr'
  | a :: arr', S b' => a :: update arr' b' f
  end.

Definition set_floats (st : store) (h : list (list float)) : store :=
  {| floats := h; ints := ints st; receiver := receiver st |}.

Definition set_ints (st : store) (h : list (list Z)) : store :=
  {| floats := floats st; ints := h; receiver := receiver st |}.

(** The fields of the receiver. *)
Definition this : M Resampler := fun st => (Some (receiver st), st).

(** [make([]float64, n)]: a new array of [n] zeros, when [makeslice]
    lets the length pass. *)
Definition make (n : Z) : M slice :=
  fun st =>
    if Go.panicmakeslicelen Go.sizeof_float64 n then (None, st)
    else (Some {| base := length (floats st); off := 0;
                  slen := Z.to_nat n; scap := Z.to_nat n |},
          set_floats st (floats st ++ [repeat 0%float (Z.to_nat n)])).

(** [make([]int16, n)] *)
Definition make16 (n : Z) : M slice :=
  fun st =>
    if Go.panicmakeslicelen Go.sizeof_int16 n then (None, st)
    else (Some {| base := length (ints st); off := 0;
                  slen := Z.to_nat n; scap := Z.to_nat n |},
          set_ints st (ints st ++ [repeat 0 (Z.to_nat n)])).

(** [s[i]] *)
Definition load (s : slice) (i : Z) : M float :=
  fun st => lift (Go.index (contents st s) i) st.

Definition load16 (s : slice) (i : Z) : M Z :=
  fun st => lift (Go.index (contents16 st s) i) st.

(** [s[i] = v] *)
Definition store_at (s : slice) (i : Z) (v : float) : M unit :=
  fun st =>
    if (0 <=? i) && (i <? len s) then
      (Some tt, set_floats st
                  (update (floats st) (base s)
                     (fun arr => Go.set_nth arr (off s + Z.to_nat i) v)))
    else (None, st).

Definition store16_at (s : slice) (i : Z) (v : Z) : M unit :=
  fun st =>
    if (0 <=? i) && (i <? len s) then
      (Some tt, set_ints st
                  (update (ints st) (base s)
                     (fun arr => Go.set_nth arr (off s + Z.to_nat i) v)))
    else (None, st).

(** [s[lo:hi]]: the same array, seen from [lo]. *)
Definition reslice (s : slice) (lo hi : Z) : Go.panics slice :=
  if (0 <=? lo) && (lo <=? hi) && (hi <=? Z.of_nat (scap s))
  then Some {| base := base s; off := off s + Z.to_nat lo;
               slen := Z.to_nat (hi - lo); scap := scap s - Z.to_nat lo |}
  else None.

Section Append.

(** The capacity of the array [append] moves a full slice of capacity [c]
    into: the run time chooses it, beyond [c]. *)
Variable growslice : nat -> nat.

(** [append(s, v)]: in place when the capacity allows, and into a new
    array otherwise; the new array is taken to be granted. *)
Definition append (s : slice) (v : float) : M slice :=
  fun st =>
    if (slen s <? scap s)%nat then
      (Some {| base := base s; off := off s; slen := S (slen s); scap := scap s |},
       set_floats st
         (update (floats st) (base s)
            (fun arr => Go.set_nth arr (off s + slen s) v)))
    else
      (Some {| base := length (floats st); off := 0;
               slen := S (slen s); scap := growslice (scap s) |},
       set_floats st
         (floats st
          ++ [contents st s ++ v :: repeat 0%float (growslice (scap s) - S (slen s))])).

Notation "x <~ m ;; k" := (bind m (fun x => k))
  (at level 61, m at next level, right associativity).

(** [for i := lo; i < lo + n; i++ { body }] over the local state [s]. *)
Fixpoint for_range {S : Type} (n : nat) (i : Z) (body : Z -> S -> M S) (s : S) : M S :=
  match n with
  | O => ret s
  | S n' => s' <~ body i s ;; for_range n' (i + 1) body s'
  end.

Definition for_upto {S : Type} (hi : Z) (body : Z -> S -> M S) (s : S) : M S :=
  for_range (Z.to_nat hi) 0 body s.

Local Open Scope float_scope.

Definition splineC1 (yi : slice) : M float :=
  y0 <~ load yi 0%Z ;; y1 <~ load yi 1%Z ;;
  y2 <~ load yi 2%Z ;; _ <~ load yi 3%Z ;;
  ret (3 * ((y2 - y1) - (y1 - y0))).

Definition splineC2 (yi : slice) : M float :=
  _ <~ load yi 0%Z ;; y1 <~ load yi 1%Z ;;
  y2 <~ load yi 2%Z ;; y3 <~ load yi 3%Z ;;
  ret (3 * ((y3 - y2) - (y2 - y1))).

Definition spline (xi : float) (yi : slice) (xo : float) : M float :=
  y0 <~ load yi 0%Z ;; y1 <~ load yi 1%Z ;;
  y2 <~ load yi 2%Z ;; y3 <~ load yi 3%Z ;;
  c1 <~ splineC1 yi ;; c2 <~ splineC2 yi ;;
  let m1 := splineM1 c1 c2 in
  let m2 := splineM2 c1 c2 in
  if xo <=? xi + 1 then
    ret (splineZ0 m1 1 xi (xi + 1) y0 y1 xo)
  else if xo <=? xi + 2 then
    ret (splineZ1 m1 m2 1 (xi + 1) (xi + 2) y1 y2 xo)
  else
    ret (splineZ2 m2 1 (xi + 2) (xi + 3) y2 y3 xo).

(** One pass through the body of the resampling loop. *)
Definition resamplePass (data : slice) (x : float) (output : slice) (i : Z) : M unit :=
  let xi0 := Go.float64_of_int (Go.uint64_of_float64 x) in
  let yi0 := Go.uint64_of_float64 xi0 in
  yi <~ lift (reslice data yi0 (yi0 + 4)%Z) ;;
  yo <~ spline xi0 yi x ;;
  store_at output i (yo / x7FFF).

Fixpoint resampleLoop (fuel : nat) (data : slice) (avail step : float)
    (x : float) (i : Z) (output : slice) : M slice :=
  if x <? avail then
    match fuel with
    | O => lift None
    | S fuel' =>
        _ <~ resamplePass data x output i ;;
        resampleLoop fuel' data avail step (x + step) (i + 1)%Z output
    end
  else lift (reslice output 0%Z i).

Definition resampleChannelData (data : slice) : M slice :=
  (* Need at least 16 samples to resample a channel *)
  if (len data <=? 16)%Z then make (len data)
  else
    (* The samples we can use to resample *)
    let availSamples := (len data - 16)%Z in
    r <~ this ;;
    let step := channelStep r in
    output <~ make
      (Go.int_of_float64 (Go.math_Ceil (Go.float64_of_int availSamples / step))) ;;
    (* Resample each position from x0 *)
    resampleLoop (S (slen output)) data (Go.float64_of_int availSamples) step
      step 0%Z output.

(** Split channels: one pass of the loop. The slice of the channels'
    headers is local to the call; it is kept as the list of the headers. *)
Definition splitBody (data : slice) (i : Z) (channels : list slice)
  : M (list slice) :=
  r <~ this ;;
  channelIdx <~ lift (Go.rem i (Channels r)) ;;
  ch <~ lift (Go.index channels channelIdx) ;;
  d <~ load data i ;;
  ch' <~ append ch d ;;
  lift (Go.store channels channelIdx ch').

(** Resample channels: one pass of the loop. *)
Definition resampleBody (channels : list slice) (c : Z) (resampledData : list slice)
  : M (list slice) :=
  ch <~ lift (Go.index channels c) ;;
  out <~ resampleChannelData ch ;;
  lift (Go.store resampledData c out).

(** The interleaving loop: one pass. *)
Definition mergeBody (channels resampledData : list slice) (resampled : slice)
    (i : Z) (_ : unit) : M unit :=
  r <~ this ;;
  dataIdx <~ lift (Go.quot i (Channels r)) ;;
  c <~ lift (Go.rem i (Z.of_nat (length channels))) ;;
  rd <~ lift (Go.index resampledData c) ;;
  let dataLen := len rd in
  if (dataLen =? 0)%Z then ret tt
  else
    let dataIdx := if (dataIdx >? dataLen - 1)%Z then (dataLen - 1)%Z else dataIdx in
    let dataIdx := if (dataIdx <? 0)%Z then 0%Z else dataIdx in
    v <~ load rd dataIdx ;;
    store_at resampled i v.

(** Resamples a float64 audio buffer. Returns the resampled buffer. *)
Definition ResampleFloat64 (data : slice) : M slice :=
  if (len data =? 0)%Z then ret nil
  else
    r <~ this ;;
    if (FromRate r =? ToRate r)%Z then lift (reslice data 0%Z (len data))
    else
      channels <~ lift (Go.make Go.sizeof_slice nil (Channels r)) ;;
      channels <~ for_upto (len data) (splitBody data) channels ;;
      r <~ this ;;
      resampled <~ make
        (Go.int_of_float64
           ((Go.float64_of_int (len data) / Go.float64_of_int (FromRate r))
            * Go.float64_of_int (ToRate r))) ;;
      resampledData <~ lift (Go.make Go.sizeof_slice nil (Z.of_nat (length channels))) ;;
      resampledData <~ for_upto (Z.of_nat (length channels)) (resampleBody channels)
                         resampledData ;;
      _ <~ for_upto (len resampled) (mergeBody channels resampledData resampled) tt ;;
      ret resampled.

(** Resamples an int16 audio buffer. Returns the resampled buffer. *)
Definition ResampleInt16 (data : slice) : M slice :=
  (* Convert the data to float64 *)
  f64data <~ make (len data) ;;
  _ <~ for_upto (len data)
         (fun i _ =>
            d <~ load16 data i ;;
            store_at f64data i (Go.float64_of_int d / x7FFF))
         tt ;;
  (* Resample *)
  resampledf64 <~ ResampleFloat64 f64data ;;
  (* Convert back to int16 *)
  resampledi16 <~ make16 (len resampledf64) ;;
  _ <~ for_upto (len resampledf64)
         (fun i _ =>
            v <~ load resampledf64 i ;;
            store16_at resampledi16 i (Go.int16_of_float64 (v * x7FFF)))
         tt ;;
  ret resampledi16.

End Append.

(** *** What a call leaves of the store *)

(** [st] has the receiver of [st0] and every array of [st0] at its
    address, as it was; the arrays that follow are new. *)
Definition extends (st0 st : store) : Prop :=
  receiver st = receiver st0
  /\ (exists fs, floats st = floats st0 ++ fs)
  /\ (exists zs, ints st = ints st0 ++ zs).

(** The slice points into an array that [st0] does not have. *)
Definition owned (st0 : store) (s : slice) : Prop :=
  (length (floats st0) <= base s)%nat.

Definition owned16 (st0 : store) (s : slice) : Prop :=
  (length (ints st0) <= base s)%nat.

(** A slice that [append] can write through only into a new array. *)
Definition spare (st0 : store) (s : slice) : Prop :=
  (slen s < scap s)%nat -> owned st0 s.

(** [m] keeps the arrays and the receiver of [st0], whether it returns or
    panics, and what it returns satisfies [Q]. *)
Definition keeps {A : Type} (st0 : store) (m : M A) (Q : A -> Prop) : Prop :=
  forall st, extends st0 st ->
    extends st0 (snd (m st)) /\ forall a, fst (m st) = Some a -> Q a.

(** *** What the headers show of the store *)

(** The elements of the slice, and the room behind them up to its
    capacity, are in the store. *)
Definition fits (st : store) (s : slice) : Prop :=
  (slen s <= scap s)%nat
  /\ ((0 < scap s)%nat ->
      (base s < length (floats st))%nat
      /\ (off s + scap s <= length (nth (base s) (floats st) []))%nat).

Definition fits16 (st : store) (s : slice) : Prop :=
  (slen s <= scap s)%nat
  /\ ((0 < scap s)%nat ->
      (base s < length (ints st))%nat
      /\ (off s + scap s <= length (nth (base s) (ints st) []))%nat).

(** No two of the headers with room share an array. *)
Definition separate (chs : list slice) : Prop :=
  forall i j h h',
    i <> j -> nth_error chs i = Some h -> nth_error chs j = Some h' ->
    (0 < scap h)%nat -> (0 < scap h')%nat -> base h <> base h'.

(** The headers [chs] show the channels [chp], each from an array of its
    own that the store [st0] does not have. *)
Definition split_inv (st0 st : store) (chs : list slice) (chp : list (list float))
  : Prop :=
  extends st0 st /\ length chs = length chp /\ separate chs
  /\ forall j h l,
       nth_error chs j = Some h -> nth_error chp j = Some l ->
       contents st h = l /\ fits st h /\ spare st0 h.

(** The headers [hs] show the buffers [ls]. *)
Definition shows (st : store) (hs : list slice) (ls : list (list float)) : Prop :=
  length hs = length ls
  /\ forall j h l,
       nth_error hs j = Some h -> nth_error ls j = Some l ->
       contents st h = l /\ fits st h.

(** The headers with room point into arrays from address [n] on. *)
Definition from_address (n : nat) (hs : list slice) : Prop :=
  forall j h, nth_error hs j = Some h -> (0 < scap h)%nat -> (n <= base h)%nat.

End Mem.

(** ** The buffer, channel by channel *)

(** The samples of channel [c] of a buffer that interleaves [n] channels:
    those at the indices [c], [c + n], [c + 2n], ... *)
Definition channel (n : Z) (data : list float) (c : Z) : list float :=
  map snd
    (filter (fun p => Z.rem (Z.of_nat (fst p)) n =? c)
       (combine (seq 0 (length data)) data)).

Definition deinterleave (n : Z) (data : list float) : list (list float) :=
  map (fun c => channel n data (Z.of_nat c)) (seq 0 (Z.to_nat n)).

(** [f] on every element in turn, up to the first panic. *)
Fixpoint traverse {A B : Type} (f : A -> Go.panics B) (l : list A)
  : Go.panics (list B) :=
  match l with
  | [] => Some []
  | a :: l' => b <- f a ;; bs <- traverse f l' ;; Some (b :: bs)
  end.

(** Sample [i] of the buffer that interleaves the resampled channels [rd]:
    sample [i / n] of channel [i % n], or its last sample beyond its end,
    and zero for a channel without samples. *)
Definition interleaved (n : Z) (rd : list (list float)) (i : Z) : float :=
  let out := nth (Z.to_nat (Z.rem i n)) rd [] in
  if len out =? 0 then 0%float
  else nth (Z.to_nat (Z.min (Z.quot i n) (len out - 1))) out 0%float.

(** ** The 16-bit round trip *)

(** [f / float64(0x7FFF) * float64(0x7FFF)] is [f] again, bit for bit. *)
Definition round_trips (f : float) : bool :=
  PrimFloat.Leibniz.eqb ((f / x7FFF) * x7FFF)%float f.

(** The samples [d], [d + 1], ... [d + n - 1] and their opposites all make
    the round trip. *)
Fixpoint all_round_trip (n : nat) (d : Z) : bool :=
  match n with
  | O => true
  | S n' =>
      let f := PrimFloat.of_uint63 (Uint63.of_Z d) in
      round_trips f && round_trips (- f)%float && all_round_trip n' (d + 1)
  end.

(** ** The storage of a result *)

(** What [ResampleFloat64] returns, as storage: nil, the input slice, or
    a slice of an array that the call has made. *)
Definition float_result (st0 : Mem.store) (data s : Mem.slice) : Prop :=
  s = Mem.nil
  \/ (FromRate (Mem.receiver st0) = ToRate (Mem.receiver st0)
      /\ Mem.reslice data 0 (Mem.len data) = Some s)
  \/ (FromRate (Mem.receiver st0) <> ToRate (Mem.receiver st0) /\ Mem.owned st0 s).

(** ** Steps that are powers of two *)

(** The float64 [n * 2^k], for a positive [n] below 2^53. *)
Definition dyadic (n k : Z) : float :=
  let s := prec - Zdigits2 n in F (n * 2 ^ s) (k - s).

(** The number of passes the per-channel loop makes over [a] available
    samples with the step [2^k]: the multiples [j * 2^k], [j >= 1], below
    [a]. *)
Definition dyadic_passes (a k : Z) : Z :=
  if k <=? 0 then a * 2 ^ (- k) - 1 else (a - 1) / 2 ^ k.

(** ** Concrete buffers of the specification's scenarios *)

Definition iota20 : list float :=
  map (fun k => Go.float64_of_int (Z.of_nat k)) (seq 0 20).

Definition ones (n : nat) : list float := repeat 1%float n.

Definition mono (from to : Z) : Resampler :=
  {| FromRate := from; ToRate := to; Channels := 1 |}.

(** * Properties *)

(** ** Slices and counted loops *)

Module GoFacts.

Lemma len_nonneg {T : Type} (s : list T) : 0 <= len s.
Proof. unfold len; lia. Qed.

Lemma panicmakeslicelen_true (size n : Z) :
  Go.panicmakeslicelen size n = true <-> n < 0 \/ Go.maxAlloc < size * n.
Proof.
  unfold Go.panicmakeslicelen. rewrite orb_true_iff, Z.ltb_lt, Z.ltb_lt. reflexivity.
Qed.

Lemma panicmakeslicelen_false (size n : Z) :
  Go.panicmakeslicelen size n = false <-> 0 <= n /\ size * n <= Go.maxAlloc.
Proof.
  unfold Go.panicmakeslicelen. rewrite orb_false_iff, Z.ltb_ge, Z.ltb_ge. reflexivity.
Qed.

Lemma make_ok {T : Type} (size : Z) (z : T) (n : Z) :
  0 <= n -> size * n <= Go.maxAlloc ->
  Go.make size z n = Some (repeat z (Z.to_nat n)).
Proof.
  intros H Hfit; unfold Go.make.
  now rewrite (proj2 (panicmakeslicelen_false size n) (conj H Hfit)).
Qed.

Lemma make_inv {T : Type} (size : Z) (z : T) (n : Z) (s : list T) :
  Go.make size z n = Some s -> 0 <= n /\ s = repeat z (Z.to_nat n) /\ len s = n.
Proof.
  unfold Go.make. destruct (Go.panicmakeslicelen size n) eqn:Hp; [discriminate |].
  apply panicmakeslicelen_false in Hp.
  intros [= <-]. unfold len. rewrite repeat_length. repeat split; lia.
Qed.

Lemma make_check {T : Type} (size : Z) (z : T) (n : Z) (s : list T) :
  Go.make size z n = Some s -> Go.panicmakeslicelen size n = false.
Proof.
  unfold Go.make. now destruct (Go.panicmakeslicelen size n).
Qed.

Lemma make_fits {T : Type} (size : Z) (z : T) (n : Z) (s : list T) :
  Go.make size z n = Some s -> size * n <= Go.maxAlloc.
Proof.
  intros H. apply make_check, panicmakeslicelen_false in H. apply H.
Qed.

Lemma make_none {T : Type} (size : Z) (z : T) (n : Z) :
  Go.make size z n = None <-> n < 0 \/ Go.maxAlloc < size * n.
Proof.
  rewrite <- panicmakeslicelen_true. unfold Go.make.
  destruct (Go.panicmakeslicelen size n); split; auto; discriminate.
Qed.

Lemma set_nth_length {T : Type} (s : list T) (n : nat) (v : T) :
  length (Go.set_nth s n v) = length s.
Proof.
  revert n; induction s as [| a s IH]; intros [| n]; simpl; auto.
Qed.

Lemma store_inv {T : Type} (s s' : list T) (i : Z) (v : T) :
  Go.store s i v = Some s' ->
  0 <= i < len s /\ s' = Go.set_nth s (Z.to_nat i) v /\ len s' = len s.
Proof.
  unfold Go.store, len.
  destruct (Z.leb_spec 0 i); destruct (Z.ltb_spec i (Z.of_nat (length s)));
    simpl; try discriminate.
  intros [= <-]. rewrite set_nth_length. repeat split; lia.
Qed.

Lemma store_ok {T : Type} (s : list T) (i : Z) (v : T) :
  0 <= i < len s -> Go.store s i v = Some (Go.set_nth s (Z.to_nat i) v).
Proof.
  unfold Go.store, len; intros H.
  destruct (Z.leb_spec 0 i); destruct (Z.ltb_spec i (Z.of_nat (length s)));
    simpl; try lia; reflexivity.
Qed.

Lemma index_ok {T : Type} (s : list T) (i : Z) :
  0 <= i < len s -> Go.index s i = nth_error s (Z.to_nat i).
Proof.
  unfold Go.index, len; intros H.
  destruct (Z.leb_spec 0 i); destruct (Z.ltb_spec i (Z.of_nat (length s)));
    simpl; try lia; reflexivity.
Qed.

Lemma index_inv {T : Type} (s : list T) (i : Z) (v : T) :
  Go.index s i = Some v -> 0 <= i < len s /\ nth_error s (Z.to_nat i) = Some v.
Proof.
  unfold Go.index, len.
  destruct (Z.leb_spec 0 i); destruct (Z.ltb_spec i (Z.of_nat (length s)));
    simpl; try discriminate.
  intros H1; split; [lia | exact H1].
Qed.

(** Writing at the end of the filled prefix of a buffer. *)
Lemma set_nth_app {T : Type} (pre : list T) (a v : T) (post : list T) :
  Go.set_nth (pre ++ a :: post) (length pre) v = pre ++ v :: post.
Proof. induction pre as [| b pre IH]; simpl; [reflexivity | now rewrite IH]. Qed.

Lemma nth_error_set_nth_same {T : Type} (s : list T) (n : nat) (v : T) :
  (n < length s)%nat -> nth_error (Go.set_nth s n v) n = Some v.
Proof.
  revert n; induction s as [| a s IH]; intros [| n] H; simpl in *;
    try lia; auto. apply IH; lia.
Qed.

Lemma nth_error_set_nth_other {T : Type} (s : list T) (n k : nat) (v : T) :
  n <> k -> nth_error (Go.set_nth s n v) k = nth_error s k.
Proof.
  revert n k; induction s as [| a s IH]; intros [| n] [| k] H; simpl in *;
    try congruence; auto.
Qed.

Lemma slice_prefix {T : Type} (s : list T) (i : Z) :
  0 <= i <= len s -> Go.slice s 0 i = Some (firstn (Z.to_nat i) s).
Proof.
  unfold Go.slice, len; intros H.
  destruct (Z.leb_spec 0 i); destruct (Z.leb_spec i (Z.of_nat (length s)));
    simpl; try lia.
  now rewrite Z.sub_0_r.
Qed.

Lemma slice_inv {T : Type} (s w : list T) (lo hi : Z) :
  Go.slice s lo hi = Some w ->
  0 <= lo <= hi /\ hi <= len s
  /\ w = firstn (Z.to_nat (hi - lo)) (skipn (Z.to_nat lo) s).
Proof.
  unfold Go.slice, len.
  destruct (Z.leb_spec 0 lo); destruct (Z.leb_spec lo hi);
    destruct (Z.leb_spec hi (Z.of_nat (length s))); simpl; try discriminate.
  intros [= <-]. repeat split; lia.
Qed.

(** A counted loop whose body keeps an invariant keeps it. *)
Lemma for_range_invariant {S : Type} (P : S -> Prop)
    (body : Z -> S -> Go.panics S) :
  (forall i s s', P s -> body i s = Some s' -> P s') ->
  forall n i s s', P s -> for_range n i body s = Some s' -> P s'.
Proof.
  intros Hbody n; induction n as [| n IH]; simpl; intros i s s' Hs H.
  - now injection H as <-.
  - destruct (body i s) as [s1 |] eqn:E; simpl in H; [| discriminate].
    eapply IH; [| exact H]. eapply Hbody; eauto.
Qed.

Lemma for_range_ext {S : Type} (f g : Z -> S -> Go.panics S) :
  (forall i s, f i s = g i s) ->
  forall n i s, for_range n i f s = for_range n i g s.
Proof.
  intros H n; induction n as [| n IH]; simpl; intros i s; [reflexivity |].
  rewrite H. destruct (g i s); simpl; auto.
Qed.

(** The loop [for i := range src { dst[i] = f(src[i]) }] over a buffer
    [dst] of the length of [src]. *)
Lemma for_range_map {A B : Type} (f : A -> B) (done : list A) (todo : list A)
    (out : list B) (rest : list B) :
  length out = length done -> length rest = length todo ->
  for_range (length todo) (len done)
    (fun i dst => d <- Go.index (done ++ todo) i ;; Go.store dst i (f d))
    (out ++ rest)
  = Some (out ++ map f todo).
Proof.
  revert done out rest; induction todo as [| a todo IH]; intros done out rest Hd Hr.
  - destruct rest; [| discriminate]. reflexivity.
  - destruct rest as [| b rest]; [discriminate |]. simpl.
    rewrite index_ok by (unfold len; rewrite length_app; simpl; lia).
    unfold len at 1. rewrite Nat2Z.id, nth_error_app2, Nat.sub_diag by lia. simpl.
    rewrite store_ok by (unfold len; rewrite length_app; simpl; lia).
    unfold len at 1. rewrite Nat2Z.id, <- Hd, set_nth_app. simpl.
    replace (len done + 1) with (len (done ++ [a]))
      by (unfold len; rewrite length_app; simpl; lia).
    specialize (IH (done ++ [a]) (out ++ [f a]) rest).
    rewrite <- !app_assoc in IH. simpl in IH. apply IH.
    + rewrite !length_app; simpl; lia.
    + simpl in Hr; lia.
Qed.

Lemma for_upto_map {A B : Type} (f : A -> B) (size : Z) (z : B) (src : list A) :
  size * len src <= Go.maxAlloc ->
  (dst <- Go.make size z (len src) ;;
   for_upto (len src)
     (fun i dst => d <- Go.index src i ;; Go.store dst i (f d)) dst)
  = Some (map f src).
Proof.
  intros Hfit. rewrite make_ok by (try apply len_nonneg; exact Hfit). simpl.
  unfold for_upto, len. rewrite Nat2Z.id.
  apply (for_range_map f [] src [] (repeat z (length src)));
    [reflexivity | apply repeat_length].
Qed.

End GoFacts.

(** ** Rounding in binary64 *)

Module Binary64.

Lemma digits2_pos_bounds (p : positive) :
  2 ^ (Zpos (digits2_pos p) - 1) <= Zpos p < 2 ^ Zpos (digits2_pos p).
Proof.
  induction p as [p IH | p IH |]; simpl digits2_pos.
  - rewrite Pos2Z.inj_succ.
    replace (Z.succ (Zpos (digits2_pos p)) - 1) with (Z.succ (Zpos (digits2_pos p) - 1)) by lia.
    rewrite !Z.pow_succ_r by lia. lia.
  - rewrite Pos2Z.inj_succ.
    replace (Z.succ (Zpos (digits2_pos p)) - 1) with (Z.succ (Zpos (digits2_pos p) - 1)) by lia.
    rewrite !Z.pow_succ_r by lia. lia.
  - simpl. lia.
Qed.

Lemma digits2_pos_unique (p : positive) (n : Z) :
  2 ^ (n - 1) <= Zpos p < 2 ^ n -> Zpos (digits2_pos p) = n.
Proof.
  intros [Hlo Hhi].
  pose proof (digits2_pos_bounds p) as [Dlo Dhi].
  assert (0 < n).
  { destruct (Z.ltb_spec 0 n); auto. exfalso.
    destruct (Z.eqb_spec n 0) as [-> | ?]; [simpl in Hhi; lia |].
    rewrite Z.pow_neg_r in Hhi by lia. lia. }
  destruct (Z.lt_trichotomy (Zpos (digits2_pos p)) n) as [Hc | [Hc | Hc]]; auto; exfalso.
  - assert (2 ^ Zpos (digits2_pos p) <= 2 ^ (n - 1)) by (apply Z.pow_le_mono_r; lia). lia.
  - assert (2 ^ n <= 2 ^ (Zpos (digits2_pos p) - 1)) by (apply Z.pow_le_mono_r; lia). lia.
Qed.

Lemma iter_pos_nat {A : Type} (f : A -> A) (p : positive) (x : A) :
  iter_pos f p x = Nat.iter (Pos.to_nat p) f x.
Proof.
  revert x; induction p as [p IH | p IH |]; intros x; simpl iter_pos.
  - rewrite !IH, Pos2Nat.inj_xI.
    replace (S (2 * Pos.to_nat p)) with (Pos.to_nat p + (Pos.to_nat p + 1))%nat by lia.
    rewrite !Nat.iter_add. reflexivity.
  - rewrite !IH, Pos2Nat.inj_xO.
    replace (2 * Pos.to_nat p)%nat with (Pos.to_nat p + Pos.to_nat p)%nat by lia.
    now rewrite Nat.iter_add.
  - reflexivity.
Qed.

Ltac bool_cases :=
  repeat (let c := fresh "Hcase" in
          match goal with
          | |- context [?u =? ?v] => destruct (Z.eqb_spec u v) as [c | c]
          | |- context [?u <=? ?v] => destruct (Z.leb_spec u v) as [c | c]
          | |- context [?u <? ?v] => destruct (Z.ltb_spec u v) as [c | c]
          end);
  cbn [negb andb orb];
  first [reflexivity | lia | exfalso; lia | exfalso; nia].

Lemma shr_1_shifted (M k : Z) (mrs : shr_record) :
  0 <= k -> shifted M k mrs -> shifted M (k + 1) (shr_1 mrs).
Proof.
  intros Hk (r & HM & Hr & Hm & Hrb & Hsb).
  destruct mrs as [m rb sb]. unfold shifted. cbn [shr_m shr_r shr_s] in *.
  rewrite Z.pow_add_r, Z.pow_1_r by lia.
  assert (HP : 0 < 2 ^ k) by (apply Z.pow_pos_nonneg; lia).
  set (P := 2 ^ k) in *. clearbody P. subst rb sb.
  destruct m as [| [p | p |] |]; try lia; cbn [shr_1 shr_m shr_r shr_s];
    try rewrite (Pos2Z.inj_xI p) in HM; try rewrite (Pos2Z.inj_xO p) in HM.
  - exists r. split; [lia |]. split; [lia |]. split; [lia |]. split; bool_cases.
  - exists (P + r). split; [lia |]. split; [lia |]. split; [lia |]. split; bool_cases.
  - exists r. split; [lia |]. split; [lia |]. split; [lia |]. split; bool_cases.
  - exists (P + r). split; [lia |]. split; [lia |]. split; [lia |]. split; bool_cases.
Qed.

Lemma iter_shr_1_shifted (M : Z) (k : nat) :
  0 <= M ->
  shifted M (Z.of_nat k) (Nat.iter k shr_1 (Build_shr_record M false false)).
Proof.
  intros HM. induction k as [| k IH].
  - exists 0. simpl. repeat split; lia.
  - rewrite Nat2Z.inj_succ, <- Z.add_1_r. simpl Nat.iter.
    apply shr_1_shifted; [lia | exact IH].
Qed.

(** Rounding to nearest, ties to even, of a shifted record. *)
Lemma round_shifted (M k : Z) (mrs : shr_record) :
  0 <= k -> shifted M k mrs ->
  round_nearest_even (shr_m mrs) (loc_of_shr_record mrs) = round_shift M k.
Proof.
  intros Hk (r & HM & Hr & Hm & Hrb & Hsb).
  assert (HP : 0 < 2 ^ k) by (apply Z.pow_pos_nonneg; lia).
  unfold round_shift.
  assert (Hq : M / 2 ^ k = shr_m mrs).
  { rewrite HM. rewrite Z.div_add_l by lia. rewrite Z.div_small by lia. lia. }
  assert (Hrem : M mod 2 ^ k = r).
  { rewrite HM. rewrite Z.add_comm, Z.mod_add by lia. apply Z.mod_small; lia. }
  rewrite Hq, Hrem.
  destruct mrs as [m rb sb]. cbn [shr_m shr_r shr_s loc_of_shr_record] in *. subst rb sb.
  destruct (Z.leb_spec (2 ^ k) (2 * r)), (Z.eqb_spec r 0), (Z.eqb_spec (2 * r) (2 ^ k)),
    (Z.ltb_spec (2 * r) (2 ^ k)); cbn [negb andb orb round_nearest_even];
    first [reflexivity | lia | exfalso; lia].
Qed.

Lemma shr_positive (mrs : shr_record) (E n : Z) :
  0 < n ->
  shr mrs E n = (Nat.iter (Z.to_nat n) shr_1 mrs, E + n).
Proof.
  intros Hn. destruct n as [| p |]; try lia. unfold shr.
  now rewrite iter_pos_nat.
Qed.

Lemma shr_fexp_shift (M E : Z) :
  0 <= M ->
  0 < fexp prec emax (Zdigits2 M + E) - E ->
  exists mrs,
    shr_fexp prec emax M E loc_Exact = (mrs, fexp prec emax (Zdigits2 M + E))
    /\ shifted M (fexp prec emax (Zdigits2 M + E) - E) mrs.
Proof.
  intros HM Hn. unfold shr_fexp. rewrite shr_positive by exact Hn.
  eexists. split.
  - f_equal. lia.
  - cbn [shr_record_of_loc].
    pose proof (iter_shr_1_shifted M (Z.to_nat (fexp prec emax (Zdigits2 M + E) - E)) HM) as H.
    now rewrite Z2Nat.id in H by lia.
Qed.

Lemma shr_fexp_stay (M E : Z) :
  fexp prec emax (Zdigits2 M + E) - E <= 0 ->
  shr_fexp prec emax M E loc_Exact = (Build_shr_record M false false, E).
Proof.
  intros Hn. unfold shr_fexp, shr. cbn [shr_record_of_loc].
  destruct (fexp prec emax (Zdigits2 M + E) - E); try reflexivity. lia.
Qed.

Lemma round_shift_0 (M : Z) : round_shift M 0 = M.
Proof.
  unfold round_shift. rewrite Z.pow_0_r, Z.div_1_r, Z.mod_1_r. reflexivity.
Qed.

Lemma round_shift_bounds (M n : Z) :
  0 <= n -> M / 2 ^ n <= round_shift M n <= M / 2 ^ n + 1.
Proof.
  intros Hn. unfold round_shift.
  destruct (2 * (M mod 2 ^ n) <? 2 ^ n); [lia |].
  destruct (2 * (M mod 2 ^ n) =? 2 ^ n); [| lia].
  destruct (Z.even (M / 2 ^ n)); lia.
Qed.

Lemma fexp_normal (d : Z) : emin + prec <= d -> fexp prec emax d = d - prec.
Proof. unfold fexp, SpecFloat.emin, emax, prec. lia. Qed.

Lemma fexp_subnormal (d : Z) : d <= emin + prec -> fexp prec emax d = emin.
Proof. unfold fexp, SpecFloat.emin, emax, prec. lia. Qed.

Lemma Zdigits2_unique (M n : Z) :
  2 ^ (n - 1) <= M < 2 ^ n -> 0 < M -> Zdigits2 M = n.
Proof.
  intros H HM. destruct M as [| p |]; try lia.
  now apply digits2_pos_unique.
Qed.

Lemma Zdigits2_bounds (M : Z) :
  0 < M -> 2 ^ (Zdigits2 M - 1) <= M < 2 ^ Zdigits2 M.
Proof.
  intros HM. destruct M as [| p |]; try lia. apply digits2_pos_bounds.
Qed.

(** Rounding a positive mantissa of [53 + n] bits into the normal range:
    the mantissa is shifted by [n] bits and rounded to nearest, ties to
    even; a carry out of the 53 bits moves to the next exponent. *)
Lemma binary_round_aux_normal (s : bool) (M E n : Z) :
  0 < M -> 0 <= n ->
  Zdigits2 M = prec + n ->
  emin <= E + n ->
  binary_round_aux prec emax s M E loc_Exact
  = if round_shift M n <? 2 ^ prec
    then finite_or_inf s (round_shift M n) (E + n)
    else finite_or_inf s (2 ^ (prec - 1)) (E + n + 1).
Proof.
  intros HM Hn Hd Hemin.
  assert (Hprec : prec = 53) by reflexivity.
  assert (Hemin_v : emin = -1074) by reflexivity.
  pose proof (Zdigits2_bounds M HM) as Hb. rewrite Hd in Hb.
  assert (Hf : fexp prec emax (Zdigits2 M + E) = E + n).
  { rewrite fexp_normal; lia. }
  assert (HP : 0 < 2 ^ n) by (apply Z.pow_pos_nonneg; lia).
  assert (Hq : 2 ^ (prec - 1) <= M / 2 ^ n < 2 ^ prec).
  { replace (prec + n - 1) with ((prec - 1) + n) in Hb by lia.
    rewrite !Z.pow_add_r in Hb by (unfold prec; lia).
    split.
    - apply Z.div_le_lower_bound; lia.
    - apply Z.div_lt_upper_bound; lia. }
  pose proof (round_shift_bounds M n Hn) as Hrb.
  assert (Hstep1 : exists mrs,
             shr_fexp prec emax M E loc_Exact = (mrs, E + n)
             /\ round_nearest_even (shr_m mrs) (loc_of_shr_record mrs) = round_shift M n).
  { destruct (Z.eq_dec n 0) as [-> | Hn0].
    - rewrite shr_fexp_stay by lia. eexists. split; [f_equal; lia |].
      cbn. now rewrite round_shift_0.
    - destruct (shr_fexp_shift M E) as (mrs & Hs & Hsh); [lia | lia |].
      exists mrs. rewrite Hs, Hf. split; [reflexivity |].
      rewrite Hf in Hsh. replace (E + n - E) with n in Hsh by lia.
      apply round_shifted; [lia | exact Hsh]. }
  destruct Hstep1 as (mrs & Hs1 & Hr1).
  unfold binary_round_aux. rewrite Hs1, Hr1.
  set (m1 := round_shift M n) in *.
  change (2 ^ (prec - 1)) with 4503599627370496 in *.
  change (2 ^ prec) with 9007199254740992 in *.
  destruct (Z.ltb_spec m1 9007199254740992) as [Hlt | Hge].
  - assert (Hd1 : Zdigits2 m1 = prec).
    { apply Zdigits2_unique; [| lia].
      change (2 ^ (prec - 1)) with 4503599627370496.
      change (2 ^ prec) with 9007199254740992. lia. }
    rewrite shr_fexp_stay by (rewrite Hd1, fexp_normal; lia).
    cbn [shr_m]. reflexivity.
  - assert (Hm1 : m1 = 9007199254740992) by lia.
    rewrite Hm1.
    unfold shr_fexp. change (Zdigits2 9007199254740992) with 54.
    rewrite fexp_normal by lia.
    replace (54 + (E + n) - prec - (E + n)) with 1 by (unfold prec; lia).
    cbn. replace (E + n + 1) with (E + n + 1) by lia. reflexivity.
Qed.

Lemma iter_xO_pow2 (m p : positive) :
  Zpos (Pos.iter xO m p) = Zpos m * 2 ^ Zpos p.
Proof.
  induction p as [| p IH] using Pos.peano_ind.
  - simpl. lia.
  - rewrite Pos.iter_succ, Pos2Z.inj_xO, IH, Pos2Z.inj_succ, Z.pow_succ_r by lia. lia.
Qed.

Lemma normal_valid (m e : Z) : normal m e -> valid_binary (fin m e) = true.
Proof.
  intros [Hm He]. unfold fin, valid_binary, bounded, canonical_mantissa.
  assert (Hd : Zpos (digits2_pos (Z.to_pos m)) = prec).
  { apply digits2_pos_unique. rewrite Z2Pos.id; [exact Hm |].
    change (2 ^ (prec - 1)) with 4503599627370496 in Hm. lia. }
  rewrite Hd, fexp_normal by lia.
  apply andb_true_intro. split; [apply Z.eqb_eq | apply Z.leb_le]; lia.
Qed.

(** Adding a smaller positive float [ms * 2^es] to [m * 2^e] when the exact
    sum keeps the 53 + (e - es) bits of the aligned mantissa. *)
Lemma SF64add_aligned (m e ms es : Z) :
  normal m e -> normal ms es -> es < e ->
  m * 2 ^ (e - es) + ms < 2 ^ (prec + (e - es)) ->
  SF64add (fin m e) (fin ms es)
  = if round_shift (m * 2 ^ (e - es) + ms) (e - es) <? 2 ^ prec
    then finite_or_inf false (round_shift (m * 2 ^ (e - es) + ms) (e - es)) e
    else finite_or_inf false (2 ^ (prec - 1)) (e + 1).
Proof.
  intros [Hm He] [Hms Hes] Hlt Hfit.
  assert (Hprec : prec = 53) by reflexivity.
  assert (Hemin_v : emin = -1074) by reflexivity.
  change (2 ^ (prec - 1)) with 4503599627370496 in Hm, Hms.
  unfold SF64add, SFadd, fin.
  replace (Z.min e es) with es by lia.
  unfold shl_align at 1. replace (es - e) with (Z.neg (Z.to_pos (e - es))) by lia.
  unfold shl_align at 1. rewrite Z.sub_diag.
  cbn [fst cond_Zopp]. rewrite <- Pos2Z.inj_add.
  set (M := (Pos.iter xO (Z.to_pos m) (Z.to_pos (e - es)) + Z.to_pos ms)%positive).
  assert (HM : Zpos M = m * 2 ^ (e - es) + ms).
  { unfold M. rewrite Pos2Z.inj_add, iter_xO_pow2, !Z2Pos.id by lia. reflexivity. }
  assert (HP : 0 < 2 ^ (e - es)) by (apply Z.pow_pos_nonneg; lia).
  assert (Hd : Zdigits2 (Zpos M) = prec + (e - es)).
  { apply Zdigits2_unique; [| lia]. rewrite HM. split; [| exact Hfit].
    replace (prec + (e - es) - 1) with ((prec - 1) + (e - es)) by lia.
    rewrite Z.pow_add_r by lia.
    change (2 ^ (prec - 1)) with 4503599627370496. nia. }
  unfold binary_normalize, binary_round.
  change (Zpos (digits2_pos M)) with (Zdigits2 (Zpos M)). rewrite Hd.
  rewrite fexp_normal by lia.
  unfold shl_align. replace (prec + (e - es) + es - prec - es) with (Zpos (Z.to_pos (e - es))) by lia.
  rewrite (binary_round_aux_normal false (Zpos M) es (e - es)); try lia.
  rewrite HM. replace (es + (e - es)) with e by lia. reflexivity.
Qed.

Lemma Prim2SF_F (m e : Z) : normal m e -> Prim2SF (F m e) = fin m e.
Proof. intros H. apply Prim2SF_SF2Prim, normal_valid, H. Qed.

Lemma F_Prim2SF (x : float) (m e : Z) : Prim2SF x = fin m e -> x = F m e.
Proof. intros H. unfold F. rewrite <- H. symmetry. apply SF2Prim_Prim2SF. Qed.

Lemma round_shift_add (m ms d : Z) :
  0 <= d -> 2 * (ms mod 2 ^ d) <> 2 ^ d ->
  round_shift (m * 2 ^ d + ms) d = m + round_shift ms d.
Proof.
  intros Hd Htie.
  assert (HP : 0 < 2 ^ d) by (apply Z.pow_pos_nonneg; lia).
  unfold round_shift.
  rewrite Z.div_add_l by lia.
  rewrite (Z.add_comm (m * 2 ^ d)), Z.mod_add by lia.
  destruct (2 * (ms mod 2 ^ d) <? 2 ^ d); [reflexivity |].
  destruct (Z.eqb_spec (2 * (ms mod 2 ^ d)) (2 ^ d)); [contradiction | lia].
Qed.

Lemma round_shift_nonneg (ms d : Z) :
  0 <= d -> 0 <= ms -> ms < (round_shift ms d + 1) * 2 ^ d /\ 0 <= round_shift ms d.
Proof.
  intros Hd Hms.
  assert (HP : 0 < 2 ^ d) by (apply Z.pow_pos_nonneg; lia).
  pose proof (round_shift_bounds ms d Hd) as Hb.
  pose proof (Z.div_mod ms (2 ^ d) ltac:(lia)) as Hdm.
  pose proof (Z.mod_pos_bound ms (2 ^ d) HP) as Hmod.
  assert (0 <= ms / 2 ^ d) by (apply Z.div_pos; lia).
  split; nia.
Qed.

(** One increment of the cursor inside a binade: the mantissa grows by
    the step rounded to the unit of that binade. *)
Lemma add_in_binade (x step : float) (m e ms es : Z) :
  Prim2SF x = fin m e -> Prim2SF step = fin ms es ->
  normal m e -> normal ms es -> es < e ->
  2 * (ms mod 2 ^ (e - es)) <> 2 ^ (e - es) ->
  m + round_shift ms (e - es) < 2 ^ prec ->
  (x + step)%float = F (m + round_shift ms (e - es)) e.
Proof.
  intros Hx Hstep Hn Hns Hlt Htie Hfit.
  pose proof Hn as [Hm He]. pose proof Hns as [Hms Hes].
  assert (Hprec : prec = 53) by reflexivity.
  change (2 ^ (prec - 1)) with 4503599627370496 in Hm, Hms.
  assert (HP : 0 < 2 ^ (e - es)) by (apply Z.pow_pos_nonneg; lia).
  destruct (round_shift_nonneg ms (e - es)) as [Hup Hinc]; [lia | lia |].
  assert (Hn' : normal (m + round_shift ms (e - es)) e).
  { split; [| exact He]. change (2 ^ (prec - 1)) with 4503599627370496. lia. }
  apply Prim2SF_inj. rewrite add_spec, Hx, Hstep, (Prim2SF_F _ _ Hn').
  rewrite SF64add_aligned; auto.
  - rewrite round_shift_add by (auto; lia).
    destruct (Z.ltb_spec (m + round_shift ms (e - es)) (2 ^ prec)); [| lia].
    unfold finite_or_inf, fin.
    destruct (m + round_shift ms (e - es)) as [| p |] eqn:E; try lia.
    destruct (Z.leb_spec e (emax - prec)); [reflexivity | lia].
  - rewrite Z.pow_add_r by lia. nia.
Qed.

Lemma advance_in_binade (step : float) (ms es e : Z) :
  Prim2SF step = fin ms es -> normal ms es -> es < e ->
  2 * (ms mod 2 ^ (e - es)) <> 2 ^ (e - es) ->
  forall (n : nat) (m : Z),
    normal m e ->
    m + Z.of_nat n * round_shift ms (e - es) < 2 ^ prec ->
    advance step n (F m e) = F (m + Z.of_nat n * round_shift ms (e - es)) e.
Proof.
  intros Hstep Hns Hlt Htie.
  destruct (round_shift_nonneg ms (e - es)) as [_ Hinc];
    [lia | destruct Hns as [Hms _];
           change (2 ^ (prec - 1)) with 4503599627370496 in Hms; lia |].
  induction n as [| n IH]; intros m Hn Hfit.
  - simpl. f_equal. lia.
  - simpl advance.
    rewrite (add_in_binade (F m e) step m e ms es); auto.
    + rewrite IH.
      * f_equal. lia.
      * destruct Hn as [Hm He]. split; [| exact He]. nia.
      * lia.
    + now apply Prim2SF_F.
    + nia.
Qed.

Lemma ltb_F_mono (m1 m2 e : Z) (a : float) :
  normal m1 e -> normal m2 e -> m1 <= m2 ->
  PrimFloat.ltb (F m2 e) a = true -> PrimFloat.ltb (F m1 e) a = true.
Proof.
  intros H1 H2 Hle. rewrite !ltb_spec, (Prim2SF_F _ _ H1), (Prim2SF_F _ _ H2).
  destruct H1 as [Hm1 _], H2 as [Hm2 _].
  change (2 ^ (prec - 1)) with 4503599627370496 in Hm1, Hm2.
  unfold SFltb, SFcompare, fin.
  destruct (Prim2SF a) as [s | s | | s ma ea]; auto.
  destruct s; auto.
  destruct (e ?= ea); auto.
  change (Pos.compare_cont Eq) with Pos.compare.
  destruct (Pos.compare_spec (Z.to_pos m2) ma); try discriminate.
  intros _.
  destruct (Pos.compare_spec (Z.to_pos m1) ma); auto; exfalso; lia.
Qed.

Lemma normalb_normal (m e : Z) : normalb m e = true -> normal m e.
Proof.
  unfold normalb, normal. rewrite !andb_true_iff.
  rewrite !Z.leb_le, Z.ltb_lt. tauto.
Qed.

Lemma advance_add (step : float) (a b : nat) (x : float) :
  advance step (a + b) x = advance step b (advance step a x).
Proof. revert x; induction a as [| a IH]; intros x; simpl; auto. Qed.

Lemma binade_jump_sound (step x x' : float) (todo n : Z) :
  binade_jump step x todo = Some (x', n) ->
  0 < n <= todo
  /\ advance step (Z.to_nat n) x = x'
  /\ forall a, PrimFloat.ltb x' a = true ->
       forall j, (j <= Z.to_nat n)%nat -> PrimFloat.ltb (advance step j x) a = true.
Proof.
  unfold binade_jump.
  destruct (Prim2SF x) as [| | | [|] m e] eqn:Hx; try discriminate.
  destruct (Prim2SF step) as [| | | [|] ms es] eqn:Hs; try discriminate.
  set (d := e - es). set (inc := round_shift (Zpos ms) d).
  set (n0 := Z.min todo ((2 ^ prec - 1 - Zpos m) / inc)).
  destruct (normalb (Zpos m) e) eqn:Hnm; [| discriminate].
  destruct (normalb (Zpos ms) es) eqn:Hns; [| discriminate].
  destruct (Z.ltb_spec es e) as [Hlt |]; [| discriminate].
  destruct (Z.eqb_spec (2 * (Zpos ms mod 2 ^ d)) (2 ^ d)) as [| Htie]; [discriminate |].
  destruct (Z.ltb_spec 0 n0) as [Hn0 |]; [| discriminate].
  cbn [andb negb]. intros [= <- <-].
  apply normalb_normal in Hnm, Hns.
  assert (Hinc : 0 <= inc).
  { destruct (round_shift_nonneg (Zpos ms) d); unfold d; lia. }
  assert (Hinc' : 0 < inc).
  { destruct (Z.eq_dec inc 0) as [E | E]; [| lia].
    unfold n0 in Hn0. rewrite E, Z.div_0_r in Hn0. lia. }
  assert (Hfit : Zpos m + n0 * inc <= 2 ^ prec - 1).
  { assert (n0 <= (2 ^ prec - 1 - Zpos m) / inc) by apply Z.le_min_r.
    assert (inc * ((2 ^ prec - 1 - Zpos m) / inc) <= 2 ^ prec - 1 - Zpos m)
      by (apply Z.mul_div_le; lia).
    nia. }
  assert (Hrun : forall j, (j <= Z.to_nat n0)%nat ->
            advance step j x = F (Zpos m + Z.of_nat j * inc) e).
  { intros j Hj. rewrite (F_Prim2SF x (Zpos m) e) by exact Hx.
    apply (advance_in_binade step (Zpos ms) es e); auto.
    fold d. fold inc.
    assert (Z.of_nat j * inc <= n0 * inc) by (apply Z.mul_le_mono_nonneg_r; lia).
    lia. }
  split; [split; [exact Hn0 | apply Z.le_min_l] |]. split.
  - rewrite Hrun by lia. now rewrite Z2Nat.id by lia.
  - intros a Ha j Hj. rewrite Hrun by exact Hj.
    assert (0 <= Z.of_nat j * inc) by (apply Z.mul_nonneg_nonneg; lia).
    assert (Z.of_nat j * inc <= n0 * inc) by (apply Z.mul_le_mono_nonneg_r; lia).
    destruct Hnm as [Hm He].
    apply (ltb_F_mono _ (Zpos m + n0 * inc) e); auto.
    + split; [lia | exact He].
    + split; [lia | exact He].
    + lia.
Qed.

Lemma stays_below_sound (step avail : float) :
  forall (fuel : nat) (x : float) (todo : Z),
    stays_below fuel step avail x todo = true ->
    forall j, Z.of_nat j <= todo -> PrimFloat.ltb (advance step j x) avail = true.
Proof.
  induction fuel as [| fuel IH]; intros x todo H j Hj; [discriminate |].
  simpl in H. apply andb_true_iff in H. destruct H as [Hx H].
  destruct (Z.leb_spec todo 0) as [Hz | Hpos].
  { replace j with 0%nat by lia. exact Hx. }
  destruct (binade_jump step x todo) as [[x' n] |] eqn:Hjump.
  - apply binade_jump_sound in Hjump. destruct Hjump as (Hn & Hadv & Hbelow).
    destruct (Nat.le_gt_cases j (Z.to_nat n)) as [Hle | Hgt].
    + apply Hbelow; [| exact Hle].
      destruct fuel as [| fuel']; [discriminate |].
      simpl in H. now apply andb_true_iff in H.
    + replace j with (Z.to_nat n + (j - Z.to_nat n))%nat by lia.
      rewrite advance_add, Hadv. apply (IH _ _ H). lia.
  - destruct j as [| j]; [exact Hx |].
    simpl. apply (IH _ _ H). lia.
Qed.

Lemma binary_round_aux_sign (s : bool) (M E : Z) (l : location) :
  sign_is s (binary_round_aux prec emax s M E l).
Proof.
  unfold binary_round_aux.
  destruct (shr_fexp prec emax M E l) as [mrs e1].
  destruct (shr_fexp prec emax _ e1 loc_Exact) as [mrs2 e2].
  destruct (shr_m mrs2); [reflexivity | | exact I].
  destruct (Z.leb _ _); reflexivity.
Qed.

Lemma binary_round_sign (s : bool) (p : positive) (E : Z) :
  sign_is s (binary_round prec emax s p E).
Proof.
  unfold binary_round.
  destruct (shl_align p E _) as [mz ez]. apply binary_round_aux_sign.
Qed.

Lemma nonneg_add (x y : float) : nonneg x -> nonneg y -> nonneg (x + y).
Proof.
  unfold nonneg. rewrite add_spec. unfold SF64add, SFadd.
  destruct (Prim2SF x) as [sx | sx | | sx mx ex];
    destruct (Prim2SF y) as [sy | sy | | sy my ey]; simpl; intros Hx Hy;
    subst; simpl; auto.
  apply binary_round_sign.
Qed.

Lemma nonneg_div (x y : float) : nonneg x -> nonneg y -> nonneg (x / y).
Proof.
  unfold nonneg. rewrite div_spec. unfold SF64div, SFdiv.
  destruct (Prim2SF x) as [sx | sx | | sx mx ex];
    destruct (Prim2SF y) as [sy | sy | | sy my ey]; simpl; intros Hx Hy;
    subst; simpl; auto.
  destruct (SFdiv_core_binary prec emax (Zpos mx) ex (Zpos my) ey) as [[mz ez] lz].
  apply (binary_round_aux_sign false).
Qed.

Lemma float64_of_int_spec (z : Z) :
  0 <= z < 2 ^ 63 ->
  Prim2SF (Go.float64_of_int z) = binary_normalize prec emax z 0 false.
Proof.
  intros Hz. unfold Go.float64_of_int. apply Prim2SF_SF2Prim.
  pose proof (Prim2SF_valid (of_uint63 (Uint63.of_Z z))) as Hv.
  rewrite of_uint63_spec, Uint63.of_Z_spec in Hv.
  rewrite Z.mod_small in Hv; [exact Hv |].
  change Uint63.wB with (2 ^ 63). exact Hz.
Qed.

Lemma nonneg_float64_of_int (z : Z) : 0 <= z < 2 ^ 63 -> nonneg (Go.float64_of_int z).
Proof.
  intros Hz. unfold nonneg. rewrite float64_of_int_spec by exact Hz.
  destruct z as [| p |]; simpl; auto; [apply binary_round_sign | lia].
Qed.

Lemma finite_or_inf_fin (m e : Z) :
  0 < m -> e <= emax - prec -> finite_or_inf false m e = fin m e.
Proof.
  intros Hm He. unfold finite_or_inf, fin.
  destruct m as [| p |]; try lia.
  destruct (Z.leb_spec e (emax - prec)); [reflexivity | lia].
Qed.

Lemma pow2_split (a b : Z) : 0 <= a -> 0 <= b -> 2 ^ (a + b) = 2 ^ a * 2 ^ b.
Proof. intros; apply Z.pow_add_r; assumption. Qed.

(** An integer below 2^53 converts exactly: its bits are moved to the top
    of the mantissa. *)
Lemma binary_normalize_small (z : Z) :
  0 < z < 2 ^ prec ->
  binary_normalize prec emax z 0 false
  = fin (z * 2 ^ (prec - Zdigits2 z)) (Zdigits2 z - prec).
Proof.
  intros Hz.
  assert (Hprec : prec = 53) by reflexivity.
  assert (Hemin_v : emin = -1074) by reflexivity.
  assert (Hemax : emax = 1024) by reflexivity.
  pose proof (Zdigits2_bounds z ltac:(lia)) as Hb.
  set (k := Zdigits2 z) in *.
  assert (Hk : 1 <= k <= prec).
  { split.
    - destruct z as [| p |]; try lia. unfold k. simpl. lia.
    - destruct (Z.le_gt_cases k prec) as [| Hgt]; [assumption | exfalso].
      assert (2 ^ prec <= 2 ^ (k - 1)) by (apply Z.pow_le_mono_r; lia). lia. }
  assert (Hpow : 2 ^ (k - 1) * 2 ^ (prec - k) = 2 ^ (prec - 1)).
  { rewrite <- pow2_split by lia. f_equal. lia. }
  assert (Hpow' : 2 ^ k * 2 ^ (prec - k) = 2 ^ prec).
  { rewrite <- pow2_split by lia. f_equal. lia. }
  assert (HP : 0 < 2 ^ (prec - k)) by (apply Z.pow_pos_nonneg; lia).
  destruct z as [| p |]; try lia.
  unfold binary_normalize, binary_round.
  change (Zpos (digits2_pos p)) with k.
  rewrite Z.add_0_r, fexp_normal by lia.
  assert (Hmz : exists mz, shl_align p 0 (k - prec) = (mz, k - prec)
                           /\ Zpos mz = Zpos p * 2 ^ (prec - k)).
  { unfold shl_align. rewrite Z.sub_0_r.
    destruct (Z.eq_dec k prec) as [E | E].
    - rewrite E, Z.sub_diag. exists p. split; [reflexivity |].
      rewrite Z.pow_0_r. lia.
    - destruct (k - prec) as [| d | d] eqn:Ek; try lia.
      eexists. split; [reflexivity |].
      rewrite iter_xO_pow2. do 2 f_equal. lia. }
  destruct Hmz as (mz & -> & Hmz).
  rewrite (binary_round_aux_normal false (Zpos mz) (k - prec) 0); try lia.
  - rewrite round_shift_0.
    destruct (Z.ltb_spec (Zpos mz) (2 ^ prec)) as [_ | Hge]; [| nia].
    rewrite Z.add_0_r, finite_or_inf_fin by lia. now rewrite Hmz.
  - apply Zdigits2_unique; [| lia]. rewrite Z.add_0_r, Hmz. nia.
Qed.

(** A larger integer is rounded to 53 bits. *)
Lemma binary_normalize_large (z : Z) :
  2 ^ prec <= z < 2 ^ 64 ->
  binary_normalize prec emax z 0 false
  = if round_shift z (Zdigits2 z - prec) <? 2 ^ prec
    then fin (round_shift z (Zdigits2 z - prec)) (Zdigits2 z - prec)
    else fin (2 ^ (prec - 1)) (Zdigits2 z - prec + 1).
Proof.
  intros Hz.
  assert (Hprec : prec = 53) by reflexivity.
  assert (Hemin_v : emin = -1074) by reflexivity.
  assert (Hemax : emax = 1024) by reflexivity.
  assert (H53 : 0 < 2 ^ prec) by reflexivity.
  pose proof (Zdigits2_bounds z ltac:(lia)) as Hb.
  set (k := Zdigits2 z) in *.
  assert (Hk : prec < k <= 64).
  { split.
    - destruct (Z.lt_ge_cases prec k) as [| Hle]; [assumption | exfalso].
      assert (2 ^ k <= 2 ^ prec) by (apply Z.pow_le_mono_r; lia). lia.
    - destruct (Z.le_gt_cases k 64) as [| Hgt]; [assumption | exfalso].
      assert (2 ^ 64 <= 2 ^ (k - 1)) by (apply Z.pow_le_mono_r; lia). lia. }
  destruct z as [| p |]; try lia.
  unfold binary_normalize, binary_round.
  change (Zpos (digits2_pos p)) with k.
  rewrite Z.add_0_r, fexp_normal by lia.
  unfold shl_align. rewrite Z.sub_0_r.
  destruct (k - prec) as [| d | d] eqn:Ek; try lia. rewrite <- Ek.
  rewrite (binary_round_aux_normal false (Zpos p) 0 (k - prec)); try lia.
  rewrite !Z.add_0_l.
  pose proof (round_shift_bounds (Zpos p) (k - prec) ltac:(lia)) as Hr.
  assert (0 < Zpos p / 2 ^ (k - prec)).
  { apply Z.div_str_pos. split; [apply Z.pow_pos_nonneg; lia |].
    transitivity (2 ^ (k - 1)); [apply Z.pow_le_mono_r; lia | lia]. }
  rewrite !finite_or_inf_fin; try lia; reflexivity.
Qed.

(** Comparing positive floats: by exponent, then by mantissa. *)
Lemma SFltb_fin (m1 e1 m2 e2 : Z) :
  0 < m1 -> 0 < m2 ->
  SFltb (fin m1 e1) (fin m2 e2) = (e1 <? e2) || ((e1 =? e2) && (m1 <? m2)).
Proof.
  intros H1 H2. unfold SFltb, SFcompare, fin.
  change (Pos.compare_cont Eq) with Pos.compare.
  rewrite <- Z2Pos.inj_compare by assumption.
  destruct (Z.compare_spec e1 e2); destruct (Z.compare_spec m1 m2);
    destruct (Z.ltb_spec e1 e2); destruct (Z.eqb_spec e1 e2);
    destruct (Z.ltb_spec m1 m2); simpl; try reflexivity; lia.
Qed.

Lemma SFleb_fin (m1 e1 m2 e2 : Z) :
  0 < m1 -> 0 < m2 ->
  SFleb (fin m1 e1) (fin m2 e2) = (e1 <? e2) || ((e1 =? e2) && (m1 <=? m2)).
Proof.
  intros H1 H2. unfold SFleb, SFcompare, fin.
  change (Pos.compare_cont Eq) with Pos.compare.
  rewrite <- Z2Pos.inj_compare by assumption.
  destruct (Z.compare_spec e1 e2); destruct (Z.compare_spec m1 m2);
    destruct (Z.ltb_spec e1 e2); destruct (Z.eqb_spec e1 e2);
    destruct (Z.leb_spec m1 m2); simpl; try reflexivity; lia.
Qed.

(** The float64 of a positive [int]: a full mantissa, and an exponent of at
    most 10, or the power 2^63 itself. *)
Lemma float64_of_int_range (a : Z) :
  0 < a < 2 ^ 63 ->
  exists ma ea,
    Prim2SF (Go.float64_of_int a) = fin ma ea
    /\ 2 ^ (prec - 1) <= ma < 2 ^ prec
    /\ (ea <= 10 \/ (ea = 11 /\ ma = 2 ^ (prec - 1))).
Proof.
  intros Ha. rewrite float64_of_int_spec by lia.
  assert (Hprec : prec = 53) by reflexivity.
  pose proof (Zdigits2_bounds a ltac:(lia)) as Hb.
  set (k := Zdigits2 a) in *.
  assert (Hk : 1 <= k <= 63).
  { split.
    - destruct a as [| p |]; try lia. unfold k. simpl. lia.
    - destruct (Z.le_gt_cases k 63) as [| Hgt]; [assumption | exfalso].
      assert (2 ^ 63 <= 2 ^ (k - 1)) by (apply Z.pow_le_mono_r; lia). lia. }
  destruct (Z.lt_ge_cases a (2 ^ prec)) as [Hsmall | Hlarge].
  - rewrite binary_normalize_small by lia. fold k.
    assert (k <= prec).
    { destruct (Z.le_gt_cases k prec) as [| Hgt]; [assumption | exfalso].
      assert (2 ^ prec <= 2 ^ (k - 1)) by (apply Z.pow_le_mono_r; lia). lia. }
    assert (Hpow : 2 ^ (k - 1) * 2 ^ (prec - k) = 2 ^ (prec - 1)).
    { rewrite <- pow2_split by lia. f_equal. lia. }
    assert (Hpow' : 2 ^ k * 2 ^ (prec - k) = 2 ^ prec).
    { rewrite <- pow2_split by lia. f_equal. lia. }
    assert (HP : 0 < 2 ^ (prec - k)) by (apply Z.pow_pos_nonneg; lia).
    eexists _, _. split; [reflexivity |]. split; [nia | lia].
  - rewrite binary_normalize_large
      by (split; [lia | transitivity (2 ^ 63); [lia | reflexivity]]).
    fold k.
    assert (prec < k).
    { destruct (Z.lt_ge_cases prec k) as [| Hle]; [assumption | exfalso].
      assert (2 ^ k <= 2 ^ prec) by (apply Z.pow_le_mono_r; lia). lia. }
    pose proof (round_shift_bounds a (k - prec) ltac:(lia)) as Hr.
    assert (Hq : 2 ^ (prec - 1) <= a / 2 ^ (k - prec)).
    { apply Z.div_le_lower_bound; [apply Z.pow_pos_nonneg; lia |].
      rewrite Z.mul_comm, <- pow2_split by lia.
      replace (prec - 1 + (k - prec)) with (k - 1) by lia. lia. }
    destruct (Z.ltb_spec (round_shift a (k - prec)) (2 ^ prec)).
    + eexists _, _. split; [reflexivity |]. split; lia.
    + eexists _, _. split; [reflexivity |]. split; [split; reflexivity | lia].
Qed.

(** The sum of two positive floats, the second of no greater exponent. *)
Lemma SF64add_normal (m e ms es : Z) :
  normal m e -> normal ms es -> es <= e ->
  SF64add (fin m e) (fin ms es)
  = if round_shift (m * 2 ^ (e - es) + ms) (Zdigits2 (m * 2 ^ (e - es) + ms) - prec)
       <? 2 ^ prec
    then finite_or_inf false
           (round_shift (m * 2 ^ (e - es) + ms) (Zdigits2 (m * 2 ^ (e - es) + ms) - prec))
           (es + (Zdigits2 (m * 2 ^ (e - es) + ms) - prec))
    else finite_or_inf false (2 ^ (prec - 1))
           (es + (Zdigits2 (m * 2 ^ (e - es) + ms) - prec) + 1).
Proof.
  intros [Hm He] [Hms Hes] Hle.
  assert (Hprec : prec = 53) by reflexivity.
  assert (Hemin_v : emin = -1074) by reflexivity.
  change (2 ^ (prec - 1)) with 4503599627370496 in Hm, Hms.
  assert (HP : 0 < 2 ^ (e - es)) by (apply Z.pow_pos_nonneg; lia).
  unfold SF64add, SFadd, fin.
  replace (Z.min e es) with es by lia.
  assert (Hx : Zpos (fst (shl_align (Z.to_pos m) e es)) = m * 2 ^ (e - es)).
  { unfold shl_align. destruct (es - e) as [| d | d] eqn:Ed; try lia; cbn [fst].
    - replace (e - es) with 0 by lia. rewrite Z.pow_0_r, Z2Pos.id; lia.
    - rewrite iter_xO_pow2, Z2Pos.id by lia. do 2 f_equal. lia. }
  assert (Hy : Zpos (fst (shl_align (Z.to_pos ms) es es)) = ms).
  { unfold shl_align. rewrite Z.sub_diag. cbn [fst]. rewrite Z2Pos.id; lia. }
  cbn [cond_Zopp]. rewrite <- Pos2Z.inj_add.
  set (M := (fst (shl_align (Z.to_pos m) e es) + fst (shl_align (Z.to_pos ms) es es))%positive).
  assert (HM : Zpos M = m * 2 ^ (e - es) + ms).
  { unfold M. rewrite Pos2Z.inj_add, Hx, Hy. reflexivity. }
  rewrite <- HM.
  pose proof (Zdigits2_bounds (Zpos M) ltac:(lia)) as Hb.
  set (k := Zdigits2 (Zpos M)) in *.
  assert (Hk : prec + (e - es) <= k).
  { destruct (Z.le_gt_cases (prec + (e - es)) k) as [| Hgt]; [assumption | exfalso].
    assert (2 ^ k <= 2 ^ (prec - 1 + (e - es))) by (apply Z.pow_le_mono_r; lia).
    rewrite pow2_split in H by lia.
    change (2 ^ (prec - 1)) with 4503599627370496 in H. nia. }
  unfold binary_normalize, binary_round.
  change (Zpos (digits2_pos M)) with k.
  rewrite fexp_normal by lia.
  unfold shl_align. destruct (k + es - prec - es) as [| d | d] eqn:Ed; try lia;
    rewrite (binary_round_aux_normal false (Zpos M) es (k - prec)); try lia;
    reflexivity.
Qed.

Lemma Prim2SF_2p63 : Prim2SF 0x1p63%float = fin (2 ^ (prec - 1)) 11.
Proof. vm_compute. reflexivity. Qed.

Lemma Prim2SF_one : Prim2SF 1%float = fin (2 ^ (prec - 1)) (-52).
Proof. vm_compute. reflexivity. Qed.

(** [uint64(x)] for a positive float below 2^63: its integer part. *)
Lemma uint64_of_float64_fin (x : float) (m e : Z) :
  Prim2SF x = fin m e -> 0 < m < 2 ^ prec -> e <= 10 ->
  Go.uint64_of_float64 x = (if 0 <=? e then m * 2 ^ e else m / 2 ^ (- e)).
Proof.
  intros Hx Hm He. unfold Go.uint64_of_float64.
  rewrite ltb_spec, Hx, Prim2SF_2p63, SFltb_fin by (try reflexivity; lia).
  destruct (Z.ltb_spec e 11) as [_ | ?]; [| lia]. cbn [orb].
  unfold Go.int_of_float64, Go.trunc. rewrite Hx. unfold fin.
  rewrite Z2Pos.id by lia.
  assert (Heq : (if 0 <=? e then Z.shiftl m e else Z.shiftr m (- e))
                = (if 0 <=? e then m * 2 ^ e else m / 2 ^ (- e))).
  { destruct (Z.leb_spec 0 e).
    - apply Z.shiftl_mul_pow2; lia.
    - apply Z.shiftr_div_pow2; lia. }
  rewrite Heq. clear Heq.
  set (n := if 0 <=? e then m * 2 ^ e else m / 2 ^ (- e)).
  assert (Hn : 0 <= n < 2 ^ 63).
  { unfold n. change (2 ^ prec) with 9007199254740992 in Hm.
    change (2 ^ 63) with 9223372036854775808.
    destruct (Z.leb_spec 0 e).
    - assert (0 < 2 ^ e) by (apply Z.pow_pos_nonneg; lia).
      assert (2 ^ e <= 2 ^ 10) by (apply Z.pow_le_mono_r; lia).
      change (2 ^ 10) with 1024 in *. nia.
    - assert (0 < 2 ^ (- e)) by (apply Z.pow_pos_nonneg; lia).
      split; [apply Z.div_pos; lia |].
      apply Z.div_lt_upper_bound; [lia |]. nia. }
  unfold Go.int_min, Go.int_max.
  change (2 ^ 63) with 9223372036854775808 in *.
  change (2 ^ 64) with 18446744073709551616.
  destruct (Z.leb_spec (Z.opp 9223372036854775808) n); [| lia].
  destruct (Z.leb_spec n (9223372036854775808 - 1)); [| lia].
  cbn [andb]. apply Z.mod_small. lia.
Qed.

Lemma normal_positive_float (m e : Z) : normal m e -> positive_float m e.
Proof.
  intros [Hm He]. unfold positive_float.
  change (2 ^ (prec - 1)) with 4503599627370496 in *.
  change (2 ^ prec) with 9007199254740992 in *.
  split; [lia |]. split; [lia |]. left. lia.
Qed.

Lemma valid_positive_float (s : bool) (m : positive) (e : Z) :
  valid_binary (S754_finite s m e) = true -> positive_float (Zpos m) e.
Proof.
  unfold valid_binary, bounded, canonical_mantissa, positive_float.
  rewrite andb_true_iff, Z.eqb_eq, Z.leb_le. intros [Hc He].
  assert (Hprec : prec = 53) by reflexivity.
  assert (Hemin_v : emin = -1074) by reflexivity.
  pose proof (digits2_pos_bounds m) as Hb.
  set (k := Zpos (digits2_pos m)) in *.
  assert (1 <= k) by (unfold k; lia).
  unfold fexp in Hc. fold emin in Hc.
  assert (Hk : k <= prec) by lia.
  assert (2 ^ k <= 2 ^ prec) by (apply Z.pow_le_mono_r; lia).
  split; [lia |]. split; [lia |].
  destruct (Z.eq_dec e emin) as [| Hne]; [right; assumption | left].
  replace (prec - 1) with (k - 1) by lia. lia.
Qed.

Lemma units_lt_exponent (m1 e1 m2 e2 : Z) :
  positive_float m1 e1 -> positive_float m2 e2 -> e1 < e2 ->
  units m1 e1 < units m2 e2.
Proof.
  intros (Hm1 & He1 & _) (Hm2 & He2 & Hn2) Hlt. unfold units.
  assert (Hm2' : 2 ^ (prec - 1) <= m2) by (destruct Hn2; lia).
  replace (e2 - emin) with ((e1 - emin) + (e2 - e1)) by lia.
  rewrite pow2_split by lia.
  assert (0 < 2 ^ (e1 - emin)) by (apply Z.pow_pos_nonneg; lia).
  assert (2 ^ 1 <= 2 ^ (e2 - e1)) by (apply Z.pow_le_mono_r; lia).
  change (2 ^ 1) with 2 in *.
  change (2 ^ (prec - 1)) with 4503599627370496 in *.
  change (2 ^ prec) with 9007199254740992 in *.
  assert (m1 < m2 * 2 ^ (e2 - e1)) by nia.
  nia.
Qed.

Lemma SFltb_units (m1 e1 m2 e2 : Z) :
  positive_float m1 e1 -> positive_float m2 e2 ->
  SFltb (fin m1 e1) (fin m2 e2) = (units m1 e1 <? units m2 e2).
Proof.
  intros H1 H2. rewrite SFltb_fin by (destruct H1, H2; lia).
  destruct (Z.lt_trichotomy e1 e2) as [Hlt | [Heq | Hgt]].
  - pose proof (units_lt_exponent _ _ _ _ H1 H2 Hlt).
    destruct (Z.ltb_spec e1 e2); [| lia].
    destruct (Z.ltb_spec (units m1 e1) (units m2 e2)); [reflexivity | lia].
  - subst e2. rewrite Z.ltb_irrefl, Z.eqb_refl. cbn [orb andb]. unfold units.
    assert (0 < 2 ^ (e1 - emin)) by (apply Z.pow_pos_nonneg; destruct H1; lia).
    destruct (Z.ltb_spec m1 m2);
      destruct (Z.ltb_spec (m1 * 2 ^ (e1 - emin)) (m2 * 2 ^ (e1 - emin)));
      try reflexivity; nia.
  - pose proof (units_lt_exponent _ _ _ _ H2 H1 Hgt).
    destruct (Z.ltb_spec e1 e2); [lia |].
    destruct (Z.eqb_spec e1 e2); [lia |].
    destruct (Z.ltb_spec (units m1 e1) (units m2 e2)); [lia | reflexivity].
Qed.

Lemma SFleb_units (m1 e1 m2 e2 : Z) :
  positive_float m1 e1 -> positive_float m2 e2 ->
  SFleb (fin m1 e1) (fin m2 e2) = (units m1 e1 <=? units m2 e2).
Proof.
  intros H1 H2. rewrite SFleb_fin by (destruct H1, H2; lia).
  destruct (Z.lt_trichotomy e1 e2) as [Hlt | [Heq | Hgt]].
  - pose proof (units_lt_exponent _ _ _ _ H1 H2 Hlt).
    destruct (Z.ltb_spec e1 e2); [| lia].
    destruct (Z.leb_spec (units m1 e1) (units m2 e2)); [reflexivity | lia].
  - subst e2. rewrite Z.ltb_irrefl, Z.eqb_refl. cbn [orb andb]. unfold units.
    assert (0 < 2 ^ (e1 - emin)) by (apply Z.pow_pos_nonneg; destruct H1; lia).
    destruct (Z.leb_spec m1 m2);
      destruct (Z.leb_spec (m1 * 2 ^ (e1 - emin)) (m2 * 2 ^ (e1 - emin)));
      try reflexivity; nia.
  - pose proof (units_lt_exponent _ _ _ _ H2 H1 Hgt).
    destruct (Z.ltb_spec e1 e2); [lia |].
    destruct (Z.eqb_spec e1 e2); [lia |].
    destruct (Z.leb_spec (units m1 e1) (units m2 e2)); [lia | reflexivity].
Qed.

Lemma nonneg_zero (x : float) (s : bool) :
  nonneg x -> Prim2SF x = S754_zero s -> x = 0%float.
Proof.
  unfold nonneg. intros Hs Hx. rewrite Hx in Hs. simpl in Hs. subst s.
  rewrite <- (SF2Prim_Prim2SF x), Hx. reflexivity.
Qed.

(** A cursor below [float64(a)] is zero or a positive float below 2^63. *)
Lemma below_float64_of_int (x : float) (a : Z) :
  nonneg x -> 0 < a < 2 ^ 63 ->
  PrimFloat.ltb x (Go.float64_of_int a) = true ->
  x = 0%float
  \/ exists m e ma ea,
       Prim2SF x = fin m e /\ positive_float m e /\ e <= 10
       /\ Prim2SF (Go.float64_of_int a) = fin ma ea
       /\ 2 ^ (prec - 1) <= ma < 2 ^ prec
       /\ units m e < units ma ea.
Proof.
  intros Hs Ha Hlt.
  destruct (float64_of_int_range a Ha) as (ma & ea & Hav & Hma & Hea).
  assert (Hemax : emax = 1024) by reflexivity.
  assert (Hprec : prec = 53) by reflexivity.
  assert (Hemin_v : emin = -1074) by reflexivity.
  assert (Hpa : positive_float ma ea).
  { pose proof (Prim2SF_valid (Go.float64_of_int a)) as Hv. rewrite Hav in Hv.
    unfold fin in Hv. apply valid_positive_float in Hv.
    rewrite Z2Pos.id in Hv; [exact Hv |].
    change (2 ^ (prec - 1)) with 4503599627370496 in Hma. lia. }
  rewrite ltb_spec, Hav in Hlt.
  pose proof (Prim2SF_valid x) as Hv.
  destruct (Prim2SF x) as [s | s | | s m e] eqn:Hx.
  - left. eapply nonneg_zero; eauto.
  - exfalso. unfold nonneg in Hs. rewrite Hx in Hs. simpl in Hs. subst s.
    discriminate.
  - discriminate.
  - right. unfold nonneg in Hs. rewrite Hx in Hs. simpl in Hs. subst s.
    apply valid_positive_float in Hv.
    change (S754_finite false m e) with (fin (Zpos m) e) in *.
    rewrite SFltb_units in Hlt by assumption.
    apply Z.ltb_lt in Hlt.
    exists (Zpos m), e, ma, ea.
    split; [reflexivity |]. split; [exact Hv |].
    split; [| split; [exact Hav | split; [exact Hma | exact Hlt]]].
    destruct (Z.le_gt_cases e 10) as [| Hgt]; [assumption | exfalso].
    destruct Hv as (Hm & He & Hn).
    assert (Hm' : 2 ^ (prec - 1) <= Zpos m) by (destruct Hn; lia).
    destruct (Z.lt_trichotomy ea e) as [Hc | [Hc | Hc]].
    + pose proof (units_lt_exponent ma ea (Zpos m) e Hpa
                    ltac:(repeat split; auto; lia) Hc). lia.
    + subst ea. destruct Hea as [| [_ Hma2]]; [lia |]. subst ma.
      unfold units in Hlt.
      assert (0 < 2 ^ (e - emin)) by (apply Z.pow_pos_nonneg; lia). nia.
    + destruct Hea as [| [? _]]; lia.
Qed.

Lemma round_shift_exact (M n : Z) :
  0 <= n -> M mod 2 ^ n = 0 -> round_shift M n = M / 2 ^ n.
Proof.
  intros Hn Hr. unfold round_shift. rewrite Hr.
  assert (0 < 2 ^ n) by (apply Z.pow_pos_nonneg; lia).
  destruct (Z.ltb_spec (2 * 0) (2 ^ n)); [reflexivity | lia].
Qed.

Lemma round_shift_multiple (q n : Z) :
  0 <= n -> round_shift (q * 2 ^ n) n = q.
Proof.
  intros Hn. assert (0 < 2 ^ n) by (apply Z.pow_pos_nonneg; lia).
  rewrite round_shift_exact by (auto; apply Z.mod_mul; lia).
  apply Z.div_mul. lia.
Qed.

Lemma Zdigits2_shift (m n k : Z) :
  2 ^ (k - 1) <= m < 2 ^ k -> 0 < k -> 0 <= n -> Zdigits2 (m * 2 ^ n) = k + n.
Proof.
  intros Hm Hk Hn.
  assert (0 < 2 ^ n) by (apply Z.pow_pos_nonneg; lia).
  assert (0 < 2 ^ (k - 1)) by (apply Z.pow_pos_nonneg; lia).
  apply Zdigits2_unique; [| nia].
  replace (k + n - 1) with ((k - 1) + n) by lia.
  rewrite !pow2_split by lia. nia.
Qed.

(** An integer below 2^53 converts to the float of the same value. *)
Lemma float64_of_int_exact (n : Z) :
  0 < n < 2 ^ prec ->
  exists mn en,
    Prim2SF (Go.float64_of_int n) = fin mn en
    /\ normal mn en /\ - 52 <= en <= 0
    /\ mn * 2 ^ (en + 52) = n * 2 ^ 52.
Proof.
  intros Hn.
  assert (Hprec : prec = 53) by reflexivity.
  assert (Hemin_v : emin = -1074) by reflexivity.
  assert (Hemax : emax = 1024) by reflexivity.
  rewrite float64_of_int_spec
    by (split; [lia | transitivity (2 ^ prec); [lia | reflexivity]]).
  rewrite binary_normalize_small by exact Hn.
  pose proof (Zdigits2_bounds n ltac:(lia)) as Hb.
  set (k := Zdigits2 n) in *.
  assert (Hk : 1 <= k <= prec).
  { split.
    - destruct n as [| p |]; try lia. unfold k. simpl. lia.
    - destruct (Z.le_gt_cases k prec) as [| Hgt]; [assumption | exfalso].
      assert (2 ^ prec <= 2 ^ (k - 1)) by (apply Z.pow_le_mono_r; lia). lia. }
  assert (Hpow : 2 ^ (k - 1) * 2 ^ (prec - k) = 2 ^ (prec - 1)).
  { rewrite <- pow2_split by lia. f_equal. lia. }
  assert (Hpow' : 2 ^ k * 2 ^ (prec - k) = 2 ^ prec).
  { rewrite <- pow2_split by lia. f_equal. lia. }
  assert (HP : 0 < 2 ^ (prec - k)) by (apply Z.pow_pos_nonneg; lia).
  eexists _, _. split; [reflexivity |]. split; [| split; [lia |]].
  - split; [nia | lia].
  - rewrite <- Z.mul_assoc, <- pow2_split by lia. do 2 f_equal. lia.
Qed.

(** The integer value of a float of exponent 0 to 10 converts back to it. *)
Lemma float64_of_int_integral (m e : Z) :
  normal m e -> 0 <= e <= 10 ->
  Prim2SF (Go.float64_of_int (m * 2 ^ e)) = fin m e.
Proof.
  intros [Hm He] Hrange.
  assert (Hprec : prec = 53) by reflexivity.
  assert (Hpe : 0 < 2 ^ e) by (apply Z.pow_pos_nonneg; lia).
  assert (Hle : 2 ^ e <= 2 ^ 10) by (apply Z.pow_le_mono_r; lia).
  change (2 ^ 10) with 1024 in Hle.
  pose proof Hm as Hm'.
  change (2 ^ (prec - 1)) with 4503599627370496 in Hm'.
  change (2 ^ prec) with 9007199254740992 in Hm'.
  assert (Hd : Zdigits2 (m * 2 ^ e) = prec + e).
  { apply Zdigits2_shift; [exact Hm | lia | lia]. }
  rewrite float64_of_int_spec
    by (change (2 ^ 63) with 9223372036854775808; nia).
  destruct (Z.eq_dec e 0) as [-> | Hne].
  - rewrite Z.pow_0_r, Z.mul_1_r in *.
    rewrite binary_normalize_small by lia.
    rewrite Hd. replace (prec - (prec + 0)) with 0 by lia.
    rewrite Z.pow_0_r, Z.mul_1_r. reflexivity.
  - rewrite binary_normalize_large.
    + rewrite Hd. replace (prec + e - prec) with e by lia.
      rewrite round_shift_multiple by lia.
      destruct (Z.ltb_spec m (2 ^ prec)); [reflexivity | lia].
    + assert (2 ^ 1 <= 2 ^ e) by (apply Z.pow_le_mono_r; lia).
      change (2 ^ 1) with 2 in *.
      change (2 ^ prec) with 9007199254740992.
      change (2 ^ 64) with 18446744073709551616. nia.
Qed.

(** Adding a positive float of no greater exponent does not decrease a
    positive float. *)
Lemma SF64add_increases (m e ms es : Z) :
  normal m e -> normal ms es -> es <= e -> e + 2 <= emax - prec ->
  exists R E,
    SF64add (fin m e) (fin ms es) = fin R E
    /\ normal R E /\ units m e <= units R E.
Proof.
  intros Hn Hns Hle Hmax.
  rewrite SF64add_normal by assumption.
  destruct Hn as [Hm He]. destruct Hns as [Hms Hes].
  assert (Hprec : prec = 53) by reflexivity.
  assert (Hemin_v : emin = -1074) by reflexivity.
  assert (Hemax : emax = 1024) by reflexivity.
  assert (H52 : 2 ^ (prec - 1) = 4503599627370496) by reflexivity.
  assert (H53 : 2 ^ prec = 9007199254740992) by reflexivity.
  set (d := e - es) in *.
  assert (HP : 0 < 2 ^ d) by (apply Z.pow_pos_nonneg; lia).
  set (M := m * 2 ^ d + ms).
  assert (HM : 0 < M) by (unfold M; nia).
  pose proof (Zdigits2_bounds M HM) as Hb.
  set (k := Zdigits2 M) in *.
  assert (Hk : prec + d <= k <= prec + d + 1).
  { split.
    - destruct (Z.le_gt_cases (prec + d) k) as [| Hgt]; [assumption | exfalso].
      assert (2 ^ k <= 2 ^ (prec - 1 + d)) by (apply Z.pow_le_mono_r; lia).
      rewrite pow2_split in H by lia. unfold M in Hb. nia.
    - destruct (Z.le_gt_cases k (prec + d + 1)) as [| Hgt]; [assumption | exfalso].
      assert (2 ^ (prec + d + 1) <= 2 ^ (k - 1)) by (apply Z.pow_le_mono_r; lia).
      replace (prec + d + 1) with (prec + (d + 1)) in H by lia.
      rewrite pow2_split, pow2_split in H by lia. change (2 ^ 1) with 2 in H.
      unfold M in Hb. nia. }
  set (n := k - prec) in *.
  assert (HPn : 0 < 2 ^ n) by (apply Z.pow_pos_nonneg; lia).
  pose proof (round_shift_bounds M n ltac:(lia)) as Hr.
  assert (Hq : 2 ^ (prec - 1) <= M / 2 ^ n < 2 ^ prec).
  { replace (k - 1) with ((prec - 1) + n) in Hb by lia.
    replace k with (prec + n) in Hb by lia.
    rewrite !pow2_split in Hb by lia.
    split; [apply Z.div_le_lower_bound | apply Z.div_lt_upper_bound]; lia. }
  destruct (Z.ltb_spec (round_shift M n) (2 ^ prec)) as [Hlt | Hge].
  - rewrite finite_or_inf_fin by lia.
    assert (Hnorm : normal (round_shift M n) (es + n)) by (split; lia).
    eexists _, _. split; [reflexivity |]. split; [exact Hnorm |].
    destruct (Z.eq_dec n d) as [E | E].
    + rewrite E in *. replace (es + d) with e by lia.
      unfold units. apply Z.mul_le_mono_nonneg_r; [apply Z.pow_nonneg; lia |].
      assert (m <= M / 2 ^ d); [| lia].
      apply Z.div_le_lower_bound; [lia |]. unfold M. nia.
    + apply Z.lt_le_incl, units_lt_exponent.
      * apply normal_positive_float. split; lia.
      * apply normal_positive_float, Hnorm.
      * lia.
  - rewrite finite_or_inf_fin by lia.
    assert (Hnorm : normal (2 ^ (prec - 1)) (es + n + 1)) by (split; lia).
    eexists _, _. split; [reflexivity |]. split; [exact Hnorm |].
    apply Z.lt_le_incl, units_lt_exponent.
    + apply normal_positive_float. split; lia.
    + apply normal_positive_float, Hnorm.
    + lia.
Qed.

Lemma units_integer (n : Z) (mn en : Z) :
  - 52 <= en -> mn * 2 ^ (en + 52) = n * 2 ^ 52 ->
  units mn en = n * 2 ^ (- emin).
Proof.
  intros Hen H. unfold units.
  assert (Hemin_v : emin = -1074) by reflexivity.
  replace (en - emin) with ((en + 52) + 1022) by lia.
  replace (- emin) with (52 + 1022) by lia.
  rewrite (pow2_split (en + 52) 1022), (pow2_split 52 1022) by lia.
  rewrite !Z.mul_assoc, H. reflexivity.
Qed.

(** The integer part [n] of a positive float [m * 2^e] of negative
    exponent: [n <= m * 2^e < n + 1], in units of the least exponent. *)
Lemma units_fraction (m e : Z) :
  emin <= e < 0 -> 0 <= m ->
  (m / 2 ^ (- e)) * 2 ^ (- emin) <= units m e
  /\ units m e < (m / 2 ^ (- e) + 1) * 2 ^ (- emin).
Proof.
  intros He Hm. unfold units.
  assert (Hemin_v : emin = -1074) by reflexivity.
  assert (HP : 0 < 2 ^ (- e)) by (apply Z.pow_pos_nonneg; lia).
  assert (HQ : 0 < 2 ^ (e - emin)) by (apply Z.pow_pos_nonneg; lia).
  replace (- emin) with ((- e) + (e - emin)) by lia.
  rewrite pow2_split by lia.
  pose proof (Z.mul_div_le m (2 ^ (- e)) HP).
  pose proof (Z.mul_succ_div_gt m (2 ^ (- e)) HP).
  split; nia.
Qed.

(** C9, the comparison: a cursor below [float64(availSamples)] is not above
    its integer part plus one, so [spline] takes its first branch. *)
Lemma first_interval (x : float) (a : Z) :
  nonneg x -> 0 < a < 2 ^ 63 ->
  PrimFloat.ltb x (Go.float64_of_int a) = true ->
  PrimFloat.leb x (Go.float64_of_int (Go.uint64_of_float64 x) + 1) = true.
Proof.
  intros Hs Ha Hlt.
  assert (Hprec : prec = 53) by reflexivity.
  assert (Hemin_v : emin = -1074) by reflexivity.
  assert (Hemax : emax = 1024) by reflexivity.
  assert (H52 : 2 ^ (prec - 1) = 4503599627370496) by reflexivity.
  assert (H53 : 2 ^ prec = 9007199254740992) by reflexivity.
  assert (Hone : normal (2 ^ (prec - 1)) (- 52)) by (split; lia).
  destruct (below_float64_of_int x a Hs Ha Hlt)
    as [-> | (m & e & ma & ea & Hx & Hpf & He & _)];
    [vm_compute; reflexivity |].
  pose proof Hpf as (Hm & Hee & Hnorm).
  rewrite (uint64_of_float64_fin x m e Hx) by lia.
  rewrite leb_spec, add_spec, Hx, Prim2SF_one.
  destruct (Z.leb_spec 0 e) as [Hpos | Hneg].
  - (* an integral float: its integer part converts back to it *)
    assert (Hn : normal m e) by (split; lia).
    rewrite float64_of_int_integral by (auto; lia).
    destruct (SF64add_increases m e (2 ^ (prec - 1)) (- 52) Hn Hone)
      as (R & E & -> & HR & Hle); [lia | lia |].
    rewrite SFleb_units; [now apply Z.leb_le | exact Hpf |].
    now apply normal_positive_float.
  - set (n := m / 2 ^ (- e)).
    assert (HP : 0 < 2 ^ (- e)) by (apply Z.pow_pos_nonneg; lia).
    assert (Hn0 : 0 <= n) by (apply Z.div_pos; lia).
    destruct (units_fraction m e ltac:(lia) ltac:(lia)) as [_ Hfrac]. fold n in Hfrac.
    destruct (Z.eq_dec n 0) as [E0 | Hnz].
    + rewrite E0 in *.
      replace (Prim2SF (Go.float64_of_int 0)) with (S754_zero false)
        by (vm_compute; reflexivity).
      change (SF64add (S754_zero false) (fin (2 ^ (prec - 1)) (- 52)))
        with (fin (2 ^ (prec - 1)) (- 52)).
      rewrite SFleb_units by (auto using normal_positive_float).
      apply Z.leb_le. unfold units at 2. rewrite H52.
      replace (- 52 - emin) with 1022 by lia.
      replace (- emin) with (52 + 1022) in Hfrac by lia.
      rewrite pow2_split in Hfrac by lia.
      change (2 ^ 52) with 4503599627370496 in Hfrac. lia.
    + assert (Hn53 : 0 < n < 2 ^ prec).
      { split; [lia |]. apply Z.div_lt_upper_bound; [lia |].
        assert (2 ^ 1 <= 2 ^ (- e)) by (apply Z.pow_le_mono_r; lia).
        change (2 ^ 1) with 2 in *. nia. }
      assert (Hn52 : n + 1 <= 2 ^ (prec - 1)).
      { assert (n < 2 ^ (prec - 1)); [| lia].
        apply Z.div_lt_upper_bound; [lia |].
        assert (2 ^ 1 <= 2 ^ (- e)) by (apply Z.pow_le_mono_r; lia).
        change (2 ^ 1) with 2 in *. nia. }
      destruct (float64_of_int_exact n Hn53) as (mn & en & -> & Hmn & Hen & Hval).
      rewrite SF64add_normal by (auto; lia).
      replace (en - - 52) with (en + 52) by lia. rewrite Hval, H52.
      replace (n * 2 ^ 52 + 4503599627370496) with ((n + 1) * 2 ^ 52)
        by (change (2 ^ 52) with 4503599627370496; lia).
      set (M := (n + 1) * 2 ^ 52).
      assert (HM : 0 < M) by (unfold M; change (2 ^ 52) with 4503599627370496; lia).
      pose proof (Zdigits2_bounds M HM) as Hb.
      set (k := Zdigits2 M) in *.
      assert (Hk : prec <= k <= 105).
      { split.
        - destruct (Z.le_gt_cases prec k) as [| Hgt]; [assumption | exfalso].
          assert (2 ^ k <= 2 ^ 52) by (apply Z.pow_le_mono_r; lia).
          unfold M in Hb. change (2 ^ 52) with 4503599627370496 in *. lia.
        - destruct (Z.le_gt_cases k 105) as [| Hgt]; [assumption | exfalso].
          assert (2 ^ 105 <= 2 ^ (k - 1)) by (apply Z.pow_le_mono_r; lia).
          unfold M in Hb. change (2 ^ 105) with (2 ^ 53 * 2 ^ 52) in H.
          change (2 ^ 52) with 4503599627370496 in *.
          change (2 ^ 53) with 9007199254740992 in *. lia. }
      assert (HPk : 0 < 2 ^ (k - prec)) by (apply Z.pow_pos_nonneg; lia).
      assert (Hdiv : M = (n + 1) * 2 ^ (52 - (k - prec)) * 2 ^ (k - prec)).
      { unfold M. rewrite <- Z.mul_assoc, <- pow2_split by lia.
        do 2 f_equal. lia. }
      assert (Hexact : round_shift M (k - prec) = (n + 1) * 2 ^ (52 - (k - prec))).
      { rewrite Hdiv at 1. apply round_shift_multiple. lia. }
      rewrite Hexact.
      set (R := (n + 1) * 2 ^ (52 - (k - prec))) in *.
      assert (HR : 2 ^ (prec - 1) <= R < 2 ^ prec).
      { replace (k - 1) with ((prec - 1) + (k - prec)) in Hb by lia.
        replace k with (prec + (k - prec)) in Hb at 2 by lia.
        rewrite !pow2_split in Hb by lia. rewrite Hdiv in Hb. nia. }
      destruct (Z.ltb_spec R (2 ^ prec)); [| lia].
      rewrite finite_or_inf_fin by lia.
      rewrite SFleb_units
        by (auto; apply normal_positive_float; split; lia).
      apply Z.leb_le.
      assert (Hu : units R (- 52 + (k - prec)) = (n + 1) * 2 ^ (- emin)).
      { unfold units.
        replace (- 52 + (k - prec) - emin) with ((k - prec) + 1022) by lia.
        replace (- emin) with (52 + 1022) by lia.
        rewrite (pow2_split (k - prec) 1022), (pow2_split 52 1022) by lia.
        rewrite Z.mul_assoc, <- Hdiv. unfold M. ring. }
      rewrite Hu. lia.
Qed.

Lemma round_shift_up (M n : Z) :
  0 <= n -> M / 2 ^ n < round_shift M n -> 0 < M mod 2 ^ n.
Proof.
  intros Hn Hup.
  assert (HP : 0 < 2 ^ n) by (apply Z.pow_pos_nonneg; lia).
  pose proof (Z.mod_pos_bound M (2 ^ n) HP).
  destruct (Z.eq_dec (M mod 2 ^ n) 0) as [E | E]; [| lia].
  rewrite round_shift_exact in Hup by assumption. lia.
Qed.

(** Rounding to nearest leaves no float between an integer and its
    float64: a positive float below [float64(a)] is below [a]. *)
Lemma below_rounded (a m e : Z) :
  0 < a < 2 ^ 63 -> positive_float m e ->
  SFltb (fin m e) (Prim2SF (Go.float64_of_int a)) = true ->
  units m e < a * 2 ^ (- emin).
Proof.
  intros Ha Hpf Hlt.
  assert (Hprec : prec = 53) by reflexivity.
  assert (Hemin_v : emin = -1074) by reflexivity.
  assert (Hemax : emax = 1024) by reflexivity.
  assert (H52 : 2 ^ (prec - 1) = 4503599627370496) by reflexivity.
  assert (H53 : 2 ^ prec = 9007199254740992) by reflexivity.
  destruct (Z.lt_ge_cases a (2 ^ prec)) as [Hsmall | Hlarge].
  { destruct (float64_of_int_exact a ltac:(lia)) as (mn & en & Hav & Hmn & Hen & Hval).
    rewrite Hav, SFltb_units in Hlt by (auto using normal_positive_float).
    apply Z.ltb_lt in Hlt.
    now rewrite (units_integer a mn en) in Hlt by (auto; lia). }
  rewrite float64_of_int_spec in Hlt by lia.
  rewrite binary_normalize_large in Hlt
    by (split; [lia | transitivity (2 ^ 63); [lia | reflexivity]]).
  pose proof (Zdigits2_bounds a ltac:(lia)) as Hb.
  set (k := Zdigits2 a) in *.
  assert (Hk : prec < k <= 63).
  { split.
    - destruct (Z.lt_ge_cases prec k) as [| Hle]; [assumption | exfalso].
      assert (2 ^ k <= 2 ^ prec) by (apply Z.pow_le_mono_r; lia). lia.
    - destruct (Z.le_gt_cases k 63) as [| Hgt]; [assumption | exfalso].
      assert (2 ^ 63 <= 2 ^ (k - 1)) by (apply Z.pow_le_mono_r; lia). lia. }
  set (n := k - prec) in *.
  assert (HP : 0 < 2 ^ n) by (apply Z.pow_pos_nonneg; lia).
  pose proof (round_shift_bounds a n ltac:(lia)) as Hr.
  pose proof (Z.div_mod a (2 ^ n) ltac:(lia)) as Hdm.
  pose proof (Z.mod_pos_bound a (2 ^ n) HP) as Hmod.
  set (q := a / 2 ^ n) in *. set (r := a mod 2 ^ n) in *.
  assert (Hq : 2 ^ (prec - 1) <= q < 2 ^ prec).
  { assert (Hlo : 2 ^ (k - 1) = 2 ^ (prec - 1) * 2 ^ n)
      by (rewrite <- pow2_split by lia; f_equal; lia).
    assert (Hhi : 2 ^ k = 2 ^ prec * 2 ^ n)
      by (rewrite <- pow2_split by lia; f_equal; lia).
    rewrite Hlo, Hhi in Hb.
    split; [apply Z.div_le_lower_bound | apply Z.div_lt_upper_bound]; lia. }
  destruct Hpf as (Hm & He & Hnorm).
  assert (Hlow : 2 ^ (prec - 1) * 2 ^ n <= a) by nia.
  unfold units.
  replace (- emin) with 1074 by lia. replace (e - emin) with (e + 1074) by lia.
  assert (HQ : 0 < 2 ^ 1074) by (apply Z.pow_pos_nonneg; lia).
  (* the float is below [a] as soon as its exponent is below [n] *)
  assert (Hbelow : e < n -> m * 2 ^ (e + 1074) < a * 2 ^ 1074).
  { intros Hen.
    apply Z.lt_le_trans with (2 ^ prec * 2 ^ (e + 1074)).
    - apply Z.mul_lt_mono_pos_r; [apply Z.pow_pos_nonneg; lia | lia].
    - apply Z.le_trans with (2 ^ (prec - 1) * 2 ^ n * 2 ^ 1074).
      + rewrite <- !pow2_split by lia. apply Z.pow_le_mono_r; lia.
      + apply Z.mul_le_mono_nonneg_r; lia. }
  (* and otherwise it is a multiple of 2^n *)
  assert (Hmult : n <= e -> m * 2 ^ (e - n) * 2 ^ n < a ->
                  m * 2 ^ (e + 1074) < a * 2 ^ 1074).
  { intros Hen HX.
    replace (e + 1074) with ((e - n) + n + 1074) by lia.
    rewrite !pow2_split by lia. rewrite !Z.mul_assoc.
    apply Z.mul_lt_mono_pos_r; [lia | exact HX]. }
  destruct (Z.ltb_spec (round_shift a n) (2 ^ prec)) as [HR | HR].
  - rewrite SFltb_units in Hlt;
      [| repeat split; auto; lia | apply normal_positive_float; split; lia].
    apply Z.ltb_lt in Hlt. unfold units in Hlt.
    replace (e - emin) with (e + 1074) in Hlt by lia.
    replace (n - emin) with (n + 1074) in Hlt by lia.
    destruct (Z.lt_ge_cases e n) as [Hen | Hen]; [now apply Hbelow |].
    apply Hmult; [exact Hen |].
    replace (e + 1074) with ((e - n) + (n + 1074)) in Hlt by lia.
    rewrite pow2_split, Z.mul_assoc in Hlt by lia.
    apply Z.mul_lt_mono_pos_r in Hlt; [| apply Z.pow_pos_nonneg; lia].
    destruct (Z.eq_dec (round_shift a n) q) as [E | E].
    + rewrite E in Hlt. nia.
    + pose proof (round_shift_up a n ltac:(lia) ltac:(fold q; lia)) as Hup.
      fold r in Hup. nia.
  - assert (E : round_shift a n = q + 1) by lia.
    pose proof (round_shift_up a n ltac:(lia) ltac:(fold q; lia)) as Hup.
    fold r in Hup.
    rewrite SFltb_units in Hlt;
      [| repeat split; auto; lia | apply normal_positive_float; split; lia].
    apply Z.ltb_lt in Hlt. unfold units in Hlt.
    replace (e - emin) with (e + 1074) in Hlt by lia.
    replace (n + 1 - emin) with (1 + (n + 1074)) in Hlt by lia.
    destruct (Z.lt_ge_cases e n) as [Hen | Hen]; [now apply Hbelow |].
    apply Hmult; [exact Hen |].
    replace (e + 1074) with ((e - n) + (n + 1074)) in Hlt by lia.
    rewrite (pow2_split 1), (pow2_split (e - n)), !Z.mul_assoc in Hlt by lia.
    apply Z.mul_lt_mono_pos_r in Hlt; [| apply Z.pow_pos_nonneg; lia].
    change (2 ^ 1) with 2 in Hlt. nia.
Qed.

Lemma uint64_below (x : float) (a : Z) :
  nonneg x -> 0 < a < 2 ^ 63 ->
  PrimFloat.ltb x (Go.float64_of_int a) = true ->
  0 <= Go.uint64_of_float64 x < a.
Proof.
  intros Hs Ha Hlt.
  assert (Hemin_v : emin = -1074) by reflexivity.
  destruct (below_float64_of_int x a Hs Ha Hlt)
    as [-> | (m & e & ma & ea & Hx & Hpf & He & _)].
  { change (Go.uint64_of_float64 0) with 0. lia. }
  pose proof Hpf as (Hm & Hee & _).
  rewrite ltb_spec, Hx in Hlt.
  pose proof (below_rounded a m e Ha Hpf Hlt) as Hb.
  rewrite (uint64_of_float64_fin x m e Hx) by lia.
  assert (HQ : 0 < 2 ^ (- emin)) by (apply Z.pow_pos_nonneg; lia).
  destruct (Z.leb_spec 0 e) as [Hpos | Hneg].
  - assert (0 < 2 ^ e) by (apply Z.pow_pos_nonneg; lia).
    split; [nia |].
    unfold units in Hb. replace (e - emin) with (e + - emin) in Hb by lia.
    rewrite pow2_split, Z.mul_assoc in Hb by lia.
    now apply Z.mul_lt_mono_pos_r in Hb.
  - destruct (units_fraction m e ltac:(lia) ltac:(lia)) as [Hlo _].
    assert (0 < 2 ^ (- e)) by (apply Z.pow_pos_nonneg; lia).
    split; [apply Z.div_pos; lia |].
    apply (Z.mul_lt_mono_pos_r (2 ^ (- emin))); [exact HQ | lia].
Qed.

Lemma uint64_round_trip (x : float) (a : Z) :
  nonneg x -> 0 < a < 2 ^ 63 ->
  PrimFloat.ltb x (Go.float64_of_int a) = true ->
  Go.uint64_of_float64 (Go.float64_of_int (Go.uint64_of_float64 x))
  = Go.uint64_of_float64 x.
Proof.
  intros Hs Ha Hlt.
  assert (Hprec : prec = 53) by reflexivity.
  assert (Hemin_v : emin = -1074) by reflexivity.
  assert (H52 : 2 ^ (prec - 1) = 4503599627370496) by reflexivity.
  assert (H53 : 2 ^ prec = 9007199254740992) by reflexivity.
  destruct (below_float64_of_int x a Hs Ha Hlt)
    as [-> | (m & e & ma & ea & Hx & Hpf & He & _)];
    [vm_compute; reflexivity |].
  pose proof Hpf as (Hm & Hee & Hnorm).
  rewrite (uint64_of_float64_fin x m e Hx) by lia.
  destruct (Z.leb_spec 0 e) as [Hpos | Hneg].
  - assert (Hn : normal m e) by (split; lia).
    rewrite (uint64_of_float64_fin _ m e) by (auto using float64_of_int_integral; lia).
    destruct (Z.leb_spec 0 e); [reflexivity | lia].
  - set (n := m / 2 ^ (- e)).
    assert (HP : 0 < 2 ^ (- e)) by (apply Z.pow_pos_nonneg; lia).
    assert (Hn0 : 0 <= n) by (apply Z.div_pos; lia).
    destruct (Z.eq_dec n 0) as [-> | Hnz]; [vm_compute; reflexivity |].
    assert (Hn53 : 0 < n < 2 ^ prec).
    { split; [lia |]. apply Z.div_lt_upper_bound; [lia |]. nia. }
    destruct (float64_of_int_exact n Hn53) as (mn & en & Hav & Hmn & Hen & Hval).
    destruct Hmn as [Hmn Henn].
    rewrite (uint64_of_float64_fin _ mn en Hav) by lia.
    destruct (Z.leb_spec 0 en) as [Hen0 | Hen0].
    + replace en with 0 in * by lia. rewrite Z.pow_0_r, Z.mul_1_r.
      simpl (0 + 52) in Hval.
      apply (Z.mul_cancel_r _ _ (2 ^ 52)); [discriminate | exact Hval].
    + assert (HPn : 0 < 2 ^ (- en)) by (apply Z.pow_pos_nonneg; lia).
      assert (E : mn = n * 2 ^ (- en)).
      { apply (Z.mul_cancel_r _ _ (2 ^ (en + 52)));
          [apply Z.pow_nonzero; lia |].
        rewrite Hval, <- Z.mul_assoc, <- pow2_split by lia.
        do 2 f_equal. lia. }
      rewrite E. apply Z.div_mul. lia.
Qed.

Lemma nonneg_mul (x y : float) : nonneg x -> nonneg y -> nonneg (x * y).
Proof.
  unfold nonneg. rewrite mul_spec. unfold SF64mul, SFmul.
  destruct (Prim2SF x) as [sx | sx | | sx mx ex];
    destruct (Prim2SF y) as [sy | sy | | sy my ey]; simpl; intros Hx Hy;
    subst; simpl; auto.
  apply (binary_round_aux_sign false).
Qed.

(** On a float that is not negative, cutting the fraction off is taking
    the floor of the exact value. *)
Lemma trunc_floor (x : float) (z : Z) :
  nonneg x -> Go.trunc x = Some z ->
  0 <= z
  /\ exists q, Qval x = Some q
       /\ QArith_base.Qle (QArith_base.inject_Z z) q
       /\ QArith_base.Qlt q (QArith_base.inject_Z (z + 1)).
Proof.
  unfold nonneg, Go.trunc, Qval.
  destruct (Prim2SF x) as [s | s | | s m e]; simpl sign_is; intros Hs Hz;
    try discriminate; subst.
  - injection Hz as <-. split; [lia |].
    eexists. split; [reflexivity |]. split; vm_compute; congruence.
  - injection Hz as <-.
    unfold QArith_base.Qle, QArith_base.Qlt, QArith_base.inject_Z.
    destruct (Z.leb_spec 0 e) as [Hpos | Hneg].
    + rewrite Z.shiftl_mul_pow2 by lia.
      assert (0 < 2 ^ e) by (apply Z.pow_pos_nonneg; lia).
      split; [nia |]. eexists. split; [reflexivity |].
      cbn [QArith_base.Qnum QArith_base.Qden]. lia.
    + rewrite Z.shiftr_div_pow2 by lia.
      assert (HP : 0 < 2 ^ (- e)) by (apply Z.pow_pos_nonneg; lia).
      split; [apply Z.div_pos; lia |]. eexists. split; [reflexivity |].
      cbn [QArith_base.Qnum QArith_base.Qden].
      rewrite Z2Pos.id by exact HP.
      pose proof (Z.mul_div_le (Zpos m) (2 ^ (- e)) HP).
      pose proof (Z.mul_succ_div_gt (Zpos m) (2 ^ (- e)) HP).
      split; nia.
Qed.

(** [int(x)] is not negative only when [x] fits an [int], and then it is
    the integer part of [x]. *)
Lemma int_of_float64_trunc (x : float) :
  0 <= Go.int_of_float64 x -> Go.trunc x = Some (Go.int_of_float64 x).
Proof.
  unfold Go.int_of_float64.
  destruct (Go.trunc x) as [z |]; [| unfold Go.int_min; simpl; lia].
  destruct ((Go.int_min <=? z) && (z <=? Go.int_max)); [reflexivity |].
  unfold Go.int_min; simpl; lia.
Qed.

End Binary64.


(** ** The per-channel loop *)

Section CursorFacts.

Local Open Scope float_scope.

Lemma advance_S (step : float) (k : nat) (x : float) :
  advance step (S k) x = advance step k x + step.
Proof. revert x; induction k as [| k IH]; intros x; simpl in *; auto. Qed.

Lemma passes_unique (step avail x : float) (n m : nat) :
  passes step avail x n -> passes step avail x m -> n = m.
Proof.
  intros [Hn1 Hn2] [Hm1 Hm2].
  destruct (Nat.lt_trichotomy n m) as [H | [H | H]]; auto.
  - rewrite (Hm1 n H) in Hn2; discriminate.
  - rewrite (Hn1 m H) in Hm2; discriminate.
Qed.

Lemma passes_step (step avail x : float) (n : nat) :
  (x <? avail) = true -> passes step avail (x + step) n ->
  passes step avail x (S n).
Proof.
  intros Hx [H1 H2]; split.
  - intros [| j] Hj; simpl; [exact Hx | apply H1; lia].
  - exact H2.
Qed.

End CursorFacts.

(** What the loop returns, from any state: it has made some number [n] of
    passes, each inside the capacity of [output]; the first [i] slots are the
    ones it found, and the next [n] hold the sample of each pass. *)
Lemma resampleLoop_inv (fuel : nat) (data : list float) (avail step : float) :
  forall (x : float) (i : Z) (output out : list float),
    0 <= i ->
    resampleLoop fuel data avail step x i output = Some out ->
    exists n : nat,
      passes step avail x n
      /\ i + Z.of_nat n <= len output
      /\ length out = (Z.to_nat i + n)%nat
      /\ firstn (Z.to_nat i) out = firstn (Z.to_nat i) output
      /\ forall j, (j < n)%nat ->
           exists v, resampleAt data (advance step j x) = Some v
                     /\ nth_error out (Z.to_nat i + j) = Some v.
Proof.
  assert (Hexit : forall x i output out,
    0 <= i -> PrimFloat.ltb x avail = false -> Go.slice output 0 i = Some out ->
    exists n : nat,
      passes step avail x n
      /\ i + Z.of_nat n <= len output
      /\ length out = (Z.to_nat i + n)%nat
      /\ firstn (Z.to_nat i) out = firstn (Z.to_nat i) output
      /\ forall j, (j < n)%nat ->
           exists v, resampleAt data (advance step j x) = Some v
                     /\ nth_error out (Z.to_nat i + j) = Some v).
  { intros x i output out Hi Hx H.
    apply GoFacts.slice_inv in H. destruct H as (_ & Hlen & ->).
    rewrite Z.sub_0_r. simpl skipn.
    exists 0%nat. split; [| split; [| split; [| split]]].
    - split; [intros j Hj; lia | exact Hx].
    - lia.
    - rewrite length_firstn. unfold len in Hlen. lia.
    - now rewrite firstn_firstn, Nat.min_id.
    - intros j Hj; lia. }
  induction fuel as [| fuel IH]; intros x i output out Hi H; simpl in H;
    destruct (PrimFloat.ltb x avail) eqn:Hx; try discriminate; eauto.
  destruct (resampleAt data x) as [v |] eqn:Hv; simpl in H; [| discriminate].
  destruct (Go.store output i v) as [output' |] eqn:Hst; simpl in H; [| discriminate].
  apply GoFacts.store_inv in Hst. destruct Hst as (Hrange & -> & Hlen').
  apply IH in H; [| lia].
  destruct H as (n & Hp & Hcap & Hlen & Hpre & Hval).
  rewrite Hlen' in Hcap.
  replace (Z.to_nat (i + 1)) with (S (Z.to_nat i)) in * by lia.
  exists (S n). split; [| split; [| split; [| split]]].
  - now apply passes_step.
  - lia.
  - lia.
  - apply (f_equal (firstn (Z.to_nat i))) in Hpre.
    rewrite !firstn_firstn in Hpre.
    replace (Init.Nat.min (Z.to_nat i) (S (Z.to_nat i))) with (Z.to_nat i) in Hpre by lia.
    rewrite Hpre. clear.
    generalize (Z.to_nat i) as k. induction output as [| a l IHl]; intros [| k];
      simpl; auto. now rewrite IHl.
  - intros [| j] Hj.
    + exists v. split; [exact Hv |].
      rewrite Nat.add_0_r.
      assert (Hk : nth_error (firstn (S (Z.to_nat i)) out) (Z.to_nat i) = Some v).
      { rewrite Hpre, nth_error_firstn.
        destruct (Nat.ltb_spec (Z.to_nat i) (S (Z.to_nat i))); [| lia].
        apply GoFacts.nth_error_set_nth_same. unfold len in Hrange; lia. }
      rewrite nth_error_firstn in Hk.
      destruct (Nat.ltb_spec (Z.to_nat i) (S (Z.to_nat i))); [exact Hk | lia].
    + destruct (Hval j) as (w & Hw1 & Hw2); [lia |].
      exists w. split; [exact Hw1 |].
      now replace (Z.to_nat i + S j)%nat with (S (Z.to_nat i) + j)%nat by lia.
Qed.

(** Conversely: when the loop has [n] passes to make, each of them computes
    its sample and finds its slot, and the fuel covers them, it returns. *)
Lemma resampleLoop_returns (data : list float) (avail step : float) :
  forall (n fuel : nat) (x : float) (i : Z) (output : list float),
    0 <= i ->
    passes step avail x n ->
    i + Z.of_nat n <= len output ->
    (n <= fuel)%nat ->
    (forall j, (j < n)%nat -> resampleAt data (advance step j x) <> None) ->
    exists out, resampleLoop fuel data avail step x i output = Some out.
Proof.
  induction n as [| n IH]; intros fuel x i output Hi [Hp1 Hp2] Hcap Hfuel Hat.
  - simpl in Hp2.
    destruct fuel; simpl; rewrite Hp2;
      (rewrite GoFacts.slice_prefix by lia); eauto.
  - destruct fuel as [| fuel]; [lia |]. simpl.
    pose proof (Hp1 0%nat ltac:(lia)) as Hx. simpl in Hx. rewrite Hx.
    destruct (resampleAt data x) as [v |] eqn:Hv;
      [| exfalso; apply (Hat 0%nat); [lia | exact Hv]].
    simpl. rewrite GoFacts.store_ok by lia. simpl.
    apply IH.
    + lia.
    + split; [intros j Hj; apply (Hp1 (S j)); lia | exact Hp2].
    + unfold len in *. rewrite GoFacts.set_nth_length. lia.
    + lia.
    + intros j Hj. apply (Hat (S j)). lia.
Qed.

(** A pass beyond the capacity of [output] panics. *)
Lemma resampleLoop_overrun (data : list float) (avail step : float) :
  forall (fuel : nat) (x : float) (i : Z) (output : list float),
    0 <= i <= len output ->
    (forall j, Z.of_nat j <= len output - i ->
               PrimFloat.ltb (advance step j x) avail = true) ->
    resampleLoop fuel data avail step x i output = None.
Proof.
  intros fuel x i output Hi Hall.
  destruct (resampleLoop fuel data avail step x i output) as [out |] eqn:E; auto.
  apply resampleLoop_inv in E; [| lia].
  destruct E as (n & [_ Hn] & Hcap & _).
  rewrite Hall in Hn by lia. discriminate.
Qed.

(** The fuel given to the loop is never what stops it: any two amounts
    beyond the free slots of [output] give the same result. *)
Lemma resampleLoop_fuel (data : list float) (avail step : float) :
  forall (fuel fuel' : nat) (x : float) (i : Z) (output : list float),
    0 <= i ->
    (Z.to_nat (len output - i) < fuel)%nat ->
    (Z.to_nat (len output - i) < fuel')%nat ->
    resampleLoop fuel data avail step x i output
    = resampleLoop fuel' data avail step x i output.
Proof.
  induction fuel as [| fuel IH]; intros fuel' x i output Hi Hf Hf'; [lia |].
  destruct fuel' as [| fuel']; [lia |]. simpl.
  destruct (PrimFloat.ltb x avail); [| reflexivity].
  destruct (resampleAt data x) as [v |]; simpl; [| reflexivity].
  destruct (Go.store output i v) as [output' |] eqn:Hst; simpl; [| reflexivity].
  apply GoFacts.store_inv in Hst. destruct Hst as (Hrange & _ & Hlen).
  apply IH; rewrite ?Hlen; lia.
Qed.

(** ** The cursor of a valid configuration *)

Section ValidCursor.

Import Binary64.

Lemma nonneg_channelStep (r : Resampler) : valid_config r -> nonneg (channelStep r).
Proof.
  intros (Hc & Hf & Ht). unfold Go.int_max in *.
  unfold channelStep.
  repeat apply nonneg_div; apply nonneg_float64_of_int; lia.
Qed.

Lemma nonneg_advance (step : float) (k : nat) (x : float) :
  nonneg step -> nonneg x -> nonneg (advance step k x).
Proof.
  intros Hstep. revert x. induction k as [| k IH]; intros x Hx; simpl; auto.
  apply IH, nonneg_add; assumption.
Qed.

Lemma nonneg_cursor (r : Resampler) (k : nat) :
  valid_config r -> nonneg (cursor (channelStep r) k).
Proof.
  intros Hr. apply nonneg_advance; apply nonneg_channelStep, Hr.
Qed.

Lemma uint64_is_floor (x : float) (a : Z) :
  nonneg x -> 0 < a < 2 ^ 63 ->
  PrimFloat.ltb x (Go.float64_of_int a) = true ->
  exists q, Qval x = Some q
    /\ QArith_base.Qle (QArith_base.inject_Z (Go.uint64_of_float64 x)) q
    /\ QArith_base.Qlt q (QArith_base.inject_Z (Go.uint64_of_float64 x + 1)).
Proof.
  intros Hs Ha Hlt.
  destruct (below_float64_of_int x a Hs Ha Hlt)
    as [-> | (m & e & ma & ea & Hx & Hpf & He & _)].
  { eexists. split; [vm_compute; reflexivity |]. split; vm_compute; congruence. }
  pose proof Hpf as (Hm & Hee & _).
  rewrite (uint64_of_float64_fin x m e Hx) by lia.
  unfold Qval. rewrite Hx. unfold fin. rewrite Z2Pos.id by lia.
  eexists. split; [reflexivity |].
  unfold QArith_base.Qle, QArith_base.Qlt, QArith_base.inject_Z.
  destruct (Z.leb_spec 0 e) as [Hpos | Hneg]; cbn [QArith_base.Qnum QArith_base.Qden].
  - lia.
  - assert (HP : 0 < 2 ^ (- e)) by (apply Z.pow_pos_nonneg; lia).
    rewrite Z2Pos.id by exact HP.
    pose proof (Z.mul_div_le m (2 ^ (- e)) HP).
    pose proof (Z.mul_succ_div_gt m (2 ^ (- e)) HP).
    split; nia.
Qed.

Lemma spline_branch_Z0 (xi xo : float) :
  spline_branch xi xo = Z0_branch <-> PrimFloat.leb xo (xi + 1) = true.
Proof.
  unfold spline_branch. destruct (PrimFloat.leb xo (xi + 1)).
  - split; reflexivity.
  - split; [| discriminate]. destruct (PrimFloat.leb xo (xi + 2)); discriminate.
Qed.

(** The window of a pass is inside the channel, and its sample comes from
    the first sub-interval. *)
Lemma rawSample_first_interval (data : list float) (x : float) :
  nonneg x -> 16 < len data <= Go.int_max ->
  PrimFloat.ltb x (Go.float64_of_int (len data - 16)) = true ->
  exists y0 y1 y2 y3,
    Go.slice data (Go.uint64_of_float64 x) (Go.uint64_of_float64 x + 4)
    = Some [y0; y1; y2; y3]
    /\ rawSample data x
       = Some (let xi0 := Go.float64_of_int (Go.uint64_of_float64 x) in
               let c1 := (3 * ((y2 - y1) - (y1 - y0)))%float in
               let c2 := (3 * ((y3 - y2) - (y2 - y1)))%float in
               splineZ0 (splineM1 c1 c2) 1 xi0 (xi0 + 1) y0 y1 x).
Proof.
  intros Hs Hlen Hlt. unfold Go.int_max in Hlen.
  assert (Ha : 0 < len data - 16 < 2 ^ 63) by lia.
  pose proof (uint64_below x _ Hs Ha Hlt) as Hn.
  pose proof (uint64_round_trip x _ Hs Ha Hlt) as Hrt.
  pose proof (first_interval x _ Hs Ha Hlt) as Hfirst.
  set (n := Go.uint64_of_float64 x) in *.
  assert (Hslice : Go.slice data n (n + 4)
                   = Some (firstn 4 (skipn (Z.to_nat n) data))).
  { unfold Go.slice. fold (len data).
    destruct (Z.leb_spec 0 n); [| lia].
    destruct (Z.leb_spec n (n + 4)); [| lia].
    destruct (Z.leb_spec (n + 4) (len data)); [| lia].
    cbn [andb]. do 2 f_equal. lia. }
  assert (Hlen4 : length (firstn 4 (skipn (Z.to_nat n) data)) = 4%nat).
  { rewrite length_firstn, length_skipn. unfold len in *. lia. }
  destruct (firstn 4 (skipn (Z.to_nat n) data)) as [| y0 [| y1 [| y2 [| y3 [| ? ?]]]]];
    try discriminate Hlen4.
  exists y0, y1, y2, y3. split; [exact Hslice |].
  unfold rawSample. fold n. rewrite Hrt, Hslice. cbn [Go.bind].
  unfold spline, splineC1, splineC2.
  change (Go.index [y0; y1; y2; y3] 0) with (Some y0).
  change (Go.index [y0; y1; y2; y3] 1) with (Some y1).
  change (Go.index [y0; y1; y2; y3] 2) with (Some y2).
  change (Go.index [y0; y1; y2; y3] 3) with (Some y3).
  cbn [Go.bind]. rewrite Hfirst. reflexivity.
Qed.

Lemma resampleAt_defined (data : list float) (x : float) :
  nonneg x -> 16 < len data <= Go.int_max ->
  PrimFloat.ltb x (Go.float64_of_int (len data - 16)) = true ->
  resampleAt data x <> None.
Proof.
  intros Hs Hlen Hlt.
  destruct (rawSample_first_interval data x Hs Hlen Hlt)
    as (y0 & y1 & y2 & y3 & _ & Hraw).
  unfold resampleAt. rewrite Hraw. discriminate.
Qed.

(** Up to any bound [N], either the cursor stays below [avail] or the loop
    has a last pass. *)
Lemma passes_or_below (step avail : float) (N : nat) (x : float) :
  (forall j, (j <= N)%nat -> PrimFloat.ltb (advance step j x) avail = true)
  \/ exists n, (n <= N)%nat /\ passes step avail x n.
Proof.
  revert x. induction N as [| N IH]; intros x.
  - destruct (PrimFloat.ltb x avail) eqn:Hx.
    + left. intros j Hj. replace j with 0%nat by lia. exact Hx.
    + right. exists 0%nat. split; [lia |]. split; [intros j Hj; lia | exact Hx].
  - destruct (PrimFloat.ltb x avail) eqn:Hx.
    + destruct (IH (x + step)%float) as [Hall | (n & Hn & Hp)].
      * left. intros [| j] Hj; [exact Hx | apply Hall; lia].
      * right. exists (S n). split; [lia |]. now apply passes_step.
    + right. exists 0%nat. split; [lia |]. split; [intros j Hj; lia | exact Hx].
Qed.

(** With a valid configuration the loop returns as soon as its passes fit
    the capacity of the output, when [make] allocates that capacity. *)
Lemma resampleChannelData_returns (r : Resampler) (data : list float) (n : nat) :
  valid_config r -> 16 < len data <= Go.int_max ->
  iterations (channelStep r) (Go.float64_of_int (len data - 16)) n ->
  Z.of_nat n <= capacity r (len data - 16) ->
  Go.sizeof_float64 * capacity r (len data - 16) <= Go.maxAlloc ->
  exists out, resampleChannelData r data = Some out /\ length out = n.
Proof.
  intros Hr Hlen Hp Hcap Hfit. unfold resampleChannelData. fold (len data).
  destruct (Z.leb_spec (len data) 16) as [Hle | _]; [lia |].
  fold (capacity r (len data - 16)).
  rewrite GoFacts.make_ok by (try exact Hfit; lia). cbn [Go.bind].
  set (output := repeat 0%float (Z.to_nat (capacity r (len data - 16)))).
  assert (Hlo : len output = capacity r (len data - 16)).
  { unfold output. unfold len at 1. rewrite repeat_length. apply Z2Nat.id. lia. }
  destruct (resampleLoop_returns data (Go.float64_of_int (len data - 16))
              (channelStep r) n (S (length output)) (channelStep r) 0 output)
    as [out Hout]; try lia.
  - exact Hp.
  - unfold len in Hlo at 1. lia.
  - intros j Hj. apply resampleAt_defined; [| exact Hlen |].
    + apply nonneg_advance; apply nonneg_channelStep, Hr.
    + destruct Hp as [Hp _]. apply Hp. exact Hj.
  - exists out. split; [exact Hout |].
    apply resampleLoop_inv in Hout; [| lia].
    destruct Hout as (n' & Hp' & _ & Hlen' & _).
    simpl in Hlen'. rewrite Hlen'.
    exact (passes_unique _ _ _ _ _ Hp' Hp).
Qed.

End ValidCursor.

(** C9. In every pass of the per-channel loop the cursor [x] lies between
    its integer part [baseIndex] and [baseIndex + 1]; the comparison
    [xo <= xi + 1] of [spline] holds, so the evaluator takes its first
    sub-interval: the sample is that of [splineZ0], and [splineZ1] and
    [splineZ2] are never reached. *)
Theorem spline_first_interval (r : Resampler) (data : list float) (k : nat) :
  valid_config r ->
  16 < len data <= Go.int_max ->
  PrimFloat.ltb (cursor (channelStep r) k) (Go.float64_of_int (len data - 16)) = true ->
  let x := cursor (channelStep r) k in
  let baseIndex := Go.uint64_of_float64 x in
  (exists q, Qval x = Some q
     /\ QArith_base.Qle (QArith_base.inject_Z baseIndex) q
     /\ QArith_base.Qlt q (QArith_base.inject_Z (baseIndex + 1)))
  /\ spline_branch (Go.float64_of_int baseIndex) x = Z0_branch
  /\ exists y0 y1 y2 y3,
       Go.slice data baseIndex (baseIndex + 4) = Some [y0; y1; y2; y3]
       /\ rawSample data x
          = Some (let xi0 := Go.float64_of_int baseIndex in
                  let c1 := (3 * ((y2 - y1) - (y1 - y0)))%float in
                  let c2 := (3 * ((y3 - y2) - (y2 - y1)))%float in
                  splineZ0 (splineM1 c1 c2) 1 xi0 (xi0 + 1) y0 y1 x).
Proof.
  intros Hr Hlen Hlt x baseIndex.
  pose proof (nonneg_cursor r k Hr) as Hs. fold x in Hs.
  assert (Ha : 0 < len data - 16 < 2 ^ 63) by (unfold Go.int_max in Hlen; lia).
  split; [| split].
  - exact (uint64_is_floor x _ Hs Ha Hlt).
  - apply spline_branch_Z0. exact (Binary64.first_interval x _ Hs Ha Hlt).
  - exact (rawSample_first_interval data x Hs Hlen Hlt).
Qed.

Lemma spline_first_interval_witness :
  spline_branch
    (Go.float64_of_int (Go.uint64_of_float64 (cursor (channelStep (mono 1 2)) 4)))
    (cursor (channelStep (mono 1 2)) 4) = Z0_branch.
Proof.
  apply (spline_first_interval (mono 1 2) iota20 4).
  - unfold valid_config, Go.int_max. simpl. lia.
  - unfold Go.int_max. vm_compute. split; [reflexivity | discriminate].
  - vm_compute. reflexivity.
Defined.

(** ** Construction *)

(** C7. [NewResampler] fails with the channel-count error exactly when
    [channels < 1], with the source-rate error exactly when [channels >= 1]
    and [inputRate < 1], with the target-rate error exactly when
    [channels >= 1], [inputRate >= 1] and [outputRate < 1]; when the three
    arguments are at least 1 it returns the configuration that holds them. *)
Theorem NewResampler_spec (channels inputRate outputRate : Z) :
  ((exists n, NewResampler channels inputRate outputRate = inr (ErrChannels n))
     <-> channels < 1)
  /\ ((exists n, NewResampler channels inputRate outputRate = inr (ErrInputRate n))
     <-> 1 <= channels /\ inputRate < 1)
  /\ ((exists n, NewResampler channels inputRate outputRate = inr (ErrOutputRate n))
     <-> 1 <= channels /\ 1 <= inputRate /\ outputRate < 1)
  /\ ((exists r, NewResampler channels inputRate outputRate = inl r)
     <-> 1 <= channels /\ 1 <= inputRate /\ 1 <= outputRate)
  /\ (forall r, NewResampler channels inputRate outputRate = inl r ->
        Channels r = channels /\ FromRate r = inputRate /\ ToRate r = outputRate)
  /\ (forall e, NewResampler channels inputRate outputRate = inr e ->
        e = ErrChannels channels \/ e = ErrInputRate inputRate
        \/ e = ErrOutputRate outputRate).
Proof.
  unfold NewResampler.
  destruct (Z.ltb_spec channels 1); [| destruct (Z.ltb_spec inputRate 1);
    [| destruct (Z.ltb_spec outputRate 1)]];
    (split; [| split; [| split; [| split; [| split]]]]);
    try (split; [intros [n Hn]; first [discriminate | lia]
                | intros Hc; first [lia | eexists; reflexivity]]);
    try (intros r [= <-]; simpl; auto);
    try (intros e [= <-]; auto);
    try (intros r Hr; discriminate).
Qed.

(** ** The per-channel resampler *)

(** C1. For a channel of more than 16 samples, the sequence returned by
    [resampleChannelData] has as many samples as the loop makes passes (the
    cursor starts at [step] and is incremented by [step] while it is below
    [availSamples = length - 16]), and no more than the allocated capacity
    [ceil(availSamples / step)]: the slots never written are cut off. With a
    valid configuration a sequence is returned whenever the passes fit the
    capacity and the capacity is one that [make] allocates. *)
Theorem resampleChannelData_length (r : Resampler) (data : list float) :
  (16 < length data)%nat ->
  (forall out,
      resampleChannelData r data = Some out ->
      iterations (channelStep r) (Go.float64_of_int (len data - 16)) (length out)
      /\ len out <= capacity r (len data - 16))
  /\ (valid_config r -> len data <= Go.int_max ->
      Go.sizeof_float64 * capacity r (len data - 16) <= Go.maxAlloc ->
      forall n,
        iterations (channelStep r) (Go.float64_of_int (len data - 16)) n ->
        Z.of_nat n <= capacity r (len data - 16) ->
        exists out, resampleChannelData r data = Some out /\ length out = n).
Proof.
  intros Hlen. split.
  - intros out H. unfold resampleChannelData in H. fold (len data) in H.
    destruct (Z.leb_spec (len data) 16) as [Hle | _]; [unfold len in Hle; lia |].
    fold (capacity r (len data - 16)) in H.
    destruct (Go.make _ 0%float (capacity r (len data - 16))) as [output |] eqn:Hmk;
      cbn [Go.bind] in H; [| discriminate].
    apply GoFacts.make_inv in Hmk. destruct Hmk as (Hcap & _ & Hlo).
    apply resampleLoop_inv in H; [| lia].
    destruct H as (n & Hp & Hn & Hout & _).
    simpl in Hout. subst n. split; [exact Hp |]. unfold len at 1. lia.
  - intros Hr Hmax Hfit n Hp Hcap.
    apply resampleChannelData_returns; auto.
    split; [unfold len; lia | exact Hmax].
Qed.

Lemma resampleChannelData_length_witness :
  (forall out,
      resampleChannelData (mono 1 2) iota20 = Some out ->
      iterations (channelStep (mono 1 2)) (Go.float64_of_int (len iota20 - 16)) (length out)
      /\ len out <= capacity (mono 1 2) (len iota20 - 16))
  /\ (valid_config (mono 1 2) -> len iota20 <= Go.int_max ->
      Go.sizeof_float64 * capacity (mono 1 2) (len iota20 - 16) <= Go.maxAlloc ->
      forall n,
        iterations (channelStep (mono 1 2)) (Go.float64_of_int (len iota20 - 16)) n ->
        Z.of_nat n <= capacity (mono 1 2) (len iota20 - 16) ->
        exists out, resampleChannelData (mono 1 2) iota20 = Some out /\ length out = n).
Proof.
  apply (resampleChannelData_length (mono 1 2) iota20).
  vm_compute. lia.
Defined.

(** The passes of scenario A: seven of them, in a buffer of eight slots. *)
Lemma scenario_A_passes :
  iterations (channelStep (mono 1 2)) (Go.float64_of_int (len iota20 - 16)) 7
  /\ capacity (mono 1 2) (len iota20 - 16) = 8.
Proof.
  split; [| vm_compute; reflexivity].
  split.
  - intros j Hj.
    do 7 (destruct j as [| j]; [vm_compute; reflexivity |]). lia.
  - vm_compute. reflexivity.
Qed.

(** C2. A channel of at most 16 samples comes back as a sequence of the
    same length whose samples are all zero, whatever its samples and the
    rates. The bound is exact: 16 samples take this path, 17 do not. *)
Theorem resampleChannelData_short :
  (forall (r : Resampler) (data : list float),
      (length data <= 16)%nat ->
      resampleChannelData r data = Some (repeat 0%float (length data)))
  /\ resampleChannelData (mono 1 2) (ones 16) = Some (repeat 0%float 16)
  /\ resampleChannelData (mono 1 2) (ones 17) = Some [(1 / x7FFF)%float].
Proof.
  split; [| split; vm_compute; reflexivity].
  intros r data Hlen. unfold resampleChannelData.
  destruct (Z.leb_spec (Z.of_nat (length data)) 16) as [_ | Hgt]; [| lia].
  rewrite GoFacts.make_ok
    by (unfold Go.sizeof_float64, Go.maxAlloc; change (2 ^ 48) with 281474976710656; lia).
  now rewrite Nat2Z.id.
Qed.

Lemma resampleChannelData_short_witness :
  resampleChannelData (mono 44100 48000) (ones 3) = Some (repeat 0%float 3).
Proof.
  apply (proj1 resampleChannelData_short (mono 44100 48000) (ones 3)).
  simpl. lia.
Defined.

(** C3. Every sample that [resampleChannelData] emits is the value of the
    spline evaluator divided by 32767, whatever the range of the data: sample
    [k] of the result is the raw value of pass [k] over [float64(0x7FFF)]. In
    scenario A (one channel, rates 1 to 2, the samples 0, 1, ..., 19) the
    raw value of the first pass is 0.5 and the first sample is 0.5 / 32767,
    on the float64 entry point as well. *)
Theorem resampleChannelData_samples :
  (forall (r : Resampler) (data out : list float) (k : nat),
      (16 < length data)%nat ->
      resampleChannelData r data = Some out ->
      (k < length out)%nat ->
      exists raw,
        rawSample data (cursor (channelStep r) k) = Some raw
        /\ nth_error out k = Some (raw / x7FFF)%float)
  /\ channelStep (mono 1 2) = 0.5%float
  /\ rawSample iota20 0.5%float = Some 0.5%float
  /\ (exists rest,
        resampleChannelData (mono 1 2) iota20 = Some ((0.5 / 32767)%float :: rest))
  /\ (exists rest,
        ResampleFloat64 (mono 1 2) iota20 = Some ((0.5 / 32767)%float :: rest)).
Proof.
  split; [| split; [| split; [| split]]].
  - intros r data out k Hlen H Hk.
    unfold resampleChannelData in H. fold (len data) in H.
    destruct (Z.leb_spec (len data) 16) as [Hle | _]; [unfold len in Hle; lia |].
    fold (capacity r (len data - 16)) in H.
    destruct (Go.make _ 0%float (capacity r (len data - 16))) as [output |] eqn:Hmk;
      cbn [Go.bind] in H; [| discriminate].
    apply resampleLoop_inv in H; [| lia].
    destruct H as (n & _ & _ & Hout & _ & Hval).
    simpl in Hout. subst n.
    destruct (Hval k Hk) as (v & Hv & Hnth). simpl in Hnth.
    unfold resampleAt in Hv. fold (cursor (channelStep r) k) in Hv.
    destruct (rawSample data (cursor (channelStep r) k)) as [raw |];
      cbn [Go.bind] in Hv; [| discriminate].
    injection Hv as <-. exists raw. split; [reflexivity | exact Hnth].
  - vm_compute. reflexivity.
  - vm_compute. reflexivity.
  - eexists. vm_compute. reflexivity.
  - eexists. vm_compute. reflexivity.
Qed.

Lemma resampleChannelData_samples_witness :
  exists raw,
    rawSample iota20 (cursor (channelStep (mono 1 2)) 6) = Some raw
    /\ nth_error (map (fun k => (Go.float64_of_int k / 2 / x7FFF)%float) [1; 2; 3; 4; 5; 6; 7]) 6
       = Some (raw / x7FFF)%float.
Proof.
  apply (proj1 resampleChannelData_samples (mono 1 2) iota20).
  - vm_compute. lia.
  - vm_compute. reflexivity.
  - simpl. lia.
Defined.

(** ** The buffer adapter *)

Lemma mergeBody_len (r : Resampler) (channels resampledData : list (list float))
    (i : Z) (resampled resampled' : list float) :
  mergeBody r channels resampledData i resampled = Some resampled' ->
  len resampled' = len resampled.
Proof.
  unfold mergeBody. intros H.
  destruct (Go.quot i (Channels r)); cbn [Go.bind] in H; [| discriminate].
  destruct (Go.rem i (len channels)); cbn [Go.bind] in H; [| discriminate].
  destruct (Go.index resampledData z0); cbn [Go.bind] in H; [| discriminate].
  destruct (len l =? 0); [now injection H as <- |].
  match type of H with Go.bind ?m _ = _ => destruct m end;
    cbn [Go.bind] in H; [| discriminate].
  now apply GoFacts.store_inv in H.
Qed.

(** With two rates, what [ResampleFloat64] returns has the length of the
    buffer it allocates for the result. *)
Lemma ResampleFloat64_allocated (r : Resampler) (data out : list float) :
  data <> [] -> FromRate r <> ToRate r ->
  ResampleFloat64 r data = Some out ->
  len out = targetLength r data
  /\ Go.sizeof_float64 * targetLength r data <= Go.maxAlloc.
Proof.
  intros Hne Hrate H. unfold ResampleFloat64 in H.
  destruct (Z.eqb_spec (len data) 0) as [E | _].
  { destruct data; [congruence | discriminate E]. }
  destruct (Z.eqb_spec (FromRate r) (ToRate r)) as [E | _]; [congruence |].
  destruct (Go.make _ [] (Channels r)) as [chans0 |]; cbn [Go.bind] in H; [| discriminate].
  destruct (for_upto (len data) (splitBody r data) chans0) as [channels |];
    cbn [Go.bind] in H; [| discriminate].
  destruct (Go.make _ 0%float (targetLength r data)) as [resampled |] eqn:Hmk;
    cbn [Go.bind] in H; [| discriminate].
  destruct (Go.make _ [] (len channels)) as [rd0 |]; cbn [Go.bind] in H; [| discriminate].
  destruct (for_upto (len channels) (resampleBody r channels) rd0) as [resampledData |];
    cbn [Go.bind] in H; [| discriminate].
  pose proof (GoFacts.make_fits _ _ _ _ Hmk) as Hfit.
  apply GoFacts.make_inv in Hmk. destruct Hmk as (_ & _ & Hlen).
  split; [| exact Hfit]. rewrite <- Hlen.
  revert H. unfold for_upto.
  apply (GoFacts.for_range_invariant (fun s => len s = len resampled)
           (mergeBody r channels resampledData)); [| reflexivity].
  intros i s s' Hs Hb. apply mergeBody_len in Hb. congruence.
Qed.

(** C4, as the code has it. For a non-empty buffer and a configuration
    whose rates differ, the buffer returned by [ResampleFloat64] has as many
    samples as the integer part of the float64 product
    [float64(length) / float64(sourceRate) * float64(targetRate)], the
    quotient and the product each rounded to the nearest float64: the floor
    of the exact value of that rounded product. *)
Theorem ResampleFloat64_length (r : Resampler) (data out : list float) :
  valid_config r ->
  len data <= Go.int_max ->
  data <> [] ->
  FromRate r <> ToRate r ->
  ResampleFloat64 r data = Some out ->
  len out = targetLength r data
  /\ exists q,
       Qval ((Go.float64_of_int (len data) / Go.float64_of_int (FromRate r))
             * Go.float64_of_int (ToRate r))%float = Some q
       /\ QArith_base.Qle (QArith_base.inject_Z (len out)) q
       /\ QArith_base.Qlt q (QArith_base.inject_Z (len out + 1)).
Proof.
  intros Hr Hmax Hne Hrate H.
  assert (Hlen : len out = targetLength r data)
    by exact (proj1 (ResampleFloat64_allocated r data out Hne Hrate H)).
  split; [exact Hlen |].
  destruct Hr as (Hc & Hf & Ht). unfold Go.int_max in *.
  assert (Hnn : 0 <= targetLength r data) by (rewrite <- Hlen; apply GoFacts.len_nonneg).
  apply Binary64.int_of_float64_trunc in Hnn. fold (targetLength r data) in Hnn.
  rewrite <- Hlen in Hnn.
  apply Binary64.trunc_floor in Hnn; [exact (proj2 Hnn) |].
  apply Binary64.nonneg_mul; [apply Binary64.nonneg_div |];
    apply Binary64.nonneg_float64_of_int; try lia.
  pose proof (GoFacts.len_nonneg data). lia.
Qed.

Lemma ResampleFloat64_length_witness :
  len (map (fun k => (Go.float64_of_int (Z.min k 7) / 2 / x7FFF)%float)
         (map Z.of_nat (seq 1 40)))
  = targetLength (mono 1 2) iota20
  /\ exists q,
       Qval ((Go.float64_of_int (len iota20) / Go.float64_of_int (FromRate (mono 1 2)))
             * Go.float64_of_int (ToRate (mono 1 2)))%float = Some q
       /\ QArith_base.Qle
            (QArith_base.inject_Z
               (len (map (fun k => (Go.float64_of_int (Z.min k 7) / 2 / x7FFF)%float)
                       (map Z.of_nat (seq 1 40))))) q
       /\ QArith_base.Qlt q
            (QArith_base.inject_Z
               (len (map (fun k => (Go.float64_of_int (Z.min k 7) / 2 / x7FFF)%float)
                       (map Z.of_nat (seq 1 40))) + 1)).
Proof.
  apply (ResampleFloat64_length (mono 1 2) iota20).
  - unfold valid_config, Go.int_max. simpl. lia.
  - unfold Go.int_max. vm_compute. discriminate.
  - discriminate.
  - discriminate.
  - vm_compute. reflexivity.
Defined.

(** C4, as the specification words it, fails. The code computes the
    length in float64, where the quotient is rounded before it is
    multiplied: for 60 samples from 44100 to 22050 the exact value of
    [(60 / 44100) * 22050] is 30, and the float64 product is just below
    30, so the buffer returned has 29 samples. *)
Lemma ResampleFloat64_length_refuted :
  let r := mono 44100 22050 in
  let data := iota20 ++ iota20 ++ iota20 in
  len data = 60
  /\ targetLength_spec r data = 30
  /\ targetLength r data = 29
  /\ exists out, ResampleFloat64 r data = Some out /\ len out = 29
                 /\ len out <> targetLength_spec r data.
Proof.
  intros r data.
  split; [reflexivity |]. split; [vm_compute; reflexivity |].
  split; [vm_compute; reflexivity |].
  destruct (ResampleFloat64 r data) as [out |] eqn:Hout;
    [| vm_compute in Hout; discriminate].
  exists out. split; [reflexivity |].
  assert (Hlen : len out = 29).
  { assert (H : option_map len (ResampleFloat64 r data) = Some 29)
      by (vm_compute; reflexivity).
    rewrite Hout in H. now injection H. }
  split; [exact Hlen |]. rewrite Hlen. vm_compute. discriminate.
Qed.

(** C8. With equal rates [ResampleFloat64] returns its input: the same
    samples in the same order, and nothing is resampled. *)
Theorem ResampleFloat64_identity (r : Resampler) (data : list float) :
  FromRate r = ToRate r ->
  ResampleFloat64 r data = Some data.
Proof.
  intros Hrate. unfold ResampleFloat64.
  destruct (Z.eqb_spec (len data) 0) as [E | _].
  - destruct data; [reflexivity | discriminate E].
  - now rewrite Hrate, Z.eqb_refl.
Qed.

Lemma ResampleFloat64_identity_witness :
  ResampleFloat64 (mono 44100 44100) iota20 = Some iota20.
Proof.
  apply (ResampleFloat64_identity (mono 44100 44100) iota20). reflexivity.
Defined.

(** ** The 16-bit adapter *)

(** A buffer that [make] can hold is resampled to one that [make] can
    hold. *)
Lemma ResampleFloat64_fits (r : Resampler) (data out : list float) :
  Go.sizeof_float64 * len data <= Go.maxAlloc ->
  ResampleFloat64 r data = Some out ->
  Go.sizeof_float64 * len out <= Go.maxAlloc.
Proof.
  intros Hfit H.
  destruct data as [| d data]; [injection H as <-; exact Hfit |].
  destruct (Z.eq_dec (FromRate r) (ToRate r)) as [Hrate | Hrate].
  - unfold ResampleFloat64 in H.
    destruct (Z.eqb_spec (len (d :: data)) 0) as [E | _]; [discriminate E |].
    rewrite Hrate, Z.eqb_refl in H. now injection H as <-.
  - destruct (ResampleFloat64_allocated r (d :: data) out) as [-> Hres];
      [discriminate | exact Hrate | exact H | exact Hres].
Qed.

(** The two conversions of [ResampleInt16] are maps; the buffer for the
    second is never refused, being no longer than a float64 buffer that was
    allocated. *)
Lemma ResampleInt16_eq (r : Resampler) (data : list Z) :
  ResampleInt16 r data
  = (_ <- Go.make Go.sizeof_float64 0%float (len data) ;;
     resampledf64 <- ResampleFloat64 r (map normalize data) ;;
     Some (map denormalize resampledf64)).
Proof.
  unfold ResampleInt16.
  destruct (Go.make Go.sizeof_float64 0%float (len data)) as [f |] eqn:Hmk;
    [| reflexivity].
  pose proof (GoFacts.make_fits _ _ _ _ Hmk) as Hfit.
  pose proof (GoFacts.for_upto_map normalize _ 0%float data Hfit) as Hn.
  rewrite Hmk in Hn. cbn [Go.bind] in *.
  unfold normalize in Hn at 1. rewrite Hn. cbn [Go.bind].
  destruct (ResampleFloat64 r (map normalize data)) as [out |] eqn:Hout; cbn [Go.bind];
    [| reflexivity].
  apply (GoFacts.for_upto_map denormalize _ 0 out).
  apply ResampleFloat64_fits in Hout;
    [| unfold len in *; rewrite length_map; exact Hfit].
  pose proof (GoFacts.len_nonneg out).
  unfold Go.sizeof_int16, Go.sizeof_float64 in *. lia.
Qed.

(** C6, as the code has it. [ResampleInt16] allocates a float64 buffer of
    the length of its input (the only allocation of its own that [make] can
    refuse), divides each 16-bit sample by 32767, resamples the result
    with [ResampleFloat64], and converts each
    sample back by multiplying it by 32767 and cutting the fraction off,
    with no rounding and no clamping. In float64 the quotient 16384 / 32767
    times 32767 is 16384 exactly, so with equal rates the samples
    [0, 16384, -16384] come back as they are. *)
Theorem ResampleInt16_spec :
  (forall (r : Resampler) (data : list Z),
      ResampleInt16 r data
      = (_ <- Go.make Go.sizeof_float64 0%float (len data) ;;
         resampledf64 <- ResampleFloat64 r (map normalize data) ;;
         Some (map denormalize resampledf64)))
  /\ (forall d, normalize d = (Go.float64_of_int d / 32767)%float)
  /\ (forall v, denormalize v = Go.int16_of_float64 (v * 32767)%float)
  /\ Go.int16_of_float64 16383.5%float = 16383
  /\ Go.int16_of_float64 (-16383.5)%float = -16383
  /\ ResampleInt16 (mono 44100 44100) [0; 16384; -16384] = Some [0; 16384; -16384].
Proof.
  split; [exact ResampleInt16_eq |].
  repeat split; intros; vm_compute; reflexivity.
Qed.

(** C6, as the specification words it, fails: the positive sample is not
    lowered to 16383. *)
Lemma ResampleInt16_scenario_C_refuted :
  ResampleInt16 (mono 44100 44100) [0; 16384; -16384] <> Some [0; 16383; -16384].
Proof. vm_compute. discriminate. Qed.

(** ** When the per-channel resampler panics *)

(** For a valid configuration the only panics of [resampleChannelData] are
    an allocation that [make] refuses (the capacity is negative, when it
    does not fit an [int], or takes more than [maxAlloc] bytes) and a pass
    beyond the capacity: the windows are always inside the channel. *)
Theorem resampleChannelData_panics (r : Resampler) (data : list float) :
  valid_config r -> 16 < len data <= Go.int_max ->
  resampleChannelData r data = None
  <-> capacity r (len data - 16) < 0
      \/ Go.maxAlloc < Go.sizeof_float64 * capacity r (len data - 16)
      \/ forall j, Z.of_nat j <= capacity r (len data - 16) ->
           PrimFloat.ltb (cursor (channelStep r) j)
             (Go.float64_of_int (len data - 16)) = true.
Proof.
  intros Hr Hlen. split.
  - intros Hnone.
    destruct (Z.lt_ge_cases (capacity r (len data - 16)) 0) as [| Hcap];
      [left; assumption | right].
    destruct (Z.lt_ge_cases Go.maxAlloc (Go.sizeof_float64 * capacity r (len data - 16)))
      as [| Hfit]; [left; assumption | right].
    destruct (passes_or_below (channelStep r) (Go.float64_of_int (len data - 16))
                (Z.to_nat (capacity r (len data - 16))) (channelStep r))
      as [Hall | (n & Hn & Hp)].
    + intros j Hj. apply Hall. lia.
    + destruct (resampleChannelData_returns r data n Hr Hlen Hp) as (out & Hout & _);
        [lia | exact Hfit | congruence].
  - intros Hcases.
    assert (Hor : (capacity r (len data - 16) < 0
                   \/ Go.maxAlloc < Go.sizeof_float64 * capacity r (len data - 16))
                  \/ forall j, Z.of_nat j <= capacity r (len data - 16) ->
                       PrimFloat.ltb (cursor (channelStep r) j)
                         (Go.float64_of_int (len data - 16)) = true) by tauto.
    clear Hcases. destruct Hor as [Hrefused | Hall].
    + unfold resampleChannelData. fold (len data).
      destruct (Z.leb_spec (len data) 16) as [Hle | _]; [lia |].
      fold (capacity r (len data - 16)).
      now rewrite (proj2 (GoFacts.make_none _ _ _) Hrefused).
    + unfold resampleChannelData. fold (len data).
      destruct (Z.leb_spec (len data) 16) as [Hle | _]; [lia |].
      fold (capacity r (len data - 16)).
      destruct (Go.make _ 0%float (capacity r (len data - 16))) as [output |] eqn:Hmk;
        [| reflexivity].
      cbn [Go.bind]. apply GoFacts.make_inv in Hmk. destruct Hmk as (Hcap & _ & Hlo).
      apply resampleLoop_overrun; [lia |].
      intros j Hj. apply Hall. lia.
Qed.

Lemma resampleChannelData_panics_witness :
  resampleChannelData (mono 1 2) iota20 = None
  <-> capacity (mono 1 2) (len iota20 - 16) < 0
      \/ Go.maxAlloc < Go.sizeof_float64 * capacity (mono 1 2) (len iota20 - 16)
      \/ forall j, Z.of_nat j <= capacity (mono 1 2) (len iota20 - 16) ->
           PrimFloat.ltb (cursor (channelStep (mono 1 2)) j)
             (Go.float64_of_int (len iota20 - 16)) = true.
Proof.
  apply (resampleChannelData_panics (mono 1 2) iota20).
  - unfold valid_config, Go.int_max. simpl. lia.
  - unfold Go.int_max. vm_compute. split; [reflexivity | discriminate].
Defined.

(** ** Running past the output buffer *)

(** With one channel the first loop of [ResampleFloat64] copies the
    buffer. *)
Lemma split_one_channel (r : Resampler) (todo done : list float) :
  Channels r = 1 ->
  for_range (length todo) (len done) (splitBody r (done ++ todo)) [done]
  = Some [done ++ todo].
Proof.
  intros Hc. revert done. induction todo as [| d todo IH]; intros done.
  - simpl. now rewrite app_nil_r.
  - simpl for_range. unfold splitBody at 1. rewrite Hc.
    unfold Go.rem. simpl (1 =? 0). cbn [Go.bind]. rewrite Z.rem_1_r.
    change (Go.index [done] 0) with (Some done). cbn [Go.bind].
    rewrite GoFacts.index_ok by (unfold len; rewrite length_app; simpl; lia).
    unfold len at 1. rewrite Nat2Z.id, nth_error_app2, Nat.sub_diag by lia.
    cbn [nth_error Go.bind].
    change (Go.store [done] 0 (done ++ [d])) with (Some [done ++ [d]]).
    cbn [Go.bind].
    replace (len done + 1) with (len (done ++ [d]))
      by (unfold len; rewrite length_app; simpl; lia).
    specialize (IH (done ++ [d])). rewrite <- app_assoc in IH. exact IH.
Qed.

(** When the cursor is still below [availSamples] after as many increments
    as the output has slots, the pass after the last slot panics. *)
Lemma resampleChannelData_overrun (r : Resampler) (data : list float) (fuel : nat) :
  16 < len data ->
  stays_below fuel (channelStep r) (Go.float64_of_int (len data - 16))
    (channelStep r) (capacity r (len data - 16)) = true ->
  resampleChannelData r data = None.
Proof.
  intros Hlen Hbelow. unfold resampleChannelData. fold (len data).
  destruct (Z.leb_spec (len data) 16) as [Hle | _]; [lia |].
  fold (capacity r (len data - 16)).
  destruct (Go.make _ 0%float (capacity r (len data - 16))) as [output |] eqn:Hmk;
    [| reflexivity].
  cbn [Go.bind]. apply GoFacts.make_inv in Hmk. destruct Hmk as (Hcap & _ & Hlo).
  apply resampleLoop_overrun; [lia |].
  intros j Hj. apply (Binary64.stays_below_sound _ _ _ _ _ Hbelow). lia.
Qed.

Lemma ResampleFloat64_one_channel (r : Resampler) (data : list float) :
  Channels r = 1 -> FromRate r <> ToRate r -> len data <> 0 ->
  resampleChannelData r data = None ->
  ResampleFloat64 r data = None.
Proof.
  intros Hc Hrate Hlen Hpanic. unfold ResampleFloat64.
  destruct (Z.eqb_spec (len data) 0) as [| _]; [contradiction |].
  destruct (Z.eqb_spec (FromRate r) (ToRate r)) as [| _]; [contradiction |].
  rewrite Hc. change (Go.make Go.sizeof_slice [] 1) with (Some [@nil float]).
  cbn [Go.bind].
  unfold for_upto at 1. unfold len at 1. rewrite Nat2Z.id.
  pose proof (split_one_channel r data [] Hc) as Hsplit.
  change (len (@nil float)) with 0 in Hsplit. cbn [app] in Hsplit.
  rewrite Hsplit. cbn [Go.bind].
  destruct (Go.make _ 0%float (targetLength r data)); [| reflexivity].
  cbn [Go.bind]. change (len [data]) with 1.
  change (Go.make Go.sizeof_slice [] 1) with (Some [@nil float]). cbn [Go.bind].
  unfold for_upto at 1. simpl for_range. unfold resampleBody at 1.
  change (Go.index [data] 0) with (Some data). cbn [Go.bind].
  now rewrite Hpanic.
Qed.

(** C5 fails on the code. The cursor is a float64 sum of [step]s, and its
    rounding errors add up: with one channel and the rates 1 and 1000, a
    buffer of 238038 samples has [availSamples = 238022], [step = 0.001]
    and a capacity of 238022000, yet after 238022000 increments the cursor
    is still below 238022. The next pass indexes [output] at its length, and
    both entry points panic. *)
Theorem resample_overrun :
  channelStep (mono 1 1000) = (1 / 1000)%float
  /\ capacity (mono 1 1000) 238022 = 238022000
  /\ (forall j, Z.of_nat j <= 238022000 ->
        PrimFloat.ltb (cursor (channelStep (mono 1 1000)) j) 238022 = true)
  /\ (forall data : list float,
        len data = 238038 -> ResampleFloat64 (mono 1 1000) data = None)
  /\ (forall data : list Z,
        len data = 238038 -> ResampleInt16 (mono 1 1000) data = None).
Proof.
  assert (Hstep : channelStep (mono 1 1000) = (1 / 1000)%float) by (vm_compute; reflexivity).
  assert (Hcap : capacity (mono 1 1000) 238022 = 238022000) by (vm_compute; reflexivity).
  assert (Havail : Go.float64_of_int 238022 = 238022%float) by (vm_compute; reflexivity).
  assert (Hbelow : stays_below 64 (1 / 1000) 238022 (1 / 1000) 238022000 = true)
    by (vm_compute; reflexivity).
  assert (Hfloat : forall data : list float,
             len data = 238038 -> ResampleFloat64 (mono 1 1000) data = None).
  { intros data Hlen.
    apply ResampleFloat64_one_channel; [reflexivity | discriminate | lia |].
    apply (resampleChannelData_overrun _ _ 64); [lia |].
    rewrite Hlen. change (238038 - 16) with 238022.
    rewrite Hstep, Hcap, Havail. exact Hbelow. }
  split; [exact Hstep |]. split; [exact Hcap |]. split; [| split].
  - intros j Hj. rewrite Hstep. unfold cursor.
    apply (Binary64.stays_below_sound _ _ _ _ _ Hbelow). exact Hj.
  - exact Hfloat.
  - intros data Hlen. rewrite ResampleInt16_eq.
    rewrite Hfloat; [now destruct (Go.make _ _ _) |].
    unfold len in *. rewrite length_map. exact Hlen.
Qed.

(** ** What a call leaves of the store *)

Module MemFacts.

Import Mem.

Lemma extends_refl (st : store) : extends st st.
Proof.
  split; [reflexivity |].
  split; exists []; symmetry; apply app_nil_r.
Qed.

Lemma update_app_r {T : Type} (l1 l2 : list T) (b : nat) (f : T -> T) :
  (length l1 <= b)%nat -> update (l1 ++ l2) b f = l1 ++ update l2 (b - length l1) f.
Proof.
  revert b. induction l1 as [| a l1 IH]; intros b Hb; simpl in *.
  - now rewrite Nat.sub_0_r.
  - destruct b as [| b]; [lia |]. simpl. f_equal. apply IH. lia.
Qed.

Lemma keeps_ret {A : Type} (st0 : store) (a : A) (Q : A -> Prop) :
  Q a -> keeps st0 (ret a) Q.
Proof.
  intros HQ st Hst. split; [exact Hst |].
  simpl. intros a' [= <-]. exact HQ.
Qed.

Lemma keeps_lift {A : Type} (st0 : store) (p : Go.panics A) (Q : A -> Prop) :
  (forall a, p = Some a -> Q a) -> keeps st0 (lift p) Q.
Proof.
  intros HQ st Hst. split; [exact Hst | exact HQ].
Qed.

Lemma keeps_bind {A B : Type} (st0 : store) (m : M A) (k : A -> M B)
    (P : A -> Prop) (Q : B -> Prop) :
  keeps st0 m P -> (forall a, P a -> keeps st0 (k a) Q) -> keeps st0 (bind m k) Q.
Proof.
  intros Hm Hk st Hst. unfold bind.
  destruct (Hm st Hst) as [Hext HP].
  destruct (m st) as [[a |] st']; simpl in *.
  - apply (Hk a (HP a eq_refl)), Hext.
  - split; [exact Hext | discriminate].
Qed.

Lemma keeps_weaken {A : Type} (st0 : store) (m : M A) (P Q : A -> Prop) :
  keeps st0 m P -> (forall a, P a -> Q a) -> keeps st0 m Q.
Proof.
  intros Hm HPQ st Hst. destruct (Hm st Hst) as [Hext HP].
  split; [exact Hext | intros a Ha; apply HPQ, HP, Ha].
Qed.

Lemma keeps_this (st0 : store) : keeps st0 this (fun r => r = receiver st0).
Proof.
  intros st Hst. split; [exact Hst |].
  simpl. intros a [= <-]. apply Hst.
Qed.

Lemma keeps_load (st0 : store) (s : slice) (i : Z) :
  keeps st0 (load s i) (fun _ => True).
Proof. intros st Hst. split; [exact Hst | trivial]. Qed.

Lemma keeps_load16 (st0 : store) (s : slice) (i : Z) :
  keeps st0 (load16 s i) (fun _ => True).
Proof. intros st Hst. split; [exact Hst | trivial]. Qed.

Lemma keeps_make (st0 : store) (n : Z) : keeps st0 (make n) (owned st0).
Proof.
  intros st (Hr & (fs & Hfs) & Hzs). unfold make.
  destruct (Go.panicmakeslicelen Go.sizeof_float64 n); simpl.
  - split; [| discriminate]. split; [exact Hr |]. split; [exists fs; exact Hfs | exact Hzs].
  - split.
    + split; [exact Hr |]. split; [| exact Hzs].
      exists (fs ++ [repeat 0%float (Z.to_nat n)]). simpl.
      rewrite Hfs. symmetry. apply app_assoc.
    + intros a [= <-]. unfold owned. simpl.
      rewrite Hfs, length_app. lia.
Qed.

Lemma keeps_make16 (st0 : store) (n : Z) : keeps st0 (make16 n) (owned16 st0).
Proof.
  intros st (Hr & Hfs & (zs & Hzs)). unfold make16.
  destruct (Go.panicmakeslicelen Go.sizeof_int16 n); simpl.
  - split; [| discriminate]. split; [exact Hr |]. split; [exact Hfs | exists zs; exact Hzs].
  - split.
    + split; [exact Hr |]. split; [exact Hfs |].
      exists (zs ++ [repeat 0 (Z.to_nat n)]). simpl.
      rewrite Hzs. symmetry. apply app_assoc.
    + intros a [= <-]. unfold owned16. simpl.
      rewrite Hzs, length_app. lia.
Qed.

Lemma keeps_store_at (st0 : store) (s : slice) (i : Z) (v : float) :
  owned st0 s -> keeps st0 (store_at s i v) (fun _ => True).
Proof.
  intros Hs st (Hr & (fs & Hfs) & Hzs). unfold store_at.
  destruct ((0 <=? i) && (i <? len s)); simpl.
  - split; [| trivial]. split; [exact Hr |]. split; [| exact Hzs].
    simpl. rewrite Hfs, (update_app_r _ _ _ _ Hs). eexists. reflexivity.
  - split; [| trivial]. split; [exact Hr |]. split; [exists fs; exact Hfs | exact Hzs].
Qed.

Lemma keeps_store16_at (st0 : store) (s : slice) (i : Z) (v : Z) :
  owned16 st0 s -> keeps st0 (store16_at s i v) (fun _ => True).
Proof.
  intros Hs st (Hr & Hfs & (zs & Hzs)). unfold store16_at.
  destruct ((0 <=? i) && (i <? len s)); simpl.
  - split; [| trivial]. split; [exact Hr |]. split; [exact Hfs |].
    simpl. rewrite Hzs, (update_app_r _ _ _ _ Hs). eexists. reflexivity.
  - split; [| trivial]. split; [exact Hr |]. split; [exact Hfs | exists zs; exact Hzs].
Qed.

Lemma keeps_append (growslice : nat -> nat) (st0 : store) (s : slice) (v : float) :
  spare st0 s -> keeps st0 (append growslice s v) (spare st0).
Proof.
  intros Hs st (Hr & (fs & Hfs) & Hzs). unfold append.
  destruct (Nat.ltb_spec (slen s) (scap s)) as [Hlt | Hge]; simpl.
  - split.
    + split; [exact Hr |]. split; [| exact Hzs].
      simpl. rewrite Hfs, (update_app_r _ _ _ _ (Hs Hlt)). eexists. reflexivity.
    + intros a [= <-] _. exact (Hs Hlt).
  - split.
    + split; [exact Hr |]. split; [| exact Hzs].
      simpl. rewrite Hfs, <- app_assoc. eexists. reflexivity.
    + intros a [= <-] _. unfold owned. simpl. rewrite Hfs, length_app. lia.
Qed.

Lemma keeps_for_range {S : Type} (st0 : store) (body : Z -> S -> M S) (I : S -> Prop) :
  (forall i s, I s -> keeps st0 (body i s) I) ->
  forall n i s, I s -> keeps st0 (for_range n i body s) I.
Proof.
  intros Hbody. induction n as [| n IH]; intros i s Hs; simpl.
  - apply keeps_ret, Hs.
  - eapply keeps_bind; [apply Hbody, Hs |].
    intros s' Hs'. apply IH, Hs'.
Qed.

Lemma reslice_base (s s' : slice) (lo hi : Z) :
  reslice s lo hi = Some s' -> base s' = base s.
Proof.
  unfold reslice. destruct ((0 <=? lo) && (lo <=? hi) && (hi <=? Z.of_nat (scap s)));
    [| discriminate].
  intros [= <-]. reflexivity.
Qed.

Lemma keeps_splineC1 (st0 : store) (yi : slice) :
  keeps st0 (splineC1 yi) (fun _ => True).
Proof.
  unfold splineC1.
  repeat (eapply keeps_bind; [apply keeps_load | cbv beta; intros ? _]).
  apply keeps_ret. exact I.
Qed.

Lemma keeps_splineC2 (st0 : store) (yi : slice) :
  keeps st0 (splineC2 yi) (fun _ => True).
Proof.
  unfold splineC2.
  repeat (eapply keeps_bind; [apply keeps_load | cbv beta; intros ? _]).
  apply keeps_ret. exact I.
Qed.

Lemma keeps_spline (st0 : store) (xi : float) (yi : slice) (xo : float) :
  keeps st0 (spline xi yi xo) (fun _ => True).
Proof.
  unfold spline.
  repeat (eapply keeps_bind; [apply keeps_load | cbv beta; intros ? _]).
  eapply keeps_bind; [apply keeps_splineC1 | cbv beta; intros c1 _].
  eapply keeps_bind; [apply keeps_splineC2 | cbv beta; intros c2 _].
  cbv zeta.
  destruct (PrimFloat.leb xo (xi + 1)); [apply keeps_ret; exact I |].
  destruct (PrimFloat.leb xo (xi + 2)); apply keeps_ret; exact I.
Qed.

Lemma keeps_resamplePass (st0 : store) (data : slice) (x : float) (output : slice) (i : Z) :
  owned st0 output -> keeps st0 (resamplePass data x output i) (fun _ => True).
Proof.
  intros Hout. unfold resamplePass.
  eapply keeps_bind; [apply keeps_lift; intros ? _; exact I | cbv beta; intros yi _].
  eapply keeps_bind; [apply keeps_spline | cbv beta; intros yo _].
  apply keeps_store_at, Hout.
Qed.

Lemma keeps_resampleLoop (st0 : store) (data : slice) (avail step : float) (output : slice) :
  owned st0 output ->
  forall fuel x i, keeps st0 (resampleLoop fuel data avail step x i output) (fun _ => True).
Proof.
  intros Hout. induction fuel as [| fuel IH]; intros x i; simpl.
  - destruct (PrimFloat.ltb x avail); apply keeps_lift; trivial.
  - destruct (PrimFloat.ltb x avail); [| apply keeps_lift; trivial].
    eapply keeps_bind; [apply keeps_resamplePass, Hout |].
    intros _ _. apply IH.
Qed.

Lemma keeps_resampleChannelData (st0 : store) (data : slice) :
  keeps st0 (resampleChannelData data) (fun _ => True).
Proof.
  unfold resampleChannelData.
  destruct (len data <=? 16).
  - eapply keeps_weaken; [apply keeps_make | trivial].
  - eapply keeps_bind; [apply keeps_this | cbv beta; intros r _].
    eapply keeps_bind; [apply keeps_make | cbv beta; intros output Hout].
    apply keeps_resampleLoop, Hout.
Qed.

Lemma spare_set_nth (st0 : store) (channels : list slice) (n : nat) (ch : slice) :
  Forall (spare st0) channels -> spare st0 ch ->
  Forall (spare st0) (Go.set_nth channels n ch).
Proof.
  intros Hall Hch. revert n.
  induction Hall as [| a l Ha Hl IH]; intros n; simpl; [constructor |].
  destruct n as [| n]; constructor; auto.
Qed.

Lemma index_Forall {T : Type} (P : T -> Prop) (l : list T) (i : Z) (a : T) :
  Forall P l -> Go.index l i = Some a -> P a.
Proof.
  intros Hall. unfold Go.index.
  destruct ((0 <=? i) && (i <? Z.of_nat (length l))); [| discriminate].
  intros Hnth. apply nth_error_In in Hnth.
  rewrite Forall_forall in Hall. apply Hall, Hnth.
Qed.

Lemma keeps_splitBody (growslice : nat -> nat) (st0 : store) (data : slice) (i : Z)
    (channels : list slice) :
  Forall (spare st0) channels ->
  keeps st0 (splitBody growslice data i channels) (Forall (spare st0)).
Proof.
  intros Hall. unfold splitBody.
  eapply keeps_bind; [apply keeps_this | cbv beta; intros r _].
  eapply keeps_bind; [apply keeps_lift; intros ? _; exact I | cbv beta; intros idx _].
  eapply keeps_bind;
    [apply keeps_lift; intros ch Hch; exact (index_Forall _ _ _ _ Hall Hch)
    | cbv beta; intros ch Hch].
  eapply keeps_bind; [apply keeps_load | cbv beta; intros d _].
  eapply keeps_bind; [apply keeps_append, Hch | cbv beta; intros ch' Hch'].
  apply keeps_lift. intros channels'. unfold Go.store.
  destruct ((0 <=? idx) && (idx <? Z.of_nat (length channels))); [| discriminate].
  intros [= <-]. apply spare_set_nth; assumption.
Qed.

Lemma keeps_mergeBody (st0 : store) (channels resampledData : list slice)
    (resampled : slice) (i : Z) (u : unit) :
  owned st0 resampled ->
  keeps st0 (mergeBody channels resampledData resampled i u) (fun _ => True).
Proof.
  intros Hres. unfold mergeBody.
  eapply keeps_bind; [apply keeps_this | cbv beta; intros r _].
  eapply keeps_bind; [apply keeps_lift; intros ? _; exact I | cbv beta; intros idx _].
  eapply keeps_bind; [apply keeps_lift; intros ? _; exact I | cbv beta; intros c _].
  eapply keeps_bind; [apply keeps_lift; intros ? _; exact I | cbv beta; intros rd _].
  cbv zeta.
  destruct (len rd =? 0); [apply keeps_ret; exact I |].
  eapply keeps_bind; [apply keeps_load | cbv beta; intros v _].
  apply keeps_store_at, Hres.
Qed.

Lemma keeps_ResampleFloat64 (growslice : nat -> nat) (st0 : store) (data : slice) :
  keeps st0 (ResampleFloat64 growslice data) (fun _ => True).
Proof.
  unfold ResampleFloat64.
  destruct (len data =? 0); [apply keeps_ret; exact I |].
  eapply keeps_bind; [apply keeps_this | cbv beta; intros r _].
  destruct (FromRate r =? ToRate r); [apply keeps_lift; trivial |].
  eapply keeps_bind.
  { apply keeps_lift with (Q := Forall (spare st0)).
    intros channels. unfold Go.make.
    destruct (Go.panicmakeslicelen Go.sizeof_slice (Channels r)); [discriminate |].
    intros [= <-]. apply Forall_forall. intros s Hs.
    apply repeat_spec in Hs. subst s. intros Hlt. simpl in Hlt. lia. }
  cbv beta; intros channels0 Hch0.
  eapply keeps_bind.
  { apply keeps_for_range with (I := Forall (spare st0)); [| exact Hch0].
    intros i s Hs. apply keeps_splitBody, Hs. }
  cbv beta; intros channels _.
  eapply keeps_bind; [apply keeps_this | cbv beta; intros r' _].
  eapply keeps_bind; [apply keeps_make | cbv beta; intros resampled Hres].
  eapply keeps_bind; [apply keeps_lift; intros ? _; exact I | cbv beta; intros rd0 _].
  eapply keeps_bind.
  { apply keeps_for_range with (I := fun _ => True); [| exact I].
    intros i s _. unfold resampleBody.
    eapply keeps_bind; [apply keeps_lift; intros ? _; exact I | cbv beta; intros ch _].
    eapply keeps_bind; [apply keeps_resampleChannelData | cbv beta; intros out _].
    apply keeps_lift; trivial. }
  cbv beta; intros rd _.
  eapply keeps_bind.
  { apply keeps_for_range with (I := fun _ => True); [| exact I].
    intros i s _. apply keeps_mergeBody, Hres. }
  cbv beta; intros _ _. apply keeps_ret. exact I.
Qed.

Lemma keeps_ResampleInt16 (growslice : nat -> nat) (st0 : store) (data : slice) :
  keeps st0 (ResampleInt16 growslice data) (fun _ => True).
Proof.
  unfold ResampleInt16.
  eapply keeps_bind; [apply keeps_make | cbv beta; intros f64data Hf].
  eapply keeps_bind.
  { apply keeps_for_range with (I := fun _ => True); [| exact I].
    intros i s _.
    eapply keeps_bind; [apply keeps_load16 | cbv beta; intros d _].
    apply keeps_store_at, Hf. }
  cbv beta; intros _ _.
  eapply keeps_bind; [apply keeps_ResampleFloat64 | cbv beta; intros resampledf64 _].
  eapply keeps_bind; [apply keeps_make16 | cbv beta; intros resampledi16 Hi].
  eapply keeps_bind.
  { apply keeps_for_range with (I := fun _ => True); [| exact I].
    intros i s _.
    eapply keeps_bind; [apply keeps_load | cbv beta; intros v _].
    apply keeps_store16_at, Hi. }
  cbv beta; intros _ _. apply keeps_ret. exact I.
Qed.

Lemma extends_contents (st0 st : store) (s : slice) :
  extends st0 st -> (base s < length (floats st0))%nat ->
  contents st s = contents st0 s.
Proof.
  intros (_ & (fs & Hfs) & _) Hb. unfold contents.
  rewrite Hfs, app_nth1 by exact Hb. reflexivity.
Qed.

Lemma extends_contents16 (st0 st : store) (s : slice) :
  extends st0 st -> (base s < length (ints st0))%nat ->
  contents16 st s = contents16 st0 s.
Proof.
  intros (_ & _ & (zs & Hzs)) Hb. unfold contents16.
  rewrite Hzs, app_nth1 by exact Hb. reflexivity.
Qed.

End MemFacts.

(** C10 (frame effect). Neither [ResampleFloat64] nor [ResampleInt16]
    modifies the input buffer or a field of the receiver: whether the call
    returns or panics, the receiver is the one of before the call, and
    every slice that points into an array the store had before the call,
    of float64 or of int16, shows after it the elements it showed before;
    the input buffer is such a slice. *)
Theorem Resample_frame (growslice : nat -> nat) (st : Mem.store) (data : Mem.slice) :
  let after64 := snd (Mem.ResampleFloat64 growslice data st) in
  let after16 := snd (Mem.ResampleInt16 growslice data st) in
  (Mem.receiver after64 = Mem.receiver st
   /\ (forall s, (Mem.base s < length (Mem.floats st))%nat ->
              Mem.contents after64 s = Mem.contents st s)
   /\ (forall s, (Mem.base s < length (Mem.ints st))%nat ->
              Mem.contents16 after64 s = Mem.contents16 st s))
  /\ (Mem.receiver after16 = Mem.receiver st
      /\ (forall s, (Mem.base s < length (Mem.floats st))%nat ->
                 Mem.contents after16 s = Mem.contents st s)
      /\ (forall s, (Mem.base s < length (Mem.ints st))%nat ->
                 Mem.contents16 after16 s = Mem.contents16 st s)).
Proof.
  intros after64 after16.
  assert (H64 : Mem.extends st after64)
    by apply (MemFacts.keeps_ResampleFloat64 growslice st data st (MemFacts.extends_refl st)).
  assert (H16 : Mem.extends st after16)
    by apply (MemFacts.keeps_ResampleInt16 growslice st data st (MemFacts.extends_refl st)).
  split; (split; [| split]).
  - apply H64.
  - intros s Hs. apply MemFacts.extends_contents; assumption.
  - intros s Hs. apply MemFacts.extends_contents16; assumption.
  - apply H16.
  - intros s Hs. apply MemFacts.extends_contents; assumption.
  - intros s Hs. apply MemFacts.extends_contents16; assumption.
Qed.

Lemma Resample_frame_witness :
  let grow := fun c : nat => (2 * c + 1)%nat in
  let st := {| Mem.floats := [iota20]; Mem.ints := [[0; 16384; -16384]];
               Mem.receiver := mono 1 2 |} in
  let data := {| Mem.base := 0; Mem.off := 0; Mem.slen := 20; Mem.scap := 20 |} in
  let pcm := {| Mem.base := 0; Mem.off := 0; Mem.slen := 3; Mem.scap := 3 |} in
  (Mem.contents (snd (Mem.ResampleFloat64 grow data st)) data = iota20
   /\ Mem.receiver (snd (Mem.ResampleFloat64 grow data st)) = mono 1 2)
  /\ (Mem.contents16 (snd (Mem.ResampleInt16 grow pcm st)) pcm = [0; 16384; -16384]
      /\ Mem.receiver (snd (Mem.ResampleInt16 grow pcm st)) = mono 1 2).
Proof.
  intros grow st data pcm. split.
  - destruct (Resample_frame grow st data) as [(Hr & Hf & _) _].
    split; [| exact Hr]. rewrite Hf; [reflexivity | simpl; lia].
  - destruct (Resample_frame grow st pcm) as [_ (Hr & _ & Hz)].
    split; [| exact Hr]. rewrite Hz; [reflexivity | simpl; lia].
Defined.

(** ** The store and the lists of samples *)

Module Refine.

Lemma skipn_set_nth {T : Type} (l : list T) (k i : nat) (v : T) :
  skipn k (Go.set_nth l (k + i) v) = Go.set_nth (skipn k l) i v.
Proof.
  revert l. induction k as [| k IH]; intros l; simpl; [reflexivity |].
  destruct l as [| a l]; simpl; [destruct i; reflexivity | apply IH].
Qed.

Lemma firstn_set_nth {T : Type} (l : list T) (n i : nat) (v : T) :
  firstn n (Go.set_nth l i v) = Go.set_nth (firstn n l) i v.
Proof.
  revert n i. induction l as [| a l IH]; intros n i; simpl.
  - rewrite firstn_nil. reflexivity.
  - destruct n as [| n]; destruct i as [| i]; simpl; try reflexivity.
    f_equal. apply IH.
Qed.

Lemma firstn_S_set_nth {T : Type} (l : list T) (n : nat) (v : T) :
  (n < length l)%nat -> firstn (S n) (Go.set_nth l n v) = firstn n l ++ [v].
Proof.
  revert n. induction l as [| a l IH]; intros n Hn; simpl in *; [lia |].
  destruct n as [| n]; simpl; [reflexivity |].
  f_equal. apply IH. lia.
Qed.

Lemma nth_update_same {T : Type} (l : list T) (b : nat) (f : T -> T) (d : T) :
  (b < length l)%nat -> nth b (Mem.update l b f) d = f (nth b l d).
Proof.
  revert b. induction l as [| a l IH]; intros b Hb; simpl in *; [lia |].
  destruct b as [| b]; simpl; [reflexivity | apply IH; lia].
Qed.

Lemma nth_update_other {T : Type} (l : list T) (b b' : nat) (f : T -> T) (d : T) :
  b <> b' -> nth b (Mem.update l b' f) d = nth b l d.
Proof.
  revert b b'. induction l as [| a l IH]; intros b b' Hb; simpl; [reflexivity |].
  destruct b' as [| b']; destruct b as [| b]; simpl; try reflexivity; try congruence.
  apply IH. congruence.
Qed.

Lemma length_update {T : Type} (l : list T) (b : nat) (f : T -> T) :
  length (Mem.update l b f) = length l.
Proof.
  revert b. induction l as [| a l IH]; intros b; simpl; [reflexivity |].
  destruct b; simpl; [reflexivity | now rewrite IH].
Qed.

Lemma window_length {T : Type} (s : Mem.slice) (arr : list T) :
  (Mem.off s + Mem.slen s <= length arr)%nat -> length (Mem.window s arr) = Mem.slen s.
Proof.
  intros H. unfold Mem.window. rewrite length_firstn, length_skipn. lia.
Qed.

Lemma window_empty {T : Type} (s : Mem.slice) (arr : list T) :
  Mem.slen s = 0%nat -> Mem.window s arr = [].
Proof. intros H. unfold Mem.window. rewrite H. reflexivity. Qed.

Lemma contents_length (st : Mem.store) (s : Mem.slice) :
  Mem.fits st s -> length (Mem.contents st s) = Mem.slen s.
Proof.
  intros [Hle Hin]. unfold Mem.contents.
  destruct (Nat.eq_dec (Mem.slen s) 0) as [H0 | H0].
  - rewrite window_empty by exact H0. simpl. lia.
  - apply window_length. destruct Hin as [_ Hin]; lia.
Qed.

Lemma len_contents (st : Mem.store) (s : Mem.slice) :
  Mem.fits st s -> len (Mem.contents st s) = Mem.len s.
Proof. intros H. unfold len, Mem.len. now rewrite contents_length. Qed.

(** A slice whose array is untouched shows what it showed. *)
Lemma fits_same_block (st st' : Mem.store) (s : Mem.slice) :
  Mem.fits st s ->
  ((0 < Mem.scap s)%nat ->
   nth (Mem.base s) (Mem.floats st') [] = nth (Mem.base s) (Mem.floats st) []
   /\ (length (Mem.floats st) <= length (Mem.floats st'))%nat) ->
  Mem.fits st' s /\ Mem.contents st' s = Mem.contents st s.
Proof.
  intros [Hle Hin] Hsame.
  destruct (Nat.eq_dec (Mem.scap s) 0) as [H0 | H0].
  - split.
    + split; [exact Hle | lia].
    + unfold Mem.contents. rewrite !window_empty by lia. reflexivity.
  - destruct Hsame as [Hnth Hlen]; [lia |]. destruct Hin as [Hb Hoff]; [lia |].
    split.
    + split; [exact Hle |]. intros _. rewrite Hnth. split; [lia | exact Hoff].
    + unfold Mem.contents. now rewrite Hnth.
Qed.

Lemma extends_nth (st0 st : Mem.store) (b : nat) :
  Mem.extends st0 st -> (b < length (Mem.floats st0))%nat ->
  nth b (Mem.floats st) [] = nth b (Mem.floats st0) []
  /\ (length (Mem.floats st0) <= length (Mem.floats st))%nat.
Proof.
  intros (_ & (fs & Hfs) & _) Hb. rewrite Hfs, length_app.
  split; [apply app_nth1, Hb | lia].
Qed.

Lemma extends_fits (st0 st : Mem.store) (s : Mem.slice) :
  Mem.extends st0 st -> Mem.fits st0 s -> Mem.fits st s /\ Mem.contents st s = Mem.contents st0 s.
Proof.
  intros Hext Hfit. apply fits_same_block; [exact Hfit |].
  intros Hcap. apply (extends_nth _ _ _ Hext). apply Hfit, Hcap.
Qed.

Lemma extends_trans (st0 st1 st2 : Mem.store) :
  Mem.extends st0 st1 -> Mem.extends st1 st2 -> Mem.extends st0 st2.
Proof.
  intros (Hr1 & (fs1 & Hf1) & (zs1 & Hz1)) (Hr2 & (fs2 & Hf2) & (zs2 & Hz2)).
  split; [congruence |].
  split; [exists (fs1 ++ fs2) | exists (zs1 ++ zs2)]; rewrite app_assoc; congruence.
Qed.

(** *** The steps *)

Lemma load_eq (s : Mem.slice) (i : Z) (st : Mem.store) :
  Mem.load s i st = (Go.index (Mem.contents st s) i, st).
Proof. reflexivity. Qed.

Lemma reslice_contents (st : Mem.store) (s : Mem.slice) (lo hi : Z) (w : list float) :
  Mem.fits st s -> Go.slice (Mem.contents st s) lo hi = Some w ->
  exists s', Mem.reslice s lo hi = Some s'
             /\ Mem.contents st s' = w /\ Mem.fits st s' /\ Mem.base s' = Mem.base s.
Proof.
  intros Hfit Hw. apply GoFacts.slice_inv in Hw. destruct Hw as (Hlo & Hhi & ->).
  rewrite (len_contents _ _ Hfit) in Hhi. unfold Mem.len in Hhi.
  destruct Hfit as [Hle Hin].
  unfold Mem.reslice.
  destruct (Z.leb_spec 0 lo); [| lia]. destruct (Z.leb_spec lo hi); [| lia].
  destruct (Z.leb_spec hi (Z.of_nat (Mem.scap s))); [| lia]. simpl.
  eexists. split; [reflexivity |]. split; [| split; [| reflexivity]].
  - unfold Mem.contents, Mem.window. simpl.
    rewrite skipn_firstn_comm, firstn_firstn, skipn_skipn.
    rewrite (Nat.add_comm (Z.to_nat lo)), Nat.min_l by lia. reflexivity.
  - split; simpl; [lia |]. intros Hcap.
    destruct Hin as [Hb Hoff]; [lia |]. split; [exact Hb | lia].
Qed.

Lemma bind_load {A : Type} (s : Mem.slice) (i : Z) (k : float -> Mem.M A) (st : Mem.store) :
  Mem.bind (Mem.load s i) k st
  = match Go.index (Mem.contents st s) i with
    | Some a => k a st
    | None => (None, st)
    end.
Proof. unfold Mem.bind, Mem.load, Mem.lift. destruct (Go.index (Mem.contents st s) i); reflexivity. Qed.

Lemma splineC1_eq (yi : Mem.slice) (st : Mem.store) :
  Mem.splineC1 yi st = (splineC1 (Mem.contents st yi), st).
Proof.
  unfold Mem.splineC1, splineC1, Go.bind.
  repeat (rewrite bind_load;
          match goal with
          | |- context [Go.index ?c ?i] => destruct (Go.index c i); [| reflexivity]
          end).
  reflexivity.
Qed.

Lemma splineC2_eq (yi : Mem.slice) (st : Mem.store) :
  Mem.splineC2 yi st = (splineC2 (Mem.contents st yi), st).
Proof.
  unfold Mem.splineC2, splineC2, Go.bind.
  repeat (rewrite bind_load;
          match goal with
          | |- context [Go.index ?c ?i] => destruct (Go.index c i); [| reflexivity]
          end).
  reflexivity.
Qed.

Lemma spline_eq (xi : float) (yi : Mem.slice) (xo : float) (st : Mem.store) :
  Mem.spline xi yi xo st = (spline xi (Mem.contents st yi) xo, st).
Proof.
  unfold Mem.spline, spline, Go.bind.
  repeat (rewrite bind_load;
          match goal with
          | |- context [Go.index ?c ?i] => destruct (Go.index c i); [| reflexivity]
          end).
  unfold Mem.bind. rewrite splineC1_eq.
  destruct (splineC1 (Mem.contents st yi)) as [c1 |]; [| reflexivity].
  rewrite splineC2_eq.
  destruct (splineC2 (Mem.contents st yi)) as [c2 |]; [| reflexivity].
  cbv zeta.
  destruct (PrimFloat.leb xo (xi + 1)); [reflexivity |].
  destruct (PrimFloat.leb xo (xi + 2)); reflexivity.
Qed.

Lemma update_last {T : Type} (l : list T) (a : T) (f : T -> T) :
  Mem.update (l ++ [a]) (length l) f = l ++ [f a].
Proof. induction l as [| b l IH]; simpl; [reflexivity | now rewrite IH]. Qed.

Lemma nth_last {T : Type} (l : list T) (a d : T) : nth (length l) (l ++ [a]) d = a.
Proof. rewrite app_nth2, Nat.sub_diag by lia. reflexivity. Qed.

Lemma extends_alloc (st : Mem.store) (blk : list float) :
  Mem.extends st (Mem.set_floats st (Mem.floats st ++ [blk])).
Proof.
  split; [reflexivity |]. split; [exists [blk]; reflexivity |].
  exists []. simpl. symmetry. apply app_nil_r.
Qed.

(** The per-channel loop, on an output that is the last array of the
    store. *)
Lemma resampleLoop_refines (st : Mem.store) (data : Mem.slice) (avail step : float) :
  Mem.fits st data ->
  forall (fuel : nat) (x : float) (i : Z) (outp res : list float),
    resampleLoop fuel (Mem.contents st data) avail step x i outp = Some res ->
    exists blk,
      Mem.resampleLoop fuel data avail step x i
        {| Mem.base := length (Mem.floats st); Mem.off := 0;
           Mem.slen := length outp; Mem.scap := length outp |}
        (Mem.set_floats st (Mem.floats st ++ [outp]))
      = (Some {| Mem.base := length (Mem.floats st); Mem.off := 0;
                 Mem.slen := length res; Mem.scap := length outp |},
         Mem.set_floats st (Mem.floats st ++ [blk]))
      /\ length blk = length outp
      /\ firstn (length res) blk = res
      /\ (length res <= length outp)%nat.
Proof.
  intros Hfit. induction fuel as [| fuel IH]; intros x i outp res Hres.
  - simpl in *. destruct (PrimFloat.ltb x avail); [discriminate |].
    apply GoFacts.slice_inv in Hres. destruct Hres as (Hlo & Hhi & ->).
    unfold len in Hhi.
    exists outp. unfold Mem.lift, Mem.reslice. cbn [Mem.scap Mem.base Mem.off Mem.slen].
    destruct (Z.leb_spec 0 i); [| lia].
    destruct (Z.leb_spec i (Z.of_nat (length outp))); [| lia]. simpl.
    rewrite Z.sub_0_r, Nat.sub_0_r, length_firstn, Nat.min_l by lia.
    repeat split; lia.
  - simpl in *. destruct (PrimFloat.ltb x avail).
    + destruct (resampleAt (Mem.contents st data) x) as [v |] eqn:Hv; simpl in Hres;
        [| discriminate].
      destruct (Go.store outp i v) as [outp' |] eqn:Hst; simpl in Hres; [| discriminate].
      apply GoFacts.store_inv in Hst. destruct Hst as (Hi & -> & Hlen).
      unfold len in Hi.
      unfold resampleAt, rawSample in Hv.
      destruct (Go.slice (Mem.contents st data) _ _) as [w |] eqn:Hw; simpl in Hv;
        [| discriminate].
      destruct (spline _ w x) as [yo |] eqn:Hyo; simpl in Hv; [| discriminate].
      injection Hv as <-.
      destruct (reslice_contents _ _ _ _ _ Hfit Hw) as (yi & Hyi & Hc & Hfyi & _).
      destruct (extends_fits _ _ yi (extends_alloc st outp) Hfyi) as [_ Hc1].
      destruct (IH _ _ _ _ Hres) as (blk & Hrun & Hblk & Hfirst & Hle).
      rewrite GoFacts.set_nth_length in *.
      exists blk. split; [| repeat split; assumption].
      rewrite <- Hrun.
      unfold Mem.bind at 1, Mem.resamplePass. unfold Mem.bind at 1.
      unfold Mem.lift at 1. rewrite Hyi.
      unfold Mem.bind at 1. rewrite spline_eq, Hc1, Hc, Hyo.
      unfold Mem.store_at, Mem.len. cbn [Mem.slen Mem.base Mem.off Mem.floats Mem.set_floats].
      destruct (Z.leb_spec 0 i); [| lia].
      destruct (Z.ltb_spec i (Z.of_nat (length outp))); [| lia].
      cbn [andb]. rewrite update_last. reflexivity.
    + apply GoFacts.slice_inv in Hres. destruct Hres as (Hlo & Hhi & ->).
      unfold len in Hhi.
      exists outp. unfold Mem.lift, Mem.reslice. cbn [Mem.scap Mem.base Mem.off Mem.slen].
      destruct (Z.leb_spec 0 i); [| lia].
      destruct (Z.leb_spec i (Z.of_nat (length outp))); [| lia]. simpl.
      rewrite Z.sub_0_r, Nat.sub_0_r, length_firstn, Nat.min_l by lia.
      repeat split; lia.
Qed.

Lemma contents_last (st : Mem.store) (blk : list float) (n c : nat) :
  (n <= length blk)%nat ->
  Mem.contents (Mem.set_floats st (Mem.floats st ++ [blk]))
    {| Mem.base := length (Mem.floats st); Mem.off := 0; Mem.slen := n; Mem.scap := c |}
  = firstn n blk.
Proof. intros Hn. unfold Mem.contents, Mem.window. simpl. now rewrite nth_last. Qed.

Lemma fits_last (st : Mem.store) (blk : list float) (n c : nat) :
  (n <= c)%nat -> (c <= length blk)%nat ->
  Mem.fits (Mem.set_floats st (Mem.floats st ++ [blk]))
    {| Mem.base := length (Mem.floats st); Mem.off := 0; Mem.slen := n; Mem.scap := c |}.
Proof.
  intros Hn Hc. split; simpl; [exact Hn |]. intros _.
  rewrite length_app, nth_last. simpl. lia.
Qed.

Lemma resampleChannelData_refines (st : Mem.store) (data : Mem.slice) (out : list float) :
  Mem.fits st data ->
  resampleChannelData (Mem.receiver st) (Mem.contents st data) = Some out ->
  exists s blk,
    Mem.resampleChannelData data st = (Some s, Mem.set_floats st (Mem.floats st ++ [blk]))
    /\ Mem.contents (Mem.set_floats st (Mem.floats st ++ [blk])) s = out
    /\ Mem.fits (Mem.set_floats st (Mem.floats st ++ [blk])) s
    /\ Mem.base s = length (Mem.floats st).
Proof.
  intros Hfit Hout. unfold resampleChannelData in Hout.
  unfold Mem.resampleChannelData.
  fold (len (Mem.contents st data)) in Hout.
  rewrite (len_contents _ _ Hfit) in Hout.
  destruct (Mem.len data <=? 16).
  - pose proof (GoFacts.make_check _ _ _ _ Hout) as Hchk.
    apply GoFacts.make_inv in Hout. destruct Hout as (Hn & -> & _).
    unfold Mem.make. rewrite Hchk.
    eexists. eexists. split; [reflexivity |].
    split; [| split; [| reflexivity]].
    + rewrite contents_last by (rewrite repeat_length; lia).
      rewrite <- (repeat_length 0%float (Z.to_nat (Mem.len data))) at 1.
      apply firstn_all.
    + apply fits_last; rewrite ?repeat_length; lia.
  - destruct (Go.make _ 0%float _) as [outp |] eqn:Hmk; cbn [Go.bind] in Hout;
      [| discriminate].
    pose proof (GoFacts.make_check _ _ _ _ Hmk) as Hchk.
    apply GoFacts.make_inv in Hmk. destruct Hmk as (Hn & -> & _).
    fold (capacity (Mem.receiver st) (Mem.len data - 16)) in Hn, Hout, Hchk.
    destruct (resampleLoop_refines st data _ _ Hfit _ _ _ _ _ Hout)
      as (blk & Hrun & Hblk & Hfirst & Hle).
    rewrite repeat_length in *.
    exists {| Mem.base := length (Mem.floats st); Mem.off := 0; Mem.slen := length out;
              Mem.scap := Z.to_nat (capacity (Mem.receiver st) (Mem.len data - 16)) |}.
    exists blk. split; [| split; [| split; [| reflexivity]]].
    + unfold Mem.bind at 1, Mem.this. unfold Mem.bind at 1, Mem.make.
      fold (capacity (Mem.receiver st) (Mem.len data - 16)).
      rewrite Hchk.
      cbn [Mem.slen]. exact Hrun.
    + rewrite contents_last by lia. exact Hfirst.
    + apply fits_last; lia.
Qed.

(** *** Counted loops *)

Lemma for_range_refines {S T : Type} (I : Mem.store -> S -> T -> Prop)
    (bm : Z -> S -> Mem.M S) (bp : Z -> T -> Go.panics T) :
  (forall i st sm sp sp',
      I st sm sp -> bp i sp = Some sp' ->
      exists sm' st', bm i sm st = (Some sm', st') /\ I st' sm' sp') ->
  forall n i st sm sp sp',
    I st sm sp -> for_range n i bp sp = Some sp' ->
    exists sm' st', Mem.for_range n i bm sm st = (Some sm', st') /\ I st' sm' sp'.
Proof.
  intros Hbody. induction n as [| n IH]; intros i st sm sp sp' HI Hrun; simpl in *.
  - injection Hrun as <-. exists sm, st. split; [reflexivity | exact HI].
  - destruct (bp i sp) as [sp1 |] eqn:Hbp; simpl in Hrun; [| discriminate].
    destruct (Hbody _ _ _ _ _ HI Hbp) as (sm1 & st1 & Hbm & HI1).
    destruct (IH _ _ _ _ _ HI1 Hrun) as (sm' & st' & Hrest & HI').
    exists sm', st'. split; [| exact HI'].
    unfold Mem.bind. rewrite Hbm. exact Hrest.
Qed.

(** *** Split channels *)

Lemma nth_error_both {A B : Type} (l1 : list A) (l2 : list B) (j : nat) (a : A) :
  length l1 = length l2 -> nth_error l1 j = Some a -> exists b, nth_error l2 j = Some b.
Proof.
  intros Hlen Ha.
  assert (Hj : (j < length l1)%nat) by (apply nth_error_Some; congruence).
  destruct (nth_error l2 j) as [b |] eqn:Hb; [exists b; reflexivity |].
  apply nth_error_None in Hb. lia.
Qed.

Lemma append_refines (growslice : nat -> nat) (st : Mem.store) (h : Mem.slice) (v : float) :
  (forall c, (c < growslice c)%nat) -> Mem.fits st h ->
  exists h' st',
    Mem.append growslice h v st = (Some h', st')
    /\ Mem.contents st' h' = Mem.contents st h ++ [v]
    /\ Mem.fits st' h'
    /\ (0 < Mem.scap h')%nat
    /\ (length (Mem.floats st) <= length (Mem.floats st'))%nat
    /\ ((Mem.base h' = Mem.base h /\ (0 < Mem.scap h)%nat
         /\ forall b, b <> Mem.base h -> nth b (Mem.floats st') [] = nth b (Mem.floats st) [])
        \/ (Mem.base h' = length (Mem.floats st)
            /\ forall b, (b < length (Mem.floats st))%nat ->
                         nth b (Mem.floats st') [] = nth b (Mem.floats st) [])).
Proof.
  intros Hgrow Hfit. pose proof (contents_length _ _ Hfit) as Hlen.
  destruct Hfit as [Hle Hin]. unfold Mem.append.
  destruct (Nat.ltb_spec (Mem.slen h) (Mem.scap h)) as [Hlt | Hge].
  - destruct Hin as [Hb Hoff]; [lia |].
    eexists. eexists. split; [reflexivity |].
    split; [| split; [| split; [| split]]]; cbn [Mem.scap Mem.base Mem.off Mem.slen Mem.floats Mem.set_floats].
    + unfold Mem.contents, Mem.window. cbn [Mem.scap Mem.base Mem.off Mem.slen Mem.floats Mem.set_floats].
      rewrite nth_update_same by exact Hb.
      rewrite skipn_set_nth. apply firstn_S_set_nth.
      rewrite length_skipn. lia.
    + split; cbn [Mem.scap Mem.base Mem.off Mem.slen Mem.floats Mem.set_floats]; [lia |]. intros _.
      rewrite length_update, nth_update_same by exact Hb.
      rewrite GoFacts.set_nth_length. split; [exact Hb | exact Hoff].
    + lia.
    + rewrite length_update. lia.
    + left. split; [reflexivity |]. split; [lia |].
      intros b Hne. apply nth_update_other, Hne.
  - assert (Heq : Mem.slen h = Mem.scap h) by lia.
    specialize (Hgrow (Mem.scap h)).
    eexists. eexists. split; [reflexivity |].
    split; [| split; [| split; [| split]]]; cbn [Mem.scap Mem.base Mem.off Mem.slen Mem.floats Mem.set_floats].
    + unfold Mem.contents at 1, Mem.window. cbn [Mem.scap Mem.base Mem.off Mem.slen Mem.floats Mem.set_floats].
      rewrite nth_last. cbn [skipn].
      rewrite <- Hlen at 1.
      replace (S (length (Mem.contents st h))) with (length (Mem.contents st h) + 1)%nat by lia.
      rewrite firstn_app_2. reflexivity.
    + split; cbn [Mem.scap Mem.base Mem.off Mem.slen Mem.floats Mem.set_floats]; [lia |]. intros _.
      rewrite nth_last, !length_app. cbn [length]. rewrite repeat_length, Hlen. lia.
    + lia.
    + rewrite length_app. lia.
    + right. split; [reflexivity |].
      intros b Hb. apply app_nth1, Hb.
Qed.

Lemma splitBody_refines (growslice : nat -> nat) (st0 : Mem.store) (data : Mem.slice) (i : Z)
    (st : Mem.store) (chs : list Mem.slice) (chp chp' : list (list float)) :
  (forall c, (c < growslice c)%nat) -> Mem.fits st0 data ->
  Mem.split_inv st0 st chs chp ->
  splitBody (Mem.receiver st0) (Mem.contents st0 data) i chp = Some chp' ->
  exists chs' st',
    Mem.splitBody growslice data i chs st = (Some chs', st') /\ Mem.split_inv st0 st' chs' chp'.
Proof.
  intros Hgrow Hdata (Hext & Hlen & Hsep & Hrel) Hp.
  unfold splitBody in Hp.
  destruct (Go.rem i (Channels (Mem.receiver st0))) as [idx |] eqn:Hidx; simpl in Hp;
    [| discriminate].
  destruct (Go.index chp idx) as [l |] eqn:Hl; simpl in Hp; [| discriminate].
  destruct (Go.index (Mem.contents st0 data) i) as [d |] eqn:Hd; simpl in Hp; [| discriminate].
  apply GoFacts.store_inv in Hp. destruct Hp as (Hrange & -> & _).
  apply GoFacts.index_inv in Hl. destruct Hl as [_ Hl].
  unfold len in Hrange.
  destruct (nth_error chs (Z.to_nat idx)) as [h |] eqn:Hh;
    [| apply nth_error_None in Hh; lia].
  destruct (Hrel _ _ _ Hh Hl) as (Hc & Hfit & Hspare).
  destruct (append_refines growslice st h d Hgrow Hfit)
    as (h' & st' & Happ & Hc' & Hfit' & Hcap' & Hgrowth & Hwhere).
  destruct (MemFacts.keeps_append growslice st0 h d Hspare st Hext) as [Hext' Hspare'].
  rewrite Happ in Hext', Hspare'. cbn [fst snd] in Hext', Hspare'.
  specialize (Hspare' h' eq_refl).
  exists (Go.set_nth chs (Z.to_nat idx) h'), st'. split.
  - unfold Mem.splitBody. unfold Mem.bind at 1, Mem.this.
    rewrite (proj1 Hext), Hidx.
    unfold Mem.bind at 1, Mem.lift at 1.
    unfold Mem.bind at 1, Mem.lift at 1.
    rewrite GoFacts.index_ok by (unfold len; lia). rewrite Hh.
    rewrite bind_load.
    destruct (extends_fits _ _ _ Hext Hdata) as [_ ->]. rewrite Hd.
    unfold Mem.bind. rewrite Happ. unfold Mem.lift.
    rewrite GoFacts.store_ok by (unfold len; lia). reflexivity.
  - split; [exact Hext' |]. split; [now rewrite !GoFacts.set_nth_length |].
    assert (Hother : forall j h2, j <> Z.to_nat idx -> nth_error chs j = Some h2 ->
              Mem.fits st h2 -> (0 < Mem.scap h2)%nat ->
              Mem.base h' <> Mem.base h2
              /\ nth (Mem.base h2) (Mem.floats st') [] = nth (Mem.base h2) (Mem.floats st) []).
    { intros j h2 Hj Hh2 Hfit2 Hcap2.
      destruct Hfit2 as [_ Hin2]. destruct (Hin2 Hcap2) as [Hb2 _].
      destruct Hwhere as [(Hb & Hcap & Hsame) | (Hb & Hsame)].
      - assert (Hne : Mem.base h2 <> Mem.base h) by (apply (Hsep j (Z.to_nat idx)); assumption).
        split; [congruence | apply Hsame, Hne].
      - split; [lia | apply Hsame, Hb2]. }
    split.
    + intros j1 j2 h1 h2 Hne H1 H2 Hcap1 Hcap2.
      destruct (Nat.eq_dec j1 (Z.to_nat idx)) as [-> | Hj1];
        destruct (Nat.eq_dec j2 (Z.to_nat idx)) as [-> | Hj2]; [congruence | | |].
      * rewrite GoFacts.nth_error_set_nth_same in H1 by lia. injection H1 as <-.
        rewrite GoFacts.nth_error_set_nth_other in H2 by congruence.
        destruct (nth_error_both _ chp _ _ Hlen H2) as [l2 Hl2].
        apply (Hother j2 h2 Hj2 H2); [apply (Hrel _ _ _ H2 Hl2) | exact Hcap2].
      * rewrite GoFacts.nth_error_set_nth_same in H2 by lia. injection H2 as <-.
        rewrite GoFacts.nth_error_set_nth_other in H1 by congruence.
        destruct (nth_error_both _ chp _ _ Hlen H1) as [l1 Hl1].
        apply not_eq_sym.
        apply (Hother j1 h1 Hj1 H1); [apply (Hrel _ _ _ H1 Hl1) | exact Hcap1].
      * rewrite GoFacts.nth_error_set_nth_other in H1, H2 by congruence.
        apply (Hsep j1 j2); assumption.
    + intros j h2 l2 H2 Hl2.
      destruct (Nat.eq_dec j (Z.to_nat idx)) as [-> | Hj].
      * rewrite GoFacts.nth_error_set_nth_same in H2 by lia.
        rewrite GoFacts.nth_error_set_nth_same in Hl2 by lia.
        injection H2 as <-. injection Hl2 as <-.
        split; [congruence |]. split; assumption.
      * rewrite GoFacts.nth_error_set_nth_other in H2 by congruence.
        rewrite GoFacts.nth_error_set_nth_other in Hl2 by congruence.
        destruct (Hrel _ _ _ H2 Hl2) as (Hc2 & Hfit2 & Hspare2).
        destruct (fits_same_block st st' h2 Hfit2) as [Hf Hcs].
        { intros Hcap2. split; [apply (Hother j h2 Hj H2 Hfit2 Hcap2) | exact Hgrowth]. }
        split; [congruence |]. split; assumption.
Qed.

(** *** Resample channels *)

Lemma shows_extends (st st' : Mem.store) (hs : list Mem.slice) (ls : list (list float)) :
  Mem.extends st st' -> Mem.shows st hs ls -> Mem.shows st' hs ls.
Proof.
  intros Hext [Hlen Hrel]. split; [exact Hlen |].
  intros j h l Hh Hl. destruct (Hrel _ _ _ Hh Hl) as [Hc Hfit].
  destruct (extends_fits _ _ _ Hext Hfit) as [Hfit' Hc'].
  split; [congruence | exact Hfit'].
Qed.

Lemma shows_index (st : Mem.store) (hs : list Mem.slice) (ls : list (list float)) (c : Z)
    (l : list float) :
  Mem.shows st hs ls -> Go.index ls c = Some l ->
  exists h, Go.index hs c = Some h /\ Mem.contents st h = l /\ Mem.fits st h.
Proof.
  intros [Hlen Hrel] Hl. apply GoFacts.index_inv in Hl. destruct Hl as [Hc Hl].
  unfold len in Hc.
  destruct (nth_error hs (Z.to_nat c)) as [h |] eqn:Hh;
    [| apply nth_error_None in Hh; lia].
  exists h. split; [| apply (Hrel _ _ _ Hh Hl)].
  rewrite GoFacts.index_ok by (unfold len; lia). exact Hh.
Qed.

Lemma shows_store (st : Mem.store) (hs : list Mem.slice) (ls : list (list float)) (n : nat)
    (h : Mem.slice) (l : list float) :
  Mem.shows st hs ls -> Mem.contents st h = l -> Mem.fits st h ->
  Mem.shows st (Go.set_nth hs n h) (Go.set_nth ls n l).
Proof.
  intros [Hlen Hrel] Hc Hfit. split; [now rewrite !GoFacts.set_nth_length |].
  intros j h2 l2 H2 Hl2.
  destruct (Nat.eq_dec n j) as [-> | Hj].
  - assert (Hj : (j < length hs)%nat).
    { rewrite <- (GoFacts.set_nth_length hs j h). apply nth_error_Some. congruence. }
    rewrite GoFacts.nth_error_set_nth_same in H2 by lia.
    rewrite GoFacts.nth_error_set_nth_same in Hl2 by lia.
    injection H2 as <-. injection Hl2 as <-. split; assumption.
  - rewrite GoFacts.nth_error_set_nth_other in H2 by exact Hj.
    rewrite GoFacts.nth_error_set_nth_other in Hl2 by exact Hj.
    apply (Hrel _ _ _ H2 Hl2).
Qed.

Lemma from_address_store (n : nat) (hs : list Mem.slice) (k : nat) (h : Mem.slice) :
  Mem.from_address n hs -> (n <= Mem.base h)%nat -> Mem.from_address n (Go.set_nth hs k h).
Proof.
  intros Hfrom Hb j h2 H2 Hcap.
  destruct (Nat.eq_dec k j) as [-> | Hj].
  - assert (Hj : (j < length hs)%nat).
    { rewrite <- (GoFacts.set_nth_length hs j h). apply nth_error_Some. congruence. }
    rewrite GoFacts.nth_error_set_nth_same in H2 by lia.
    injection H2 as <-. exact Hb.
  - rewrite GoFacts.nth_error_set_nth_other in H2 by exact Hj.
    apply (Hfrom _ _ H2 Hcap).
Qed.

Lemma shows_nil (st : Mem.store) (n : nat) : Mem.shows st (repeat Mem.nil n) (repeat [] n).
Proof.
  split; [now rewrite !repeat_length |].
  intros j h l Hh Hl.
  apply nth_error_In, repeat_spec in Hh. apply nth_error_In, repeat_spec in Hl.
  subst h l. split; [reflexivity |].
  split; simpl; [lia | intros H; inversion H].
Qed.

Lemma resampleBody_refines (st1 : Mem.store) (chs : list Mem.slice) (chp : list (list float))
    (c : Z) (st : Mem.store) (rdm : list Mem.slice) (rdp rdp' : list (list float)) :
  Mem.shows st1 chs chp ->
  Mem.extends st1 st /\ Mem.shows st rdm rdp /\ Mem.from_address (length (Mem.floats st1)) rdm ->
  resampleBody (Mem.receiver st1) chp c rdp = Some rdp' ->
  exists rdm' st',
    Mem.resampleBody chs c rdm st = (Some rdm', st')
    /\ (Mem.extends st1 st' /\ Mem.shows st' rdm' rdp'
        /\ Mem.from_address (length (Mem.floats st1)) rdm').
Proof.
  intros Hch (Hext & Hrd & Hfrom) Hp. unfold resampleBody in Hp.
  destruct (Go.index chp c) as [l |] eqn:Hl; simpl in Hp; [| discriminate].
  destruct (resampleChannelData (Mem.receiver st1) l) as [out |] eqn:Hout;
    simpl in Hp; [| discriminate].
  apply GoFacts.store_inv in Hp. destruct Hp as (Hrange & -> & _).
  destruct (shows_index _ _ _ _ _ (shows_extends _ _ _ _ Hext Hch) Hl)
    as (h & Hh & Hc & Hfit).
  rewrite <- Hc, <- (proj1 Hext) in Hout.
  destruct (resampleChannelData_refines st h out Hfit Hout)
    as (s & blk & Hrun & Hcs & Hfs & Hbs).
  pose proof (extends_alloc st blk) as Hext'.
  exists (Go.set_nth rdm (Z.to_nat c) s), (Mem.set_floats st (Mem.floats st ++ [blk])).
  split; [| split; [| split]].
  - unfold Mem.resampleBody. unfold Mem.bind at 1, Mem.lift at 1. rewrite Hh.
    unfold Mem.bind. rewrite Hrun. unfold Mem.lift.
    rewrite GoFacts.store_ok; [reflexivity |].
    unfold len in *. rewrite (proj1 Hrd). exact Hrange.
  - eapply extends_trans; eassumption.
  - apply shows_store; [eapply shows_extends; eassumption | exact Hcs | exact Hfs].
  - apply from_address_store; [exact Hfrom |].
    rewrite Hbs. destruct Hext as (_ & (fs & ->) & _). rewrite length_app. lia.
Qed.

(** *** The interleaving loop *)

Lemma store_at_refines (st : Mem.store) (s : Mem.slice) (i : Z) (v : float) :
  Mem.fits st s -> 0 <= i < Mem.len s ->
  exists st',
    Mem.store_at s i v st = (Some tt, st')
    /\ Mem.contents st' s = Go.set_nth (Mem.contents st s) (Z.to_nat i) v
    /\ Mem.fits st' s
    /\ Mem.receiver st' = Mem.receiver st
    /\ Mem.ints st' = Mem.ints st
    /\ length (Mem.floats st') = length (Mem.floats st)
    /\ forall b, b <> Mem.base s -> nth b (Mem.floats st') [] = nth b (Mem.floats st) [].
Proof.
  intros [Hle Hin] Hi. unfold Mem.len in Hi. unfold Mem.store_at, Mem.len.
  destruct (Z.leb_spec 0 i); [| lia].
  destruct (Z.ltb_spec i (Z.of_nat (Mem.slen s))); [| lia]. cbn [andb].
  destruct Hin as [Hb Hoff]; [lia |].
  eexists. split; [reflexivity |].
  split; [| split; [| split; [| split; [| split]]]]; cbn [Mem.floats Mem.set_floats Mem.receiver].
  - unfold Mem.contents, Mem.window. cbn [Mem.floats Mem.set_floats].
    rewrite nth_update_same by exact Hb.
    now rewrite skipn_set_nth, firstn_set_nth.
  - split; [exact Hle |]. intros _. cbn [Mem.floats Mem.set_floats].
    rewrite length_update, nth_update_same by exact Hb.
    rewrite GoFacts.set_nth_length. split; assumption.
  - reflexivity.
  - reflexivity.
  - apply length_update.
  - intros b Hne. apply nth_update_other, Hne.
Qed.

Lemma mergeBody_refines (r : Resampler) (chs : list Mem.slice) (chp : list (list float))
    (rdm : list Mem.slice) (rdp : list (list float)) (resampled : Mem.slice) (i : Z)
    (st : Mem.store) (u : unit) (lp lp' : list float) :
  length chs = length chp ->
  Mem.from_address (S (Mem.base resampled)) rdm ->
  (Mem.receiver st = r /\ Mem.shows st rdm rdp
   /\ Mem.contents st resampled = lp /\ Mem.fits st resampled) ->
  mergeBody r chp rdp i lp = Some lp' ->
  exists u' st',
    Mem.mergeBody chs rdm resampled i u st = (Some u', st')
    /\ (Mem.receiver st' = r /\ Mem.shows st' rdm rdp
        /\ Mem.contents st' resampled = lp' /\ Mem.fits st' resampled).
Proof.
  intros Hlen Hfrom (Hr & Hrd & Hc & Hfit) Hp. unfold mergeBody in Hp.
  unfold Mem.mergeBody. unfold Mem.bind at 1, Mem.this. rewrite Hr.
  destruct (Go.quot i (Channels r)) as [dataIdx |]; simpl in Hp; [| discriminate].
  unfold Mem.bind at 1, Mem.lift at 1.
  unfold len in Hp at 1. rewrite <- Hlen in Hp.
  destruct (Go.rem i (Z.of_nat (length chs))) as [c |]; simpl in Hp; [| discriminate].
  unfold Mem.bind at 1, Mem.lift at 1.
  destruct (Go.index rdp c) as [l |] eqn:Hl; simpl in Hp; [| discriminate].
  destruct (shows_index _ _ _ _ _ Hrd Hl) as (rd & Hrdc & Hcrd & Hfrd).
  unfold Mem.bind at 1, Mem.lift at 1. rewrite Hrdc.
  rewrite <- Hcrd, (len_contents _ _ Hfrd) in Hp.
  destruct (Mem.len rd =? 0).
  - injection Hp as <-. exists tt, st. split; [reflexivity |].
    split; [exact Hr |]. split; [exact Hrd |]. split; assumption.
  - rewrite bind_load.
    match type of Hp with
    | Go.bind (Go.index _ ?k) _ = _ => destruct (Go.index (Mem.contents st rd) k) as [v |]
    end; simpl in Hp; [| discriminate].
    apply GoFacts.store_inv in Hp. destruct Hp as (Hi & -> & _).
    rewrite <- Hc, (len_contents _ _ Hfit) in Hi.
    destruct (store_at_refines st resampled i v Hfit Hi)
      as (st' & Hrun & Hc' & Hfit' & Hr' & _ & Hlen' & Hsame).
    exists tt, st'. split; [exact Hrun |].
    split; [congruence |]. split; [| split; [congruence | exact Hfit']].
    split; [apply Hrd |].
    intros j h2 l2 H2 Hl2. destruct Hrd as [_ Hrel].
    destruct (Hrel _ _ _ H2 Hl2) as [Hc2 Hf2].
    destruct (fits_same_block st st' h2 Hf2) as [Hf Hcs].
    { intros Hcap. split; [| lia]. apply Hsame.
      specialize (Hfrom _ _ H2 Hcap). lia. }
    split; [congruence | exact Hf].
Qed.

(** *** The buffer adapter *)

Lemma fits_nil (st : Mem.store) : Mem.fits st Mem.nil.
Proof. split; simpl; [lia | intros H; inversion H]. Qed.

Lemma split_inv_nil (st : Mem.store) (n : nat) : Mem.split_inv st st (repeat Mem.nil n) (repeat [] n).
Proof.
  split; [apply MemFacts.extends_refl |].
  split; [now rewrite !repeat_length |]. split.
  - intros i j h h' _ Hh _ Hcap. apply nth_error_In, repeat_spec in Hh. subst h.
    inversion Hcap.
  - intros j h l Hh Hl. destruct (shows_nil st n) as [_ Hrel].
    destruct (Hrel _ _ _ Hh Hl) as [Hc Hfit]. split; [exact Hc |]. split; [exact Hfit |].
    apply nth_error_In, repeat_spec in Hh. subst h. intros H. inversion H.
Qed.

Lemma ResampleFloat64_refines_fits (growslice : nat -> nat) (st : Mem.store) (data : Mem.slice)
    (out : list float) :
  (forall c, (c < growslice c)%nat) -> Mem.fits st data ->
  ResampleFloat64 (Mem.receiver st) (Mem.contents st data) = Some out ->
  exists s st',
    Mem.ResampleFloat64 growslice data st = (Some s, st')
    /\ Mem.contents st' s = out /\ Mem.fits st' s.
Proof.
  intros Hgrow Hfit Hp. unfold ResampleFloat64 in Hp.
  unfold Mem.ResampleFloat64.
  rewrite (len_contents _ _ Hfit) in Hp.
  destruct (Mem.len data =? 0).
  { injection Hp as <-. exists Mem.nil, st. split; [reflexivity |].
    split; [reflexivity | apply fits_nil]. }
  unfold Mem.bind at 1, Mem.this.
  destruct (FromRate (Mem.receiver st) =? ToRate (Mem.receiver st)).
  { injection Hp as <-.
    destruct (reslice_contents st data 0 (Mem.len data) (Mem.contents st data) Hfit)
      as (s & Hs & Hc & Hf & _).
    { rewrite <- (len_contents _ _ Hfit).
      rewrite GoFacts.slice_prefix by (unfold len; lia).
      unfold len. rewrite Nat2Z.id, firstn_all. reflexivity. }
    exists s, st. unfold Mem.lift. rewrite Hs. split; [reflexivity |]. split; assumption. }
  (* Split channels *)
  destruct (Go.make _ [] (Channels (Mem.receiver st))) as [chp0 |] eqn:Hmk; cbn [Go.bind] in Hp;
    [| discriminate].
  pose proof (GoFacts.make_fits _ _ _ _ Hmk) as HfitC.
  apply GoFacts.make_inv in Hmk. destruct Hmk as (Hn & -> & _).
  unfold Mem.bind at 1, Mem.lift at 1. rewrite (GoFacts.make_ok _ Mem.nil _ Hn HfitC).
  destruct (for_upto _ _ _) as [chp |] eqn:Hsplit in Hp; cbn [Go.bind] in Hp;
    [| discriminate].
  unfold for_upto in Hsplit.
  destruct (for_range_refines (Mem.split_inv st)
              (Mem.splitBody growslice data)
              (splitBody (Mem.receiver st) (Mem.contents st data)))
    with (n := Z.to_nat (Mem.len data)) (i := 0) (st := st)
         (sm := repeat Mem.nil (Z.to_nat (Channels (Mem.receiver st))))
         (sp := repeat (@Datatypes.nil float) (Z.to_nat (Channels (Mem.receiver st))))
         (sp' := chp)
    as (chs & sta & Hsplit_m & (Hexta & Hlen & _ & Hrel)).
  { intros i st1 sm sp sp' HI Hb.
    apply (splitBody_refines growslice st data i st1 sm sp sp' Hgrow Hfit HI Hb). }
  { apply split_inv_nil. }
  { exact Hsplit. }
  unfold Mem.bind at 1, Mem.for_upto at 1. rewrite Hsplit_m.
  assert (Hch : Mem.shows sta chs chp).
  { split; [exact Hlen |]. intros j h l Hh Hl.
    destruct (Hrel _ _ _ Hh Hl) as (Hc & Hf & _). split; assumption. }
  clear Hrel Hsplit Hsplit_m.
  (* The resampled buffer *)
  unfold Mem.bind at 1, Mem.this. rewrite (proj1 Hexta).
  unfold targetLength in Hp. rewrite (len_contents _ _ Hfit) in Hp.
  destruct (Go.make _ 0%float _) as [resp |] eqn:Hres; cbn [Go.bind] in Hp; [| discriminate].
  pose proof (GoFacts.make_check _ _ _ _ Hres) as Hchk.
  apply GoFacts.make_inv in Hres. destruct Hres as (HN & -> & _).
  set (N := Go.int_of_float64 _) in *.
  unfold Mem.bind at 1, Mem.make at 1. rewrite Hchk.
  set (resampled := {| Mem.base := length (Mem.floats sta); Mem.off := 0;
                       Mem.slen := Z.to_nat N; Mem.scap := Z.to_nat N |}).
  set (st1 := Mem.set_floats sta (Mem.floats sta ++ [repeat 0%float (Z.to_nat N)])).
  pose proof (extends_alloc sta (repeat 0%float (Z.to_nat N))) as Hext1.
  fold st1 in Hext1.
  (* Resample channels *)
  destruct (Go.make _ [] (len chp)) as [rdp0 |] eqn:Hmk; cbn [Go.bind] in Hp;
    [| discriminate].
  pose proof (GoFacts.make_fits _ _ _ _ Hmk) as HfitR.
  apply GoFacts.make_inv in Hmk. destruct Hmk as (_ & -> & _).
  unfold Mem.bind at 1, Mem.lift at 1.
  unfold len in HfitR. rewrite <- Hlen in HfitR.
  rewrite GoFacts.make_ok by (try exact HfitR; lia).
  destruct (for_upto _ _ _) as [rdp |] eqn:Hloop in Hp; cbn [Go.bind] in Hp;
    [| discriminate].
  unfold for_upto in Hloop.
  unfold len in Hloop, Hp. rewrite <- Hlen in Hloop.
  destruct (for_range_refines
              (fun st' rdm rdp' =>
                 Mem.extends st1 st' /\ Mem.shows st' rdm rdp'
                 /\ Mem.from_address (length (Mem.floats st1)) rdm)
              (Mem.resampleBody chs)
              (resampleBody (Mem.receiver st) chp))
    with (n := Z.to_nat (Z.of_nat (length chs))) (i := 0) (st := st1)
         (sm := repeat Mem.nil (Z.to_nat (Z.of_nat (length chs))))
         (sp := repeat (@Datatypes.nil float) (Z.to_nat (Z.of_nat (length chs))))
         (sp' := rdp)
    as (rdm & st2 & Hloop_m & (Hext2 & Hrd & Hfrom)).
  { intros i st' sm sp sp' HI Hb.
    apply (resampleBody_refines st1 chs chp i st' sm sp sp');
      [eapply shows_extends; eassumption | exact HI |].
    replace (Mem.receiver st1) with (Mem.receiver st); [exact Hb |].
    symmetry. apply Hexta. }
  { split; [apply MemFacts.extends_refl |]. split; [apply shows_nil |].
    intros j h Hh Hcap. apply nth_error_In, repeat_spec in Hh. subst h. inversion Hcap. }
  { exact Hloop. }
  unfold Mem.bind at 1, Mem.for_upto at 1. rewrite Hloop_m.
  (* The interleaving loop *)
  unfold for_upto in Hp. rewrite repeat_length in Hp.
  assert (Hfit1 : Mem.fits st1 resampled) by (apply fits_last; rewrite ?repeat_length; lia).
  assert (Hc1 : Mem.contents st1 resampled = repeat 0%float (Z.to_nat N)).
  { unfold st1, resampled. rewrite contents_last by (rewrite repeat_length; lia).
    rewrite <- (repeat_length 0%float (Z.to_nat N)) at 1. apply firstn_all. }
  destruct (extends_fits _ _ _ Hext2 Hfit1) as [Hfit2 Hc2].
  destruct (for_range_refines
              (fun st' (_ : unit) lp =>
                 Mem.receiver st' = Mem.receiver st /\ Mem.shows st' rdm rdp
                 /\ Mem.contents st' resampled = lp /\ Mem.fits st' resampled)
              (Mem.mergeBody chs rdm resampled)
              (mergeBody (Mem.receiver st) chp rdp))
    with (n := Z.to_nat (Z.of_nat (Z.to_nat N))) (i := 0) (st := st2) (sm := tt)
         (sp := repeat 0%float (Z.to_nat N)) (sp' := out)
    as (u & st3 & Hmerge_m & (_ & _ & Hc3 & Hfit3)).
  { intros i st' sm sp sp' HI Hb.
    apply (mergeBody_refines (Mem.receiver st) chs chp rdm rdp resampled i st' sm sp sp');
      [exact Hlen | | exact HI | exact Hb].
    intros j h Hh Hcap. specialize (Hfrom j h Hh Hcap).
    unfold st1 in Hfrom. cbn [Mem.floats Mem.set_floats Mem.base resampled] in *.
    rewrite length_app in Hfrom. simpl in Hfrom. lia. }
  { split; [| split; [exact Hrd | split; [congruence | exact Hfit2]]].
    rewrite (proj1 Hext2). unfold st1. cbn [Mem.receiver Mem.set_floats]. apply Hexta. }
  { exact Hp. }
  unfold Mem.bind at 1, Mem.for_upto at 1, Mem.len at 1. cbn [Mem.slen resampled].
  rewrite Hmerge_m. exists resampled, st3. split; [reflexivity |].
  split; assumption.
Qed.

(** *** The 16-bit adapter *)

Lemma len_contents16 (st : Mem.store) (s : Mem.slice) :
  Mem.fits16 st s -> len (Mem.contents16 st s) = Mem.len s.
Proof.
  intros [Hle Hin]. unfold len, Mem.len, Mem.contents16. f_equal.
  destruct (Nat.eq_dec (Mem.slen s) 0) as [H0 | H0].
  - rewrite window_empty by exact H0. simpl. lia.
  - apply window_length. destruct Hin as [_ Hin]; lia.
Qed.

Lemma store_eta (st : Mem.store) (fs : list (list float)) (zs : list (list Z)) (r : Resampler) :
  Mem.floats st = fs -> Mem.ints st = zs -> Mem.receiver st = r ->
  st = {| Mem.floats := fs; Mem.ints := zs; Mem.receiver := r |}.
Proof. destruct st. simpl. intros -> -> ->. reflexivity. Qed.

Lemma ResampleInt16_refines_fits (growslice : nat -> nat) (st : Mem.store) (data : Mem.slice)
    (out : list Z) :
  (forall c, (c < growslice c)%nat) -> Mem.fits16 st data ->
  ResampleInt16 (Mem.receiver st) (Mem.contents16 st data) = Some out ->
  exists s st',
    Mem.ResampleInt16 growslice data st = (Some s, st') /\ Mem.contents16 st' s = out.
Proof.
  intros Hgrow Hfit Hp. unfold ResampleInt16 in Hp.
  unfold Mem.ResampleInt16.
  rewrite (len_contents16 _ _ Hfit) in Hp.
  (* Convert the data to float64 *)
  destruct (Go.make _ 0%float (Mem.len data)) as [f0 |] eqn:Hmk; cbn [Go.bind] in Hp;
    [| discriminate].
  pose proof (GoFacts.make_check _ _ _ _ Hmk) as Hchk.
  apply GoFacts.make_inv in Hmk. destruct Hmk as (Hn & -> & _).
  unfold Mem.bind at 1, Mem.make at 1. rewrite Hchk. clear Hchk.
  set (n := Z.to_nat (Mem.len data)) in *.
  set (f64data := {| Mem.base := length (Mem.floats st); Mem.off := 0; Mem.slen := n; Mem.scap := n |}).
  destruct (for_upto _ _ _) as [fp |] eqn:HloopA in Hp; cbn [Go.bind] in Hp;
    [| discriminate].
  unfold for_upto in HloopA.
  destruct (for_range_refines
              (fun st' (_ : unit) lp =>
                 Mem.floats st' = Mem.floats st ++ [lp] /\ Mem.ints st' = Mem.ints st
                 /\ Mem.receiver st' = Mem.receiver st /\ length lp = n)
              (fun i (_ : unit) =>
                 Mem.bind (Mem.load16 data i)
                   (fun d => Mem.store_at f64data i (Go.float64_of_int d / x7FFF)))
              (fun i f64 =>
                 d <- Go.index (Mem.contents16 st data) i ;;
                 Go.store f64 i (Go.float64_of_int d / x7FFF)%float))
    with (n := Z.to_nat (Mem.len data)) (i := 0)
         (st := Mem.set_floats st (Mem.floats st ++ [repeat 0%float n])) (sm := tt)
         (sp := repeat 0%float n) (sp' := fp)
    as (u & stA & HloopA_m & (HfA & HzA & HrA & HlenA)).
  { intros i st' sm sp sp' (Hf & Hz & Hr & Hl) Hb.
    destruct (Go.index (Mem.contents16 st data) i) as [d |] eqn:Hd; simpl in Hb;
      [| discriminate].
    apply GoFacts.store_inv in Hb. destruct Hb as (Hi & -> & _).
    unfold len in Hi.
    eexists tt, _. split.
    - unfold Mem.bind, Mem.load16, Mem.lift. unfold Mem.contents16 at 1. rewrite Hz.
      fold (Mem.contents16 st data). rewrite Hd.
      unfold Mem.store_at, Mem.len. cbn [Mem.slen f64data Mem.base Mem.off].
      destruct (Z.leb_spec 0 i); [| lia].
      destruct (Z.ltb_spec i (Z.of_nat n)); [| lia]. cbn [andb].
      rewrite Hf, update_last. reflexivity.
    - cbn [Mem.floats Mem.ints Mem.receiver Mem.set_floats]. rewrite GoFacts.set_nth_length.
      repeat split; assumption. }
  { cbn [Mem.floats Mem.ints Mem.receiver Mem.set_floats]. repeat split. apply repeat_length. }
  { exact HloopA. }
  unfold Mem.bind at 1, Mem.for_upto at 1. rewrite HloopA_m.
  (* Resample *)
  destruct (ResampleFloat64 (Mem.receiver st) fp) as [outf |] eqn:Hfloat;
    cbn [Go.bind] in Hp; [| discriminate].
  rewrite (store_eta stA _ _ _ HfA HzA HrA).
  change {| Mem.floats := Mem.floats st ++ [fp]; Mem.ints := Mem.ints st; Mem.receiver := Mem.receiver st |}
    with (Mem.set_floats st (Mem.floats st ++ [fp])).
  destruct (ResampleFloat64_refines_fits growslice
              (Mem.set_floats st (Mem.floats st ++ [fp])) f64data outf Hgrow)
    as (s & stB & Hfloat_m & HcB & HfB).
  { apply fits_last; lia. }
  { unfold f64data. rewrite contents_last by lia.
    rewrite <- HlenA, firstn_all. exact Hfloat. }
  unfold Mem.bind at 1. rewrite Hfloat_m.
  (* Convert back to int16 *)
  rewrite <- HcB, (len_contents _ _ HfB) in Hp.
  destruct (Go.make _ 0 (Mem.len s)) as [z0 |] eqn:Hmk; cbn [Go.bind] in Hp; [| discriminate].
  pose proof (GoFacts.make_check _ _ _ _ Hmk) as Hchk.
  apply GoFacts.make_inv in Hmk. destruct Hmk as (Hm & -> & _).
  unfold Mem.bind at 1, Mem.make16 at 1. rewrite Hchk. clear Hchk.
  set (m := Z.to_nat (Mem.len s)) in *.
  set (resampledi16 := {| Mem.base := length (Mem.ints stB); Mem.off := 0; Mem.slen := m; Mem.scap := m |}).
  unfold for_upto in Hp.
  destruct (for_range_refines
              (fun st' (_ : unit) lp =>
                 Mem.floats st' = Mem.floats stB /\ Mem.ints st' = Mem.ints stB ++ [lp]
                 /\ length lp = m)
              (fun i (_ : unit) =>
                 Mem.bind (Mem.load s i)
                   (fun v => Mem.store16_at resampledi16 i
                               (Go.int16_of_float64 (v * x7FFF))))
              (fun i r16 =>
                 v <- Go.index (Mem.contents stB s) i ;;
                 Go.store r16 i (Go.int16_of_float64 (v * x7FFF)%float)))
    with (n := Z.to_nat (Mem.len s)) (i := 0)
         (st := Mem.set_ints stB (Mem.ints stB ++ [repeat 0 m])) (sm := tt)
         (sp := repeat 0 m) (sp' := out)
    as (u' & stC & HloopB_m & (HfC & HzC & HlenC)).
  { intros i st' sm sp sp' (Hf & Hz & Hl) Hb.
    destruct (Go.index (Mem.contents stB s) i) as [v |] eqn:Hv; simpl in Hb;
      [| discriminate].
    apply GoFacts.store_inv in Hb. destruct Hb as (Hi & -> & _).
    unfold len in Hi.
    eexists tt, _. split.
    - unfold Mem.bind, Mem.load, Mem.lift. unfold Mem.contents at 1. rewrite Hf.
      fold (Mem.contents stB s). rewrite Hv.
      unfold Mem.store16_at, Mem.len. cbn [Mem.slen resampledi16 Mem.base Mem.off].
      destruct (Z.leb_spec 0 i); [| lia].
      destruct (Z.ltb_spec i (Z.of_nat m)); [| lia]. cbn [andb].
      rewrite Hz, update_last. reflexivity.
    - cbn [Mem.floats Mem.ints Mem.set_ints]. rewrite GoFacts.set_nth_length.
      repeat split; assumption. }
  { cbn [Mem.floats Mem.ints Mem.set_ints]. repeat split. apply repeat_length. }
  { exact Hp. }
  unfold Mem.bind at 1, Mem.for_upto at 1. rewrite HloopB_m.
  exists resampledi16, stC. split; [reflexivity |].
  unfold Mem.contents16, Mem.window, resampledi16. cbn [Mem.base Mem.off Mem.slen skipn].
  rewrite HzC, nth_last, <- HlenC. apply firstn_all.
Qed.

(** *** Panics *)

Lemma for_range_panics {S T : Type} (I : Mem.store -> S -> T -> Prop)
    (bm : Z -> S -> Mem.M S) (bp : Z -> T -> Go.panics T) :
  (forall i st sm sp sp',
      I st sm sp -> bp i sp = Some sp' ->
      exists sm' st', bm i sm st = (Some sm', st') /\ I st' sm' sp') ->
  (forall i st sm sp, I st sm sp -> bp i sp = None -> fst (bm i sm st) = None) ->
  forall n i st sm sp,
    I st sm sp -> for_range n i bp sp = None ->
    fst (Mem.for_range n i bm sm st) = None.
Proof.
  intros Hsome Hnone. induction n as [| n IH]; intros i st sm sp HI Hrun; simpl in *.
  - discriminate.
  - unfold Mem.bind. destruct (bp i sp) as [sp1 |] eqn:Hbp; simpl in Hrun.
    + destruct (Hsome _ _ _ _ _ HI Hbp) as (sm1 & st1 & Hbm & HI1).
      rewrite Hbm. apply (IH _ _ _ _ HI1 Hrun).
    + specialize (Hnone _ _ _ _ HI Hbp).
      destruct (bm i sm st) as [[a |] st1]; [discriminate | reflexivity].
Qed.

Lemma index_none_both {A B : Type} (l1 : list A) (l2 : list B) (i : Z) :
  length l1 = length l2 -> Go.index l2 i = None -> Go.index l1 i = None.
Proof.
  unfold Go.index. intros Hlen. rewrite Hlen.
  destruct ((0 <=? i) && (i <? Z.of_nat (length l2))) eqn:Hr; [| reflexivity].
  intros H. apply nth_error_None in H.
  apply andb_prop in Hr. destruct Hr as [H0 H1].
  apply Z.leb_le in H0. apply Z.ltb_lt in H1. lia.
Qed.

Lemma store_none_both {A B : Type} (l1 : list A) (l2 : list B) (i : Z) (a : A) (b : B) :
  length l1 = length l2 -> Go.store l2 i b = None -> Go.store l1 i a = None.
Proof.
  unfold Go.store. intros Hlen. rewrite Hlen.
  destruct ((0 <=? i) && (i <? Z.of_nat (length l2))); [discriminate | reflexivity].
Qed.

Lemma splitBody_panics (growslice : nat -> nat) (st0 : Mem.store) (data : Mem.slice)
    (i : Z) (st : Mem.store) (chs : list Mem.slice) (chp : list (list float)) :
  Mem.fits st0 data -> Mem.split_inv st0 st chs chp ->
  splitBody (Mem.receiver st0) (Mem.contents st0 data) i chp = None ->
  fst (Mem.splitBody growslice data i chs st) = None.
Proof.
  intros Hdata (Hext & Hlen & _ & _) Hp. unfold splitBody in Hp.
  unfold Mem.splitBody. unfold Mem.bind at 1, Mem.this. rewrite (proj1 Hext).
  unfold Mem.bind at 1, Mem.lift at 1.
  destruct (Go.rem i (Channels (Mem.receiver st0))) as [idx |]; [| reflexivity].
  cbn [Go.bind] in Hp. unfold Mem.bind at 1, Mem.lift at 1.
  destruct (Go.index chp idx) as [l |] eqn:Hl; cbn [Go.bind] in Hp.
  - apply GoFacts.index_inv in Hl. destruct Hl as [Hidx _]. unfold len in Hidx.
    destruct (Go.index chs idx) as [h |]; [| reflexivity].
    rewrite bind_load.
    destruct (extends_fits _ _ _ Hext Hdata) as [_ ->].
    destruct (Go.index (Mem.contents st0 data) i) as [d |]; [| reflexivity].
    cbn [Go.bind] in Hp. rewrite GoFacts.store_ok in Hp by (unfold len; lia).
    discriminate.
  - rewrite (index_none_both chs chp idx Hlen Hl). reflexivity.
Qed.

Lemma mergeBody_panics (r : Resampler) (chs : list Mem.slice) (chp : list (list float))
    (rdm : list Mem.slice) (rdp : list (list float)) (resampled : Mem.slice) (i : Z)
    (st : Mem.store) (u : unit) (lp : list float) :
  length chs = length chp ->
  (Mem.receiver st = r /\ Mem.shows st rdm rdp
   /\ Mem.contents st resampled = lp /\ Mem.fits st resampled) ->
  mergeBody r chp rdp i lp = None ->
  fst (Mem.mergeBody chs rdm resampled i u st) = None.
Proof.
  intros Hlen (Hr & Hrd & Hc & Hfit) Hp. unfold mergeBody in Hp.
  unfold Mem.mergeBody. unfold Mem.bind at 1, Mem.this. rewrite Hr.
  unfold Mem.bind at 1, Mem.lift at 1.
  destruct (Go.quot i (Channels r)) as [dataIdx |]; [| reflexivity].
  cbn [Go.bind] in Hp. unfold Mem.bind at 1, Mem.lift at 1.
  unfold len in Hp at 1. rewrite <- Hlen in Hp.
  destruct (Go.rem i (Z.of_nat (length chs))) as [c |]; [| reflexivity].
  cbn [Go.bind] in Hp. unfold Mem.bind at 1, Mem.lift at 1.
  destruct (Go.index rdp c) as [l |] eqn:Hl; cbn [Go.bind] in Hp.
  - destruct (shows_index _ _ _ _ _ Hrd Hl) as (rd & Hrdc & Hcrd & Hfrd).
    rewrite Hrdc. rewrite <- Hcrd, (len_contents _ _ Hfrd) in Hp.
    destruct (Mem.len rd =? 0); [discriminate |].
    rewrite bind_load.
    match type of Hp with
    | Go.bind (Go.index _ ?k) _ = _ =>
        destruct (Go.index (Mem.contents st rd) k) as [v |]
    end; [| reflexivity].
    cbn [Go.bind] in Hp. unfold Mem.store_at.
    unfold Go.store in Hp. rewrite <- Hc in Hp.
    fold (len (Mem.contents st resampled)) in Hp.
    rewrite (len_contents _ _ Hfit) in Hp.
    destruct ((0 <=? i) && (i <? Mem.len resampled)); [discriminate | reflexivity].
  - rewrite (index_none_both rdm rdp c (proj1 Hrd) Hl). reflexivity.
Qed.

Lemma resamplePass_store (st st1 : Mem.store) (data : Mem.slice) (x : float)
    (output : Mem.slice) (i : Z) (v : float) :
  Mem.fits st data -> Mem.extends st st1 ->
  resampleAt (Mem.contents st data) x = Some v ->
  Mem.resamplePass data x output i st1 = Mem.store_at output i v st1.
Proof.
  intros Hfit Hext Hv. unfold resampleAt, rawSample in Hv.
  destruct (Go.slice (Mem.contents st data) _ _) as [w |] eqn:Hw; simpl in Hv;
    [| discriminate].
  destruct (spline _ w x) as [yo |] eqn:Hyo; simpl in Hv; [| discriminate].
  injection Hv as <-.
  destruct (reslice_contents _ _ _ _ _ Hfit Hw) as (yi & Hyi & Hc & Hfyi & _).
  destruct (extends_fits _ _ yi Hext Hfyi) as [_ Hc1].
  unfold Mem.resamplePass. unfold Mem.bind at 1, Mem.lift at 1. rewrite Hyi.
  unfold Mem.bind at 1. rewrite spline_eq, Hc1, Hc, Hyo. reflexivity.
Qed.

Lemma resampleLoop_panics (st : Mem.store) (data : Mem.slice) (step : float) :
  Mem.fits st data -> nonneg step ->
  16 < len (Mem.contents st data) <= Go.int_max ->
  forall (fuel : nat) (x : float) (i : Z) (outp : list float),
    nonneg x ->
    resampleLoop fuel (Mem.contents st data)
      (Go.float64_of_int (len (Mem.contents st data) - 16)) step x i outp = None ->
    fst (Mem.resampleLoop fuel data
           (Go.float64_of_int (len (Mem.contents st data) - 16)) step x i
           {| Mem.base := length (Mem.floats st); Mem.off := 0;
              Mem.slen := length outp; Mem.scap := length outp |}
           (Mem.set_floats st (Mem.floats st ++ [outp])))
    = None.
Proof.
  intros Hfit Hstep Hlen.
  assert (Hexit : forall i (outp : list float),
             Go.slice outp 0 i = None ->
             Mem.reslice
               {| Mem.base := length (Mem.floats st); Mem.off := 0;
                  Mem.slen := length outp; Mem.scap := length outp |} 0 i
             = None).
  { intros i outp. unfold Go.slice, Mem.reslice. cbn [Mem.scap].
    destruct ((0 <=? 0) && (0 <=? i) && (i <=? Z.of_nat (length outp)));
      [discriminate | reflexivity]. }
  induction fuel as [| fuel IH]; intros x i outp Hx Hres; simpl in Hres |- *.
  - destruct (PrimFloat.ltb x _); [reflexivity | apply Hexit, Hres].
  - destruct (PrimFloat.ltb x _) eqn:Hlt; [| apply Hexit, Hres].
    destruct (rawSample_first_interval _ x Hx Hlen Hlt) as (y0 & y1 & y2 & y3 & _ & Hraw).
    assert (Hv : exists v, resampleAt (Mem.contents st data) x = Some v).
    { unfold resampleAt. rewrite Hraw. eexists. reflexivity. }
    destruct Hv as [v Hv]. rewrite Hv in Hres. cbn [Go.bind] in Hres.
    unfold Mem.bind.
    rewrite (resamplePass_store st _ data x _ i v Hfit (extends_alloc st outp) Hv).
    unfold Mem.store_at, Mem.len. cbn [Mem.slen Mem.base Mem.off Mem.floats Mem.set_floats].
    unfold Go.store in Hres.
    destruct ((0 <=? i) && (i <? Z.of_nat (length outp))); [| reflexivity].
    cbn [Go.bind] in Hres. rewrite update_last.
    specialize (IH (x + step)%float (i + 1) (Go.set_nth outp (Z.to_nat i) v)
                  (Binary64.nonneg_add _ _ Hx Hstep) Hres).
    rewrite GoFacts.set_nth_length in IH. exact IH.
Qed.

Lemma channel_panics (st : Mem.store) (data : Mem.slice) :
  Mem.fits st data -> valid_config (Mem.receiver st) ->
  len (Mem.contents st data) <= Go.int_max ->
  resampleChannelData (Mem.receiver st) (Mem.contents st data) = None ->
  fst (Mem.resampleChannelData data st) = None.
Proof.
  intros Hfit Hr Hmax Hp. unfold resampleChannelData in Hp.
  unfold Mem.resampleChannelData.
  fold (len (Mem.contents st data)) in Hp.
  pose proof (len_contents _ _ Hfit) as Hlen.
  destruct (Z.leb_spec (len (Mem.contents st data)) 16) as [Hle | Hgt].
  { rewrite <- Hlen. destruct (Z.leb_spec (len (Mem.contents st data)) 16); [| lia].
    unfold Mem.make. unfold Go.make in Hp.
    destruct (Go.panicmakeslicelen _ _); [reflexivity | discriminate]. }
  rewrite <- Hlen. destruct (Z.leb_spec (len (Mem.contents st data)) 16); [lia |].
  unfold Mem.bind at 1, Mem.this. unfold Mem.bind at 1, Mem.make.
  fold (capacity (Mem.receiver st) (len (Mem.contents st data) - 16)) in Hp |- *.
  unfold Go.make in Hp.
  destruct (Go.panicmakeslicelen _ (capacity (Mem.receiver st) (len (Mem.contents st data) - 16)));
    [reflexivity |].
  cbn [Go.bind] in Hp. cbn [Mem.slen].
  rewrite repeat_length in Hp.
  pose proof (resampleLoop_panics st data (channelStep (Mem.receiver st)) Hfit
                (nonneg_channelStep _ Hr) (conj Hgt Hmax) _ _ _ _
                (nonneg_channelStep _ Hr) Hp) as Hrun.
  rewrite repeat_length in Hrun. exact Hrun.
Qed.

Lemma resampleBody_panics (st1 : Mem.store) (chs : list Mem.slice)
    (chp : list (list float)) (c : Z) (st : Mem.store) (rdm : list Mem.slice)
    (rdp : list (list float)) :
  valid_config (Mem.receiver st1) ->
  Forall (fun l => len l <= Go.int_max) chp ->
  Mem.shows st1 chs chp ->
  Mem.extends st1 st /\ Mem.shows st rdm rdp
  /\ Mem.from_address (length (Mem.floats st1)) rdm ->
  resampleBody (Mem.receiver st1) chp c rdp = None ->
  fst (Mem.resampleBody chs c rdm st) = None.
Proof.
  intros Hr Hmax Hch (Hext & Hrd & _) Hp. unfold resampleBody in Hp.
  unfold Mem.resampleBody. unfold Mem.bind at 1, Mem.lift at 1.
  destruct (Go.index chp c) as [l |] eqn:Hl; cbn [Go.bind] in Hp.
  - destruct (shows_index _ _ _ _ _ (shows_extends _ _ _ _ Hext Hch) Hl)
      as (h & Hh & Hc & Hfit).
    rewrite Hh. unfold Mem.bind.
    destruct (resampleChannelData (Mem.receiver st1) l) as [out |] eqn:Hout;
      cbn [Go.bind] in Hp.
    + rewrite <- Hc, <- (proj1 Hext) in Hout.
      destruct (resampleChannelData_refines st h out Hfit Hout)
        as (s & blk & Hrun & _).
      rewrite Hrun. unfold Mem.lift.
      rewrite (store_none_both rdm rdp c s out (proj1 Hrd) Hp). reflexivity.
    + assert (Hnone : fst (Mem.resampleChannelData h st) = None).
      { apply channel_panics; [exact Hfit | | |].
        - rewrite (proj1 Hext). exact Hr.
        - rewrite Hc. apply GoFacts.index_inv in Hl. destruct Hl as [_ Hl].
          apply nth_error_In in Hl. rewrite Forall_forall in Hmax. apply Hmax, Hl.
        - rewrite Hc, (proj1 Hext). exact Hout. }
      destruct (Mem.resampleChannelData h st) as [[a |] st']; [discriminate | reflexivity].
  - rewrite (index_none_both chs chp c (proj1 Hch) Hl). reflexivity.
Qed.

Lemma bind_panics {A B : Type} (m : Mem.M A) (k : A -> Mem.M B) (st : Mem.store) :
  fst (m st) = None -> fst (Mem.bind m k st) = None.
Proof.
  unfold Mem.bind. destruct (m st) as [[a |] st']; [discriminate | reflexivity].
Qed.

Lemma Forall_set_nth {T : Type} (P : T -> Prop) (l : list T) (n : nat) (a : T) :
  Forall P l -> P a -> Forall P (Go.set_nth l n a).
Proof.
  intros Hall Ha. revert n.
  induction Hall as [| b l Hb Hl IH]; intros n; simpl; [constructor |].
  destruct n as [| n]; constructor; auto.
Qed.

(** A channel is no longer than the buffer it is split from. *)
Lemma split_lengths (r : Resampler) (data : list float) :
  forall (n : nat) (i : Z) (chp chp' : list (list float)) (k : nat),
    Forall (fun l => (length l <= k)%nat) chp ->
    for_range n i (splitBody r data) chp = Some chp' ->
    Forall (fun l => (length l <= k + n)%nat) chp'.
Proof.
  induction n as [| n IH]; intros i chp chp' k Hall Hrun; simpl in Hrun.
  - injection Hrun as <-. rewrite Nat.add_0_r. exact Hall.
  - destruct (splitBody r data i chp) as [chp1 |] eqn:Hb; cbn [Go.bind] in Hrun;
      [| discriminate].
    replace (k + S n)%nat with (S k + n)%nat by lia.
    apply (IH (i + 1) chp1 chp' (S k)); [| exact Hrun].
    unfold splitBody in Hb.
    destruct (Go.rem i (Channels r)) as [idx |]; cbn [Go.bind] in Hb; [| discriminate].
    destruct (Go.index chp idx) as [l |] eqn:Hl; cbn [Go.bind] in Hb; [| discriminate].
    destruct (Go.index data i) as [d |]; cbn [Go.bind] in Hb; [| discriminate].
    apply GoFacts.store_inv in Hb. destruct Hb as (_ & -> & _).
    apply GoFacts.index_inv in Hl. destruct Hl as [_ Hl]. apply nth_error_In in Hl.
    rewrite Forall_forall in Hall.
    apply Forall_set_nth.
    + apply Forall_forall. intros l' Hl'. specialize (Hall l' Hl'). lia.
    + specialize (Hall l Hl). rewrite length_app. simpl. lia.
Qed.

Lemma ResampleFloat64_panics_too (growslice : nat -> nat) (st : Mem.store)
    (data : Mem.slice) :
  (forall c, (c < growslice c)%nat) -> Mem.fits st data ->
  valid_config (Mem.receiver st) -> len (Mem.contents st data) <= Go.int_max ->
  ResampleFloat64 (Mem.receiver st) (Mem.contents st data) = None ->
  fst (Mem.ResampleFloat64 growslice data st) = None.
Proof.
  intros Hgrow Hfit Hvalid Hmax Hp. unfold ResampleFloat64 in Hp.
  unfold Mem.ResampleFloat64.
  pose proof (len_contents _ _ Hfit) as Hlendata.
  rewrite Hlendata in Hp.
  destruct (Mem.len data =? 0); [discriminate |].
  unfold Mem.bind at 1, Mem.this.
  destruct (FromRate (Mem.receiver st) =? ToRate (Mem.receiver st)); [discriminate |].
  (* Split channels *)
  unfold Mem.bind at 1, Mem.lift at 1.
  destruct (Go.make _ [] (Channels (Mem.receiver st))) as [chp0 |] eqn:Hmk;
    cbn [Go.bind] in Hp.
  2: { unfold Go.make in *.
       destruct (Go.panicmakeslicelen _ (Channels (Mem.receiver st)));
         [reflexivity | discriminate]. }
  pose proof (GoFacts.make_fits _ _ _ _ Hmk) as HfitC.
  apply GoFacts.make_inv in Hmk. destruct Hmk as (Hn & -> & _).
  rewrite (GoFacts.make_ok _ Mem.nil _ Hn HfitC).
  assert (Hsome : forall i st1 sm sp sp',
             Mem.split_inv st st1 sm sp ->
             splitBody (Mem.receiver st) (Mem.contents st data) i sp = Some sp' ->
             exists sm' st', Mem.splitBody growslice data i sm st1 = (Some sm', st')
                             /\ Mem.split_inv st st' sm' sp').
  { intros i st1 sm sp sp' HI Hb.
    apply (splitBody_refines growslice st data i st1 sm sp sp' Hgrow Hfit HI Hb). }
  destruct (for_upto _ _ _) as [chp |] eqn:Hsplit in Hp; cbn [Go.bind] in Hp;
    unfold for_upto in Hsplit.
  2: { apply bind_panics. unfold Mem.for_upto.
       apply (for_range_panics (Mem.split_inv st) _ _ Hsome)
         with (sp := repeat [] (Z.to_nat (Channels (Mem.receiver st))));
         [| apply split_inv_nil | exact Hsplit].
       intros i st1 sm sp HI Hb.
       apply (splitBody_panics growslice st data i st1 sm sp Hfit HI Hb). }
  assert (Hbound : Forall (fun l : list float => (length l <= 0)%nat)
                     (repeat [] (Z.to_nat (Channels (Mem.receiver st))))).
  { apply Forall_forall. intros l Hl. apply repeat_spec in Hl. subst l. simpl. lia. }
  apply (split_lengths _ _ _ _ _ _ _ Hbound) in Hsplit as Hbound'.
  clear Hbound. rename Hbound' into Hbound.
  destruct (for_range_refines (Mem.split_inv st) _ _ Hsome _ _ _ _ _ _
              (split_inv_nil st _) Hsplit)
    as (chs & sta & Hsplit_m & (Hexta & Hlen & _ & Hrel)).
  unfold Mem.bind at 1, Mem.for_upto at 1. rewrite Hsplit_m.
  assert (Hch : Mem.shows sta chs chp).
  { split; [exact Hlen |]. intros j h l Hh Hl.
    destruct (Hrel _ _ _ Hh Hl) as (Hc & Hf & _). split; assumption. }
  assert (Hchmax : Forall (fun l => len l <= Go.int_max) chp).
  { rewrite Forall_forall in Hbound |- *. intros l Hl. specialize (Hbound l Hl).
    unfold len in *. rewrite Hlendata in Hmax. simpl in Hbound. lia. }
  clear Hrel Hsplit Hsplit_m Hsome Hbound.
  (* The resampled buffer *)
  unfold Mem.bind at 1, Mem.this. rewrite (proj1 Hexta).
  unfold targetLength in Hp. rewrite Hlendata in Hp.
  unfold Mem.bind at 1, Mem.make at 1.
  destruct (Go.make _ 0%float _) as [resp |] eqn:Hres; cbn [Go.bind] in Hp.
  2: { unfold Go.make in Hres.
       match type of Hres with
       | (if ?c then _ else _) = _ => destruct c
       end; [reflexivity | discriminate]. }
  pose proof (GoFacts.make_check _ _ _ _ Hres) as Hchk.
  apply GoFacts.make_inv in Hres. destruct Hres as (HN & -> & _).
  set (N := Go.int_of_float64 _) in *.
  rewrite Hchk.
  set (resampled := {| Mem.base := length (Mem.floats sta); Mem.off := 0;
                       Mem.slen := Z.to_nat N; Mem.scap := Z.to_nat N |}).
  set (st1 := Mem.set_floats sta (Mem.floats sta ++ [repeat 0%float (Z.to_nat N)])).
  pose proof (extends_alloc sta (repeat 0%float (Z.to_nat N))) as Hext1.
  fold st1 in Hext1.
  assert (Hr1 : Mem.receiver st1 = Mem.receiver st) by apply Hexta.
  (* Resample channels *)
  destruct (Go.make _ [] (len chp)) as [rdp0 |] eqn:Hmk; cbn [Go.bind] in Hp.
  2: { unfold Mem.bind at 1, Mem.lift at 1. unfold Go.make in *.
       unfold len in Hmk. rewrite <- Hlen in Hmk.
       destruct (Go.panicmakeslicelen _ (Z.of_nat (length chs)));
         [reflexivity | discriminate]. }
  pose proof (GoFacts.make_fits _ _ _ _ Hmk) as HfitR.
  apply GoFacts.make_inv in Hmk. destruct Hmk as (_ & -> & _).
  unfold Mem.bind at 1, Mem.lift at 1.
  unfold len in HfitR. rewrite <- Hlen in HfitR.
  rewrite GoFacts.make_ok by (try exact HfitR; lia).
  unfold len in Hp at 1 2 3. rewrite <- Hlen in Hp.
  assert (Hsome : forall i st' sm sp sp',
             Mem.extends st1 st' /\ Mem.shows st' sm sp
             /\ Mem.from_address (length (Mem.floats st1)) sm ->
             resampleBody (Mem.receiver st) chp i sp = Some sp' ->
             exists sm' st'', Mem.resampleBody chs i sm st' = (Some sm', st'')
               /\ (Mem.extends st1 st'' /\ Mem.shows st'' sm' sp'
                   /\ Mem.from_address (length (Mem.floats st1)) sm')).
  { intros i st' sm sp sp' HI Hb.
    apply (resampleBody_refines st1 chs chp i st' sm sp sp');
      [eapply shows_extends; eassumption | exact HI |].
    rewrite Hr1. exact Hb. }
  assert (Hinit : Mem.extends st1 st1
                  /\ Mem.shows st1 (repeat Mem.nil (Z.to_nat (Z.of_nat (length chs))))
                       (repeat [] (Z.to_nat (Z.of_nat (length chs))))
                  /\ Mem.from_address (length (Mem.floats st1))
                       (repeat Mem.nil (Z.to_nat (Z.of_nat (length chs))))).
  { split; [apply MemFacts.extends_refl |]. split; [apply shows_nil |].
    intros j h Hh Hcap. apply nth_error_In, repeat_spec in Hh. subst h. inversion Hcap. }
  destruct (for_upto _ _ _) as [rdp |] eqn:Hloop in Hp; cbn [Go.bind] in Hp;
    unfold for_upto in Hloop.
  2: { apply bind_panics. unfold Mem.for_upto.
       apply (for_range_panics _ _ _ Hsome)
         with (sp := repeat [] (Z.to_nat (Z.of_nat (length chs))));
         [| exact Hinit | exact Hloop].
       intros i st' sm sp HI Hb.
       apply (resampleBody_panics st1 chs chp i st' sm sp);
         [rewrite Hr1; exact Hvalid | exact Hchmax
         | eapply shows_extends; eassumption | exact HI | rewrite Hr1; exact Hb]. }
  destruct (for_range_refines _ _ _ Hsome _ _ _ _ _ _ Hinit Hloop)
    as (rdm & st2 & Hloop_m & (Hext2 & Hrd & Hfrom)).
  unfold Mem.bind at 1, Mem.for_upto at 1. rewrite Hloop_m.
  (* The interleaving loop *)
  unfold for_upto in Hp. rewrite repeat_length in Hp.
  assert (Hfit1 : Mem.fits st1 resampled)
    by (apply fits_last; rewrite ?repeat_length; lia).
  assert (Hc1 : Mem.contents st1 resampled = repeat 0%float (Z.to_nat N)).
  { unfold st1, resampled. rewrite contents_last by (rewrite repeat_length; lia).
    rewrite <- (repeat_length 0%float (Z.to_nat N)) at 1. apply firstn_all. }
  destruct (extends_fits _ _ _ Hext2 Hfit1) as [Hfit2 Hc2].
  apply bind_panics. unfold Mem.for_upto, Mem.len at 1. cbn [Mem.slen resampled].
  apply (for_range_panics
           (fun st' (_ : unit) lp =>
              Mem.receiver st' = Mem.receiver st /\ Mem.shows st' rdm rdp
              /\ Mem.contents st' resampled = lp /\ Mem.fits st' resampled)
           (Mem.mergeBody chs rdm resampled)
           (mergeBody (Mem.receiver st) chp rdp))
    with (sp := repeat 0%float (Z.to_nat N)).
  - intros i st' sm sp sp' HI Hb.
    apply (mergeBody_refines (Mem.receiver st) chs chp rdm rdp resampled i st' sm sp sp');
      [exact Hlen | | exact HI | exact Hb].
    intros j h Hh Hcap. specialize (Hfrom j h Hh Hcap).
    unfold st1 in Hfrom. cbn [Mem.floats Mem.set_floats Mem.base resampled] in *.
    rewrite length_app in Hfrom. simpl in Hfrom. lia.
  - intros i st' sm sp HI Hb.
    apply (mergeBody_panics (Mem.receiver st) chs chp rdm rdp resampled i st' sm sp Hlen HI Hb).
  - split; [| split; [exact Hrd | split; [congruence | exact Hfit2]]].
    rewrite (proj1 Hext2). exact Hr1.
  - destruct (for_range _ _ _ _) as [lp |] eqn:Hm in Hp; [discriminate | exact Hm].
Qed.

Lemma ResampleInt16_panics_too (growslice : nat -> nat) (st : Mem.store)
    (data : Mem.slice) :
  (forall c, (c < growslice c)%nat) -> Mem.fits16 st data ->
  valid_config (Mem.receiver st) -> len (Mem.contents16 st data) <= Go.int_max ->
  ResampleInt16 (Mem.receiver st) (Mem.contents16 st data) = None ->
  fst (Mem.ResampleInt16 growslice data st) = None.
Proof.
  intros Hgrow Hfit Hvalid Hmax Hp.
  rewrite ResampleInt16_eq in Hp.
  unfold Mem.ResampleInt16.
  pose proof (len_contents16 _ _ Hfit) as Hlendata. rewrite Hlendata in Hp.
  (* Convert the data to float64 *)
  unfold Mem.bind at 1, Mem.make at 1.
  destruct (Go.make _ 0%float (Mem.len data)) as [f0 |] eqn:Hmk; cbn [Go.bind] in Hp.
  2: { unfold Go.make in Hmk.
       destruct (Go.panicmakeslicelen _ (Mem.len data)); [reflexivity | discriminate]. }
  destruct (ResampleFloat64 (Mem.receiver st) (map normalize (Mem.contents16 st data)))
    as [outf |] eqn:Hfloat; cbn [Go.bind] in Hp; [discriminate |]. clear Hp.
  pose proof (GoFacts.make_fits _ _ _ _ Hmk) as HfitA. rewrite <- Hlendata in HfitA.
  pose proof (GoFacts.for_upto_map normalize _ 0%float (Mem.contents16 st data) HfitA)
    as HloopA.
  rewrite Hlendata, Hmk in HloopA. cbn [Go.bind] in HloopA. clear HfitA.
  pose proof (GoFacts.make_check _ _ _ _ Hmk) as Hchk.
  apply GoFacts.make_inv in Hmk. destruct Hmk as (Hn & -> & _).
  rewrite Hchk. clear Hchk.
  set (n := Z.to_nat (Mem.len data)) in *.
  set (f64data := {| Mem.base := length (Mem.floats st); Mem.off := 0;
                     Mem.slen := n; Mem.scap := n |}).
  unfold for_upto in HloopA.
  destruct (for_range_refines
              (fun st' (_ : unit) lp =>
                 Mem.floats st' = Mem.floats st ++ [lp] /\ Mem.ints st' = Mem.ints st
                 /\ Mem.receiver st' = Mem.receiver st /\ length lp = n)
              (fun i (_ : unit) =>
                 Mem.bind (Mem.load16 data i)
                   (fun d => Mem.store_at f64data i (Go.float64_of_int d / x7FFF)))
              (fun i f64 =>
                 d <- Go.index (Mem.contents16 st data) i ;;
                 Go.store f64 i (normalize d)))
    with (n := Z.to_nat (Mem.len data)) (i := 0)
         (st := Mem.set_floats st (Mem.floats st ++ [repeat 0%float n])) (sm := tt)
         (sp := repeat 0%float n) (sp' := map normalize (Mem.contents16 st data))
    as (u & stA & HloopA_m & (HfA & HzA & HrA & HlenA)).
  { intros i st' sm sp sp' (Hf & Hz & Hr & Hl) Hb.
    destruct (Go.index (Mem.contents16 st data) i) as [d |] eqn:Hd; simpl in Hb;
      [| discriminate].
    apply GoFacts.store_inv in Hb. destruct Hb as (Hi & -> & _).
    unfold len in Hi.
    eexists tt, _. split.
    - unfold Mem.bind, Mem.load16, Mem.lift. unfold Mem.contents16 at 1. rewrite Hz.
      fold (Mem.contents16 st data). rewrite Hd.
      unfold Mem.store_at, Mem.len. cbn [Mem.slen f64data Mem.base Mem.off].
      destruct (Z.leb_spec 0 i); [| lia].
      destruct (Z.ltb_spec i (Z.of_nat n)); [| lia]. cbn [andb].
      rewrite Hf, update_last. reflexivity.
    - cbn [Mem.floats Mem.ints Mem.receiver Mem.set_floats].
      rewrite GoFacts.set_nth_length. repeat split; assumption. }
  { cbn [Mem.floats Mem.ints Mem.receiver Mem.set_floats]. repeat split.
    apply repeat_length. }
  { exact HloopA. }
  unfold Mem.bind at 1, Mem.for_upto at 1. rewrite HloopA_m.
  (* Resample *)
  rewrite (store_eta stA _ _ _ HfA HzA HrA).
  change {| Mem.floats := Mem.floats st ++ [map normalize (Mem.contents16 st data)];
            Mem.ints := Mem.ints st; Mem.receiver := Mem.receiver st |}
    with (Mem.set_floats st
            (Mem.floats st ++ [map normalize (Mem.contents16 st data)])).
  apply bind_panics.
  assert (Hc : Mem.contents
                 (Mem.set_floats st
                    (Mem.floats st ++ [map normalize (Mem.contents16 st data)]))
                 f64data
               = map normalize (Mem.contents16 st data)).
  { unfold f64data. rewrite contents_last by lia. rewrite <- HlenA. apply firstn_all. }
  apply ResampleFloat64_panics_too.
  - exact Hgrow.
  - apply fits_last; lia.
  - exact Hvalid.
  - rewrite Hc. unfold len in *. rewrite length_map. exact Hmax.
  - rewrite Hc. exact Hfloat.
Qed.

End Refine.

(** ** The two readings of the program agree *)

(** The program over the store computes what the program over lists
    computes: when [ResampleFloat64], on the samples that the input slice
    shows, returns a buffer, the call on the store returns a slice that
    shows this buffer. *)
Theorem ResampleFloat64_refines (growslice : nat -> nat) (st : Mem.store)
    (data : Mem.slice) (out : list float) :
  (forall c, (c < growslice c)%nat) -> Mem.fits st data ->
  ResampleFloat64 (Mem.receiver st) (Mem.contents st data) = Some out ->
  exists s st',
    Mem.ResampleFloat64 growslice data st = (Some s, st')
    /\ Mem.contents st' s = out.
Proof.
  intros Hgrow Hfit Hout.
  destruct (Refine.ResampleFloat64_refines_fits growslice st data out Hgrow Hfit Hout)
    as (s & st' & Hrun & Hc & _).
  exists s, st'. split; assumption.
Qed.

Lemma ResampleFloat64_refines_witness :
  let grow := fun c : nat => (2 * c + 1)%nat in
  let st := {| Mem.floats := [iota20]; Mem.ints := []; Mem.receiver := mono 1 2 |} in
  let data := {| Mem.base := 0; Mem.off := 0; Mem.slen := 20; Mem.scap := 20 |} in
  exists out s st',
    ResampleFloat64 (mono 1 2) iota20 = Some out
    /\ Mem.ResampleFloat64 grow data st = (Some s, st')
    /\ Mem.contents st' s = out.
Proof.
  intros grow st data.
  destruct (ResampleFloat64 (mono 1 2) iota20) as [out |] eqn:Hout;
    [| vm_compute in Hout; discriminate].
  destruct (ResampleFloat64_refines grow st data out) as (s & st' & Hrun & Hc).
  - intros c. unfold grow. lia.
  - split; simpl; [lia | intros _; split; lia].
  - exact Hout.
  - exists out, s, st'. split; [reflexivity |]. split; assumption.
Defined.

(** Likewise for [ResampleInt16], on the 16-bit samples that the input
    slice shows. *)
Theorem ResampleInt16_refines (growslice : nat -> nat) (st : Mem.store)
    (data : Mem.slice) (out : list Z) :
  (forall c, (c < growslice c)%nat) -> Mem.fits16 st data ->
  ResampleInt16 (Mem.receiver st) (Mem.contents16 st data) = Some out ->
  exists s st',
    Mem.ResampleInt16 growslice data st = (Some s, st')
    /\ Mem.contents16 st' s = out.
Proof.
  intros Hgrow Hfit Hout.
  apply (Refine.ResampleInt16_refines_fits growslice st data out Hgrow Hfit Hout).
Qed.

Lemma ResampleInt16_refines_witness :
  let grow := fun c : nat => (2 * c + 1)%nat in
  let st := {| Mem.floats := []; Mem.ints := [[0; 16384; -16384]];
               Mem.receiver := mono 1 2 |} in
  let pcm := {| Mem.base := 0; Mem.off := 0; Mem.slen := 3; Mem.scap := 3 |} in
  exists out s st',
    ResampleInt16 (mono 1 2) [0; 16384; -16384] = Some out
    /\ Mem.ResampleInt16 grow pcm st = (Some s, st')
    /\ Mem.contents16 st' s = out.
Proof.
  intros grow st pcm.
  destruct (ResampleInt16 (mono 1 2) [0; 16384; -16384]) as [out |] eqn:Hout;
    [| vm_compute in Hout; discriminate].
  destruct (ResampleInt16_refines grow st pcm out) as (s & st' & Hrun & Hc).
  - intros c. unfold grow. lia.
  - split; simpl; [lia | intros _; split; lia].
  - exact Hout.
  - exists out, s, st'. split; [reflexivity |]. split; assumption.
Defined.

(** With equal rates the slice returned for a buffer that is not empty is
    the input slice itself: the same array, offset, length and capacity,
    in a store that the call has left as it was. The result shares its
    memory with the input. *)
Theorem ResampleFloat64_same_storage (growslice : nat -> nat) (st : Mem.store)
    (data : Mem.slice) :
  FromRate (Mem.receiver st) = ToRate (Mem.receiver st) ->
  (0 < Mem.slen data <= Mem.scap data)%nat ->
  Mem.ResampleFloat64 growslice data st = (Some data, st).
Proof.
  intros Hrate Hlen. unfold Mem.ResampleFloat64, Mem.len.
  destruct (Z.eqb_spec (Z.of_nat (Mem.slen data)) 0); [lia |].
  unfold Mem.bind, Mem.this. rewrite Hrate, Z.eqb_refl.
  unfold Mem.lift, Mem.reslice.
  destruct (Z.leb_spec 0 (Z.of_nat (Mem.slen data))); [| lia].
  destruct (Z.leb_spec (Z.of_nat (Mem.slen data)) (Z.of_nat (Mem.scap data))); [| lia].
  cbn [andb Z.leb]. simpl Z.to_nat.
  rewrite Nat.add_0_r, Nat.sub_0_r, Z.sub_0_r, Nat2Z.id.
  destruct data; reflexivity.
Qed.

Lemma ResampleFloat64_same_storage_witness :
  let grow := fun c : nat => (2 * c + 1)%nat in
  let st := {| Mem.floats := [iota20]; Mem.ints := [];
               Mem.receiver := mono 44100 44100 |} in
  let data := {| Mem.base := 0; Mem.off := 0; Mem.slen := 20; Mem.scap := 20 |} in
  Mem.ResampleFloat64 grow data st = (Some data, st).
Proof.
  intros grow st data.
  apply (ResampleFloat64_same_storage grow st data); [reflexivity | simpl; lia].
Defined.


(** The program over the store panics where the program over lists does,
    under a configuration of [NewResampler] and on a buffer of a length
    that an [int] holds; with the refinement, the two agree on every such
    call. *)
Theorem Resample_agree (growslice : nat -> nat) (st : Mem.store) (data : Mem.slice) :
  (forall c, (c < growslice c)%nat) -> valid_config (Mem.receiver st) ->
  (Mem.fits st data -> len (Mem.contents st data) <= Go.int_max ->
   match ResampleFloat64 (Mem.receiver st) (Mem.contents st data) with
   | Some out =>
       exists s st', Mem.ResampleFloat64 growslice data st = (Some s, st')
                     /\ Mem.contents st' s = out
   | None => fst (Mem.ResampleFloat64 growslice data st) = None
   end)
  /\ (Mem.fits16 st data -> len (Mem.contents16 st data) <= Go.int_max ->
      match ResampleInt16 (Mem.receiver st) (Mem.contents16 st data) with
      | Some out =>
          exists s st', Mem.ResampleInt16 growslice data st = (Some s, st')
                        /\ Mem.contents16 st' s = out
      | None => fst (Mem.ResampleInt16 growslice data st) = None
      end).
Proof.
  intros Hgrow Hvalid. split; intros Hfit Hmax.
  - destruct (ResampleFloat64 _ _) as [out |] eqn:Hout.
    + destruct (Refine.ResampleFloat64_refines_fits growslice st data out Hgrow Hfit Hout)
        as (s & st' & Hrun & Hc & _).
      exists s, st'. split; assumption.
    + apply Refine.ResampleFloat64_panics_too; assumption.
  - destruct (ResampleInt16 _ _) as [out |] eqn:Hout.
    + apply (Refine.ResampleInt16_refines_fits growslice st data out Hgrow Hfit Hout).
    + apply Refine.ResampleInt16_panics_too; assumption.
Qed.

Lemma Resample_agree_witness :
  let grow := fun c : nat => (2 * c + 1)%nat in
  let st := {| Mem.floats := [iota20]; Mem.ints := []; Mem.receiver := mono 1 2 |} in
  let data := {| Mem.base := 0; Mem.off := 0; Mem.slen := 20; Mem.scap := 20 |} in
  match ResampleFloat64 (mono 1 2) iota20 with
  | Some out =>
      exists s st', Mem.ResampleFloat64 grow data st = (Some s, st')
                    /\ Mem.contents st' s = out
  | None => fst (Mem.ResampleFloat64 grow data st) = None
  end.
Proof.
  intros grow st data.
  apply (Resample_agree grow st data).
  - intros c. unfold grow. lia.
  - unfold valid_config, Go.int_max. simpl. lia.
  - split; simpl; [lia | intros _; split; lia].
  - unfold Go.int_max. vm_compute. discriminate.
Defined.

(** The overrun of the output buffer, on the store: with one channel and
    the rates 1 and 1000, a call on a slice of 238038 samples panics, from
    whatever store and with whatever growth of the appended slices. *)
Theorem resample_overrun_store (growslice : nat -> nat) (st : Mem.store)
    (data : Mem.slice) :
  (forall c, (c < growslice c)%nat) ->
  Mem.receiver st = mono 1 1000 -> Mem.len data = 238038 ->
  (Mem.fits st data -> fst (Mem.ResampleFloat64 growslice data st) = None)
  /\ (Mem.fits16 st data -> fst (Mem.ResampleInt16 growslice data st) = None).
Proof.
  intros Hgrow Hr Hlen.
  assert (Hvalid : valid_config (Mem.receiver st)).
  { rewrite Hr. unfold valid_config, Go.int_max. simpl. lia. }
  assert (Hstep : channelStep (mono 1 1000) = (1 / 1000)%float) by (vm_compute; reflexivity).
  assert (Hcap : capacity (mono 1 1000) 238022 = 238022000) by (vm_compute; reflexivity).
  assert (Havail : Go.float64_of_int 238022 = 238022%float) by (vm_compute; reflexivity).
  assert (Hbelow : stays_below 64 (1 / 1000) 238022 (1 / 1000) 238022000 = true)
    by (vm_compute; reflexivity).
  assert (Hfloat : forall l : list float,
             len l = 238038 -> ResampleFloat64 (mono 1 1000) l = None).
  { intros l Hl.
    apply ResampleFloat64_one_channel; [reflexivity | discriminate | lia |].
    apply (resampleChannelData_overrun _ _ 64); [lia |].
    rewrite Hl. change (238038 - 16) with 238022.
    rewrite Hstep, Hcap, Havail. exact Hbelow. }
  split; intros Hfit.
  - assert (Hl : len (Mem.contents st data) = 238038).
    { rewrite (Refine.len_contents _ _ Hfit). exact Hlen. }
    apply Refine.ResampleFloat64_panics_too; try assumption.
    + rewrite Hl. unfold Go.int_max. lia.
    + rewrite Hr. apply Hfloat, Hl.
  - assert (Hl : len (Mem.contents16 st data) = 238038).
    { rewrite (Refine.len_contents16 _ _ Hfit). exact Hlen. }
    apply Refine.ResampleInt16_panics_too; try assumption.
    + rewrite Hl. unfold Go.int_max. lia.
    + rewrite Hr, ResampleInt16_eq.
      rewrite Hfloat; [now destruct (Go.make _ _ _) |].
      unfold len in *. rewrite length_map. exact Hl.
Qed.


Lemma resample_overrun_store_witness :
  let grow := fun c : nat => (2 * c + 1)%nat in
  let n := Z.to_nat 238038 in
  let st := {| Mem.floats := [repeat 0%float n]; Mem.ints := [];
               Mem.receiver := mono 1 1000 |} in
  let data := {| Mem.base := 0; Mem.off := 0; Mem.slen := n; Mem.scap := n |} in
  fst (Mem.ResampleFloat64 grow data st) = None.
Proof.
  intros grow n st data.
  assert (Hgrow : forall c, (c < grow c)%nat) by (intros c; unfold grow; lia).
  assert (Hr : Mem.receiver st = mono 1 1000) by reflexivity.
  assert (Hlen : Mem.len data = 238038).
  { unfold Mem.len, data, n. cbn [Mem.slen]. apply Z2Nat.id. lia. }
  assert (Hfit : Mem.fits st data).
  { split; [apply le_n |]. intros _. unfold st, data.
    cbn [Mem.base Mem.off Mem.scap Mem.floats nth length].
    rewrite repeat_length. split; [apply Nat.lt_0_1 | apply le_n]. }
  exact (proj1 (resample_overrun_store grow st data Hgrow Hr Hlen) Hfit).
Defined.

(** ** The 16-bit round trip *)

Module Int16Facts.
Import Binary64.

Lemma all_round_trip_sound (n : nat) :
  forall d0 d, all_round_trip n d0 = true -> d0 <= d < d0 + Z.of_nat n ->
    let f := PrimFloat.of_uint63 (Uint63.of_Z d) in
    round_trips f = true /\ round_trips (- f)%float = true.
Proof.
  induction n as [| n IH]; intros d0 d Hall Hd; [lia |].
  cbn [all_round_trip] in Hall.
  apply andb_prop in Hall. destruct Hall as [Hhere Hrest].
  apply andb_prop in Hhere.
  destruct (Z.eq_dec d d0) as [-> | Hne]; [exact Hhere |].
  apply (IH (d0 + 1)); [exact Hrest | lia].
Qed.

Lemma float64_of_int_prim (d : Z) :
  0 <= d < 2 ^ 63 -> Go.float64_of_int d = PrimFloat.of_uint63 (Uint63.of_Z d).
Proof.
  intros Hd. apply Prim2SF_inj.
  rewrite of_uint63_spec, float64_of_int_spec by exact Hd.
  rewrite Uint63.of_Z_spec, Z.mod_small; [reflexivity |].
  change Uint63.wB with (2 ^ 63). exact Hd.
Qed.

Lemma binary_round_aux_opp (s : bool) (M E : Z) (l : location) :
  binary_round_aux prec emax (negb s) M E l = SFopp (binary_round_aux prec emax s M E l).
Proof.
  unfold binary_round_aux.
  destruct (shr_fexp prec emax M E l) as [mrs e1].
  destruct (shr_fexp prec emax _ e1 loc_Exact) as [mrs2 e2].
  destruct (shr_m mrs2); [reflexivity | | reflexivity].
  destruct (Z.leb _ _); reflexivity.
Qed.

Lemma valid_binary_opp (x : spec_float) :
  valid_binary (SFopp x) = valid_binary x.
Proof. destruct x; reflexivity. Qed.

Lemma float64_of_int_opp (d : Z) :
  0 < d < 2 ^ 63 -> Go.float64_of_int (- d) = (- Go.float64_of_int d)%float.
Proof.
  intros Hd. apply Prim2SF_inj. rewrite opp_spec, (float64_of_int_spec d) by lia.
  assert (Hopp : binary_normalize prec emax (- d) 0 false
                 = SFopp (binary_normalize prec emax d 0 false)).
  { destruct d as [| p | p]; try lia. unfold binary_normalize.
    change (- Z.pos p) with (Z.neg p). cbv iota. unfold binary_round.
    destruct (shl_align p 0 _) as [mz ez].
    apply (binary_round_aux_opp false). }
  unfold Go.float64_of_int. rewrite Hopp, Prim2SF_SF2Prim; [reflexivity |].
  rewrite valid_binary_opp, <- (float64_of_int_spec d) by lia. apply Prim2SF_valid.
Qed.

Lemma int_of_float64_of_int (d : Z) :
  0 <= d < 2 ^ prec -> Go.int_of_float64 (Go.float64_of_int d) = d.
Proof.
  intros Hd. destruct (Z.eq_dec d 0) as [-> | Hne]; [reflexivity |].
  destruct (float64_of_int_exact d) as (mn & en & Hsf & Hn & He & Hval); [lia |].
  assert (Hprec : prec = 53) by reflexivity. rewrite Hprec in *.
  destruct Hn as [Hm _]. change (2 ^ (53 - 1)) with 4503599627370496 in Hm.
  unfold Go.int_of_float64, Go.trunc. rewrite Hsf. unfold fin.
  rewrite Z2Pos.id by lia.
  assert (Ha : (if 0 <=? en then Z.shiftl mn en else Z.shiftr mn (- en)) = d).
  { destruct (Z.leb_spec 0 en).
    - assert (en = 0) by lia. subst en. rewrite Z.shiftl_0_r. simpl in Hval. lia.
    - rewrite Z.shiftr_div_pow2 by lia.
      assert (Hsplit : 2 ^ 52 = 2 ^ (en + 52) * 2 ^ (- en)).
      { rewrite <- Z.pow_add_r by lia. f_equal. lia. }
      assert (HP : 0 < 2 ^ (en + 52)) by (apply Z.pow_pos_nonneg; lia).
      assert (Hmn : mn = d * 2 ^ (- en)) by nia.
      rewrite Hmn. apply Z.div_mul. apply Z.pow_nonzero; lia. }
  rewrite Ha. unfold Go.int_min, Go.int_max.
  destruct (Z.leb_spec (- 2 ^ 63) d); [| lia].
  destruct (Z.leb_spec d (2 ^ 63 - 1)); [reflexivity | lia].
Qed.

Lemma int_of_float64_opp (x : float) :
  - 2 ^ 63 < Go.int_of_float64 x ->
  Go.int_of_float64 (- x) = - Go.int_of_float64 x.
Proof.
  unfold Go.int_of_float64, Go.trunc. rewrite opp_spec.
  unfold Go.int_min, Go.int_max.
  change (2 ^ 63) with 9223372036854775808.
  destruct (Prim2SF x) as [s | s | | s m e]; cbn [SFopp]; intros Hx; try lia.
  - reflexivity.
  - set (a := if 0 <=? e then Z.shiftl (Z.pos m) e else Z.shiftr (Z.pos m) (- e)) in *.
    destruct s; cbn [negb] in *.
    + destruct (Z.leb_spec (Z.opp 9223372036854775808) (- a));
        destruct (Z.leb_spec (- a) (9223372036854775808 - 1));
        destruct (Z.leb_spec (Z.opp 9223372036854775808) a);
        destruct (Z.leb_spec a (9223372036854775808 - 1));
        cbn [andb] in *; lia.
    + destruct (Z.leb_spec (Z.opp 9223372036854775808) (- a));
        destruct (Z.leb_spec (- a) (9223372036854775808 - 1));
        destruct (Z.leb_spec (Z.opp 9223372036854775808) a);
        destruct (Z.leb_spec a (9223372036854775808 - 1));
        cbn [andb] in *; lia.
Qed.

(** A value of the 64-bit conversion that fits 32 bits is the value of the
    32-bit conversion. *)
Lemma int32_of_int (f : float) (z : Z) :
  Go.int_of_float64 f = z -> - 2 ^ 31 <= z <= 2 ^ 31 - 1 ->
  Go.int32_of_float64 f = z.
Proof.
  unfold Go.int_of_float64, Go.int32_of_float64, Go.int_min, Go.int_max.
  change (2 ^ 31) with 2147483648. change (2 ^ 63) with 9223372036854775808.
  intros H Hz. destruct (Go.trunc f) as [t |]; [| lia].
  destruct ((Z.opp 9223372036854775808 <=? t) && (t <=? 9223372036854775808 - 1));
    [| lia].
  subst t.
  destruct (Z.leb_spec (Z.opp 2147483648) z); [| lia].
  destruct (Z.leb_spec z (2147483648 - 1)); [| lia]. reflexivity.
Qed.

(** The 16-bit round trip: a sample divided by 32767 and multiplied by
    32767 is the sample again. *)
Lemma denormalize_normalize (d : Z) :
  - 32768 <= d <= 32767 -> denormalize (normalize d) = d.
Proof.
  intros Hd.
  assert (Hall : all_round_trip (Z.to_nat 32769) 0 = true) by (vm_compute; reflexivity).
  assert (Hn : Z.of_nat (Z.to_nat 32769) = 32769) by (apply Z2Nat.id; lia).
  assert (Hexact : (Go.float64_of_int d / x7FFF * x7FFF)%float = Go.float64_of_int d).
  { destruct (Z.leb_spec 0 d) as [Hpos | Hneg].
    - destruct (all_round_trip_sound _ 0 d Hall) as [Hrt _]; [lia |].
      apply FloatAxioms.Leibniz.eqb_spec in Hrt.
      rewrite <- float64_of_int_prim in Hrt by lia. exact Hrt.
    - destruct (all_round_trip_sound _ 0 (- d) Hall) as [_ Hrt]; [lia |].
      apply FloatAxioms.Leibniz.eqb_spec in Hrt.
      rewrite <- float64_of_int_prim, <- float64_of_int_opp, Z.opp_involutive in Hrt
        by lia.
      exact Hrt. }
  unfold denormalize, normalize. rewrite Hexact. unfold Go.int16_of_float64.
  assert (Hint : Go.int_of_float64 (Go.float64_of_int d) = d).
  { destruct (Z.leb_spec 0 d) as [Hpos | Hneg].
    - apply int_of_float64_of_int. change (2 ^ prec) with 9007199254740992. lia.
    - replace d with (- - d) by lia.
      rewrite float64_of_int_opp by lia.
      rewrite int_of_float64_opp; rewrite int_of_float64_of_int;
        change (2 ^ prec) with 9007199254740992; lia. }
  rewrite (int32_of_int _ d Hint) by (change (2 ^ 31) with 2147483648; lia).
  change (2 ^ 15) with 32768. change (2 ^ 16) with 65536.
  rewrite Z.mod_small by lia. lia.
Qed.

End Int16Facts.

Lemma ResampleFloat64_equal_rates (r : Resampler) (data : list float) :
  FromRate r = ToRate r -> ResampleFloat64 r data = Some data.
Proof.
  intros Hrate. unfold ResampleFloat64.
  destruct (Z.eqb_spec (len data) 0) as [H0 |].
  - destruct data; [reflexivity | discriminate].
  - rewrite Hrate, Z.eqb_refl. reflexivity.
Qed.

(** With equal rates [ResampleInt16] returns the buffer it is given: the
    conversion to float64 and back loses nothing of a 16-bit sample. The
    one panic is that of [make] for the float64 copy, when the buffer has
    more samples than a float64 array may. *)
Theorem ResampleInt16_identity (r : Resampler) (data : list Z) :
  FromRate r = ToRate r ->
  Forall (fun d => - 32768 <= d <= 32767) data ->
  ResampleInt16 r data
  = if Go.maxAlloc <? Go.sizeof_float64 * len data then None else Some data.
Proof.
  intros Hrate Hdata. rewrite ResampleInt16_eq, ResampleFloat64_equal_rates by exact Hrate.
  unfold Go.make, Go.panicmakeslicelen.
  destruct (Z.ltb_spec (len data) 0) as [Hneg | _];
    [pose proof (GoFacts.len_nonneg data); lia |].
  cbn [orb].
  destruct (Go.maxAlloc <? Go.sizeof_float64 * len data); [reflexivity |].
  cbn [Go.bind]. f_equal. rewrite map_map.
  induction Hdata as [| d data Hd _ IH]; [reflexivity |].
  cbn [map]. rewrite Int16Facts.denormalize_normalize by exact Hd. f_equal. exact IH.
Qed.

Lemma ResampleInt16_identity_witness :
  ResampleInt16 (mono 44100 44100) [0; 1; -1; 32767; -32768; 12345]
  = Some [0; 1; -1; 32767; -32768; 12345].
Proof.
  apply (ResampleInt16_identity (mono 44100 44100)); [reflexivity |].
  repeat constructor; lia.
Defined.

(** ** The buffer, channel by channel *)

Module ChannelFacts.

Lemma combine_seq_snoc (l : list float) (d : float) (k : nat) :
  combine (seq k (length (l ++ [d]))) (l ++ [d])
  = combine (seq k (length l)) l ++ [((k + length l)%nat, d)].
Proof.
  revert k. induction l as [| a l IH]; intros k; simpl.
  - now rewrite Nat.add_0_r.
  - f_equal. rewrite IH. f_equal. f_equal. f_equal. lia.
Qed.

Lemma channel_snoc (n : Z) (l : list float) (d : float) (c : Z) :
  channel n (l ++ [d]) c
  = channel n l c ++ (if Z.rem (len l) n =? c then [d] else []).
Proof.
  unfold channel. rewrite combine_seq_snoc, filter_app, map_app. f_equal.
  cbn [filter fst Nat.add]. unfold len.
  destruct (Z.rem (Z.of_nat (length l)) n =? c); reflexivity.
Qed.

Lemma firstn_snoc {T : Type} (l : list T) (k : nat) (d : T) :
  nth_error l k = Some d -> firstn (S k) l = firstn k l ++ [d].
Proof.
  revert k. induction l as [| a l IH]; intros k Hk.
  - destruct k; discriminate.
  - destruct k as [| k]; simpl in *.
    + now injection Hk as ->.
    + f_equal. apply IH, Hk.
Qed.

Lemma set_nth_map_seq {T : Type} (f g : nat -> T) (n idx : nat) (v : T) :
  (idx < n)%nat -> g idx = v -> (forall c, c <> idx -> g c = f c) ->
  Go.set_nth (map f (seq 0 n)) idx v = map g (seq 0 n).
Proof.
  intros Hidx Hv Hother.
  assert (Hgen : forall m k, (k + m = n)%nat -> (k <= idx)%nat ->
            Go.set_nth (map f (seq k m)) (idx - k) v = map g (seq k m)).
  { induction m as [| m IH]; intros k Hkm Hk; [lia |].
    cbn [seq map]. destruct (Nat.eq_dec k idx) as [-> | Hne].
    - rewrite Nat.sub_diag. cbn [Go.set_nth]. rewrite Hv. f_equal.
      apply map_ext_in. intros c Hc. apply in_seq in Hc. symmetry. apply Hother. lia.
    - replace (idx - k)%nat with (S (idx - S k)) by lia. cbn [Go.set_nth].
      rewrite Hother by lia. f_equal. apply IH; lia. }
  rewrite <- (Nat.sub_0_r idx). apply Hgen; lia.
Qed.

(** Split channels: one pass moves the next sample to its channel. *)
Lemma splitBody_deinterleave (r : Resampler) (data : list float) (k : nat) (d : float) :
  1 <= Channels r -> nth_error data k = Some d ->
  splitBody r data (Z.of_nat k) (deinterleave (Channels r) (firstn k data))
  = Some (deinterleave (Channels r) (firstn (S k) data)).
Proof.
  intros HC Hd.
  assert (Hk : (k < length data)%nat) by (apply nth_error_Some; congruence).
  assert (Hlen : len (firstn k data) = Z.of_nat k).
  { unfold len. rewrite length_firstn. lia. }
  assert (Hrem : 0 <= Z.rem (Z.of_nat k) (Channels r) < Channels r).
  { rewrite Z.rem_mod_nonneg by lia. apply Z.mod_pos_bound. lia. }
  set (idx := Z.rem (Z.of_nat k) (Channels r)) in *.
  unfold splitBody, Go.rem.
  destruct (Z.eqb_spec (Channels r) 0); [lia |]. cbn [Go.bind]. fold idx.
  assert (Hidx : (Z.to_nat idx < Z.to_nat (Channels r))%nat) by lia.
  rewrite GoFacts.index_ok
    by (unfold len, deinterleave; rewrite length_map, length_seq; lia).
  unfold deinterleave at 1.
  rewrite nth_error_map, nth_error_seq.
  destruct (Nat.ltb_spec (Z.to_nat idx) (Z.to_nat (Channels r))) as [_ |]; [| lia].
  cbn [option_map Go.bind Nat.add]. rewrite Z2Nat.id by lia.
  rewrite GoFacts.index_ok by (unfold len; lia).
  rewrite Nat2Z.id, Hd. cbn [Go.bind].
  rewrite GoFacts.store_ok
    by (unfold len, deinterleave; rewrite length_map, length_seq; lia).
  f_equal. unfold deinterleave.
  apply (set_nth_map_seq
           (fun c => channel (Channels r) (firstn k data) (Z.of_nat c))
           (fun c => channel (Channels r) (firstn (S k) data) (Z.of_nat c))
           (Z.to_nat (Channels r)) (Z.to_nat idx)
           (channel (Channels r) (firstn k data) idx ++ [d]) Hidx).
  - rewrite (firstn_snoc _ _ _ Hd), channel_snoc, Hlen, Z2Nat.id by lia.
    fold idx. now rewrite Z.eqb_refl.
  - intros c Hc. rewrite (firstn_snoc _ _ _ Hd), channel_snoc, Hlen. fold idx.
    destruct (Z.eqb_spec idx (Z.of_nat c)); [lia |]. apply app_nil_r.
Qed.

Lemma split_deinterleave (r : Resampler) (data : list float) :
  1 <= Channels r ->
  forall n k, (k + n = length data)%nat ->
    for_range n (Z.of_nat k) (splitBody r data)
      (deinterleave (Channels r) (firstn k data))
    = Some (deinterleave (Channels r) data).
Proof.
  intros HC. induction n as [| n IH]; intros k Hk.
  - simpl. rewrite Nat.add_0_r in Hk. subst k. now rewrite firstn_all.
  - cbn [for_range].
    destruct (nth_error data k) as [d |] eqn:Hd;
      [| apply nth_error_None in Hd; lia].
    rewrite (splitBody_deinterleave r data k d HC Hd). cbn [Go.bind].
    replace (Z.of_nat k + 1) with (Z.of_nat (S k)) by lia.
    apply IH. lia.
Qed.

Lemma deinterleave_nil (n : Z) : deinterleave n [] = repeat [] (Z.to_nat n).
Proof.
  unfold deinterleave. generalize (Z.to_nat n) as m. intros m.
  generalize 0%nat as k. induction m as [| m IH]; intros k; simpl; [reflexivity |].
  f_equal. apply IH.
Qed.

Lemma length_deinterleave (n : Z) (data : list float) :
  length (deinterleave n data) = Z.to_nat n.
Proof. unfold deinterleave. now rewrite length_map, length_seq. Qed.

(** Resample channels: the loop is [traverse]. *)
Lemma for_range_traverse {A B : Type} (f : A -> Go.panics B)
    (todo done : list A) (outs rest : list B) :
  length outs = length done -> length rest = length todo ->
  for_range (length todo) (len done)
    (fun c rd => ch <- Go.index (done ++ todo) c ;; out <- f ch ;; Go.store rd c out)
    (outs ++ rest)
  = (bs <- traverse f todo ;; Some (outs ++ bs)).
Proof.
  revert done outs rest. induction todo as [| a todo IH]; intros done outs rest Hd Hr.
  - destruct rest; [| discriminate]. reflexivity.
  - destruct rest as [| b rest]; [discriminate |]. cbn [for_range traverse length].
    rewrite GoFacts.index_ok by (unfold len; rewrite length_app; simpl; lia).
    unfold len at 1. rewrite Nat2Z.id, nth_error_app2, Nat.sub_diag by lia.
    cbn [nth_error Go.bind].
    destruct (f a) as [out |]; cbn [Go.bind]; [| reflexivity].
    rewrite GoFacts.store_ok by (unfold len; rewrite length_app; simpl; lia).
    unfold len at 1. rewrite Nat2Z.id, <- Hd, GoFacts.set_nth_app. cbn [Go.bind].
    replace (len done + 1) with (len (done ++ [a]))
      by (unfold len; rewrite length_app; simpl; lia).
    specialize (IH (done ++ [a]) (outs ++ [out]) rest).
    rewrite <- !app_assoc in IH. cbn [app] in IH. rewrite IH.
    + destruct (traverse f todo); cbn [Go.bind]; [| reflexivity].
      now rewrite <- app_assoc.
    + rewrite !length_app; simpl; lia.
    + simpl in Hr; lia.
Qed.

Lemma traverse_length {A B : Type} (f : A -> Go.panics B) (l : list A) (bs : list B) :
  traverse f l = Some bs -> length bs = length l.
Proof.
  revert bs. induction l as [| a l IH]; intros bs H; simpl in H.
  - now injection H as <-.
  - destruct (f a); cbn [Go.bind] in H; [| discriminate].
    destruct (traverse f l) as [bs' |]; cbn [Go.bind] in H; [| discriminate].
    injection H as <-. simpl. f_equal. now apply IH.
Qed.

Lemma traverse_none {A B : Type} (f : A -> Go.panics B) (l : list A) :
  traverse f l = None <-> exists a, In a l /\ f a = None.
Proof.
  induction l as [| a l IH]; simpl.
  - split; [discriminate | intros (a & [] & _)].
  - destruct (f a) as [b |] eqn:Hfa; cbn [Go.bind].
    + destruct (traverse f l) as [bs |]; cbn [Go.bind].
      * split; [discriminate |]. intros (a' & [<- | Hin] & Ha'); [congruence |].
        assert (Habs : Some bs = None) by (apply (proj2 IH); exists a'; auto).
        discriminate.
      * split; [| reflexivity]. intros _.
        destruct (proj1 IH eq_refl) as (a' & Hin & Ha'). exists a'. auto.
    + split; [| reflexivity]. intros _. exists a. auto.
Qed.

(** The interleaving loop writes [interleaved] at every index. *)
Lemma merge_interleaved (r : Resampler) (channels rd : list (list float)) :
  1 <= Channels r -> len channels = Channels r -> len rd = Channels r ->
  forall (todo : nat) (done : list float),
    for_range todo (len done) (mergeBody r channels rd)
      (done ++ repeat 0%float todo)
    = Some (done
            ++ map (fun i => interleaved (Channels r) rd (Z.of_nat i))
                 (seq (length done) todo)).
Proof.
  intros HC Hch Hrd. induction todo as [| todo IH]; intros done.
  - reflexivity.
  - cbn [for_range seq map].
    assert (Hstep : mergeBody r channels rd (len done) (done ++ repeat 0%float (S todo))
                    = Some ((done ++ [interleaved (Channels r) rd (len done)])
                            ++ repeat 0%float todo)).
    { unfold mergeBody, interleaved, Go.quot, Go.rem. rewrite Hch.
      destruct (Z.eqb_spec (Channels r) 0); [lia |]. cbn [Go.bind].
      pose proof (GoFacts.len_nonneg done) as Hdone.
      assert (Hrem : 0 <= Z.rem (len done) (Channels r) < Channels r).
      { rewrite Z.rem_mod_nonneg by lia. apply Z.mod_pos_bound. lia. }
      assert (Hquot : 0 <= Z.quot (len done) (Channels r)).
      { rewrite Z.quot_div_nonneg by lia. apply Z.div_pos; lia. }
      rewrite GoFacts.index_ok by lia.
      destruct (nth_error rd (Z.to_nat (Z.rem (len done) (Channels r)))) as [out |] eqn:Hout;
        [| apply nth_error_None in Hout; unfold len in Hrd; lia].
      rewrite (nth_error_nth _ _ _ Hout). cbn [Go.bind].
      destruct (Z.eqb_spec (len out) 0) as [H0 | H0].
      - f_equal. rewrite <- app_assoc. reflexivity.
      - pose proof (GoFacts.len_nonneg out) as Hlo.
        set (q := Z.quot (len done) (Channels r)) in *.
        assert (Hclamp : (if (if q >? len out - 1 then len out - 1 else q) <? 0 then 0
                          else (if q >? len out - 1 then len out - 1 else q))
                         = Z.min q (len out - 1)).
        { destruct (Z.gtb_spec q (len out - 1)).
          - destruct (Z.ltb_spec (len out - 1) 0); lia.
          - destruct (Z.ltb_spec q 0); lia. }
        rewrite Hclamp.
        rewrite GoFacts.index_ok by lia.
        destruct (nth_error out (Z.to_nat (Z.min q (len out - 1)))) as [v |] eqn:Hv;
          [| apply nth_error_None in Hv; unfold len in *; lia].
        rewrite (nth_error_nth _ _ _ Hv). cbn [Go.bind].
        rewrite GoFacts.store_ok
          by (unfold len; rewrite length_app, repeat_length; simpl; lia).
        f_equal. unfold len. rewrite Nat2Z.id. cbn [repeat].
        rewrite GoFacts.set_nth_app, <- app_assoc. reflexivity. }
    rewrite Hstep. cbn [Go.bind].
    replace (len done + 1) with (len (done ++ [interleaved (Channels r) rd (len done)]))
      by (unfold len; rewrite length_app; simpl; lia).
    rewrite IH, <- app_assoc, length_app. cbn [app length].
    unfold len. rewrite Nat.add_1_r. reflexivity.
Qed.

Lemma traverse_map {A B : Type} (f : A -> Go.panics B) (g : A -> B) (l : list A) :
  (forall a, In a l -> f a = Some (g a)) -> traverse f l = Some (map g l).
Proof.
  induction l as [| a l IH]; intros H; simpl; [reflexivity |].
  rewrite (H a (or_introl eq_refl)). cbn [Go.bind].
  rewrite IH by (intros a' Ha'; apply H; right; exact Ha'). reflexivity.
Qed.

(** Channel [c] of a buffer of [len] samples has the indices [c + j n]
    below [len]. *)
Lemma channel_count (n : Z) (c : Z) (data : list float) :
  1 <= n -> 0 <= c < n ->
  (len (channel n data c) - 1) * n + c < len data <= len (channel n data c) * n + c.
Proof.
  intros Hn Hc. induction data as [| d l IH] using rev_ind.
  - change (len (channel n [] c)) with 0. change (len []) with 0. lia.
  - rewrite channel_snoc.
    assert (Hl : len (l ++ [d]) = len l + 1).
    { unfold len. rewrite length_app. simpl. lia. }
    rewrite Hl. pose proof (GoFacts.len_nonneg l) as Hl0.
    rewrite Z.rem_mod_nonneg by lia.
    set (L := len (channel n l c)) in *.
    pose proof (Z.div_mod (len l) n ltac:(lia)) as Hdm.
    pose proof (Z.mod_pos_bound (len l) n ltac:(lia)) as Hmod.
    destruct (Z.eqb_spec (len l mod n) c) as [Heq | Hne].
    + assert (HL : len (channel n l c ++ [d]) = L + 1).
      { unfold len, L. rewrite length_app. simpl. unfold len. lia. }
      rewrite HL.
      assert (Hq : len l / n = L) by nia.
      nia.
    + rewrite app_nil_r. fold L.
      assert (Hq : len l <> L * n + c).
      { intros Habs. apply Hne. rewrite Habs, Z.add_comm, Z.mod_add by lia.
        apply Z.mod_small. lia. }
      lia.
Qed.

Lemma resampleChannelData_zero (r : Resampler) (ch : list float) :
  len ch <= 16 -> resampleChannelData r ch = Some (repeat 0%float (length ch)).
Proof.
  intros Hlen. unfold resampleChannelData. fold (len ch).
  destruct (Z.leb_spec (len ch) 16); [| lia].
  rewrite GoFacts.make_ok
    by (try apply GoFacts.len_nonneg;
        unfold Go.sizeof_float64, Go.maxAlloc; change (2 ^ 48) with 281474976710656; lia).
  unfold len. now rewrite Nat2Z.id.
Qed.

Lemma interleaved_zero (n : Z) (chs : list (list float)) (i : Z) :
  interleaved n (map (fun ch => repeat 0%float (length ch)) chs) i = 0%float.
Proof.
  unfold interleaved.
  set (k := Z.to_nat (Z.rem i n)).
  assert (Hout : exists m, nth k (map (fun ch => repeat 0%float (length ch)) chs) []
                           = repeat 0%float m).
  { destruct (nth_error (map (fun ch => repeat 0%float (length ch)) chs) k) as [out |] eqn:Hk.
    - rewrite (nth_error_nth _ _ _ Hk). apply nth_error_In, in_map_iff in Hk.
      destruct Hk as (ch & <- & _). eexists. reflexivity.
    - exists 0%nat. apply nth_error_None in Hk. now rewrite nth_overflow. }
  destruct Hout as [m ->].
  destruct (len (repeat 0%float m) =? 0); [reflexivity |].
  generalize (Z.to_nat (Z.min (Z.quot i n) (len (repeat 0%float m) - 1))) as j.
  intros j. clear. revert j. induction m as [| m IH]; intros [| j]; simpl; auto.
Qed.

(** The three loops of [ResampleFloat64], one after the other. *)
Lemma ResampleFloat64_channels (r : Resampler) (data : list float) :
  1 <= Channels r -> data <> [] -> FromRate r <> ToRate r ->
  ResampleFloat64 r data
  = (_ <- Go.make Go.sizeof_slice (@nil float) (Channels r) ;;
     resampled <- Go.make Go.sizeof_float64 0%float (targetLength r data) ;;
     rd <- traverse (resampleChannelData r) (deinterleave (Channels r) data) ;;
     Some (map (fun i => interleaved (Channels r) rd (Z.of_nat i))
             (seq 0 (length resampled)))).
Proof.
  intros HC Hdata Hrate. unfold ResampleFloat64.
  destruct (Z.eqb_spec (len data) 0) as [H0 | _].
  { destruct data; [contradiction | discriminate]. }
  destruct (Z.eqb_spec (FromRate r) (ToRate r)) as [| _]; [contradiction |].
  destruct (Go.make Go.sizeof_slice [] (Channels r)) as [channels0 |] eqn:Hmk;
    cbn [Go.bind]; [| reflexivity].
  pose proof (GoFacts.make_fits _ _ _ _ Hmk) as HfitC.
  apply GoFacts.make_inv in Hmk. destruct Hmk as (_ & -> & _).
  unfold for_upto at 1. unfold len at 1. rewrite Nat2Z.id.
  pose proof (split_deinterleave r data HC (length data) 0%nat eq_refl) as Hsplit.
  cbn [firstn] in Hsplit. rewrite deinterleave_nil in Hsplit.
  change (Z.of_nat 0) with 0 in Hsplit. rewrite Hsplit. cbn [Go.bind].
  destruct (Go.make _ 0%float (targetLength r data)) as [resampled |] eqn:Hres;
    cbn [Go.bind]; [| reflexivity].
  assert (Hlen : len (deinterleave (Channels r) data) = Channels r).
  { unfold len. rewrite length_deinterleave. lia. }
  rewrite Hlen. rewrite GoFacts.make_ok by (try exact HfitC; lia). cbn [Go.bind].
  unfold for_upto at 1.
  pose proof (for_range_traverse (resampleChannelData r)
                (deinterleave (Channels r) data) [] []
                (repeat [] (Z.to_nat (Channels r))) eq_refl) as Hloop.
  rewrite length_deinterleave, repeat_length in Hloop.
  specialize (Hloop eq_refl). cbn [app] in Hloop. change (len []) with 0 in Hloop.
  unfold resampleBody. rewrite Hloop. clear Hloop.
  destruct (traverse _ _) as [rd |] eqn:Hrd; cbn [Go.bind]; [| reflexivity].
  apply traverse_length in Hrd. rewrite length_deinterleave in Hrd.
  unfold for_upto, len. rewrite Nat2Z.id.
  apply GoFacts.make_inv in Hres. destruct Hres as (HN & -> & _).
  rewrite repeat_length.
  apply (merge_interleaved r _ rd HC Hlen) with (done := []).
  unfold len. lia.
Qed.

End ChannelFacts.

(** [ResampleFloat64] with at least one channel, two rates and a buffer
    that is not empty: the buffer is cut into its channels, every channel
    is resampled on its own, and sample [i] of the result is sample
    [i / Channels] of channel [i % Channels], or the last one of that
    channel when it has fewer. The call panics when [make] refuses the
    slice of the channels or the buffer of the result (the length computed
    for it is negative, or either takes more than [maxAlloc] bytes), and
    when a channel panics. *)
Theorem ResampleFloat64_by_channel (r : Resampler) (data : list float) :
  1 <= Channels r -> data <> [] -> FromRate r <> ToRate r ->
  ResampleFloat64 r data
  = if Go.panicmakeslicelen Go.sizeof_slice (Channels r)
       || Go.panicmakeslicelen Go.sizeof_float64 (targetLength r data)
    then None
    else
      rd <- traverse (resampleChannelData r) (deinterleave (Channels r) data) ;;
      Some (map (fun i => interleaved (Channels r) rd (Z.of_nat i))
              (seq 0 (Z.to_nat (targetLength r data)))).
Proof.
  intros HC Hdata Hrate.
  rewrite ChannelFacts.ResampleFloat64_channels by assumption.
  unfold Go.make.
  destruct (Go.panicmakeslicelen Go.sizeof_slice (Channels r)); [reflexivity |].
  destruct (Go.panicmakeslicelen Go.sizeof_float64 (targetLength r data));
    [reflexivity |].
  cbn [Go.bind orb]. rewrite repeat_length.
  destruct (traverse _ _) as [rd |]; reflexivity.
Qed.

Lemma ResampleFloat64_by_channel_witness :
  ResampleFloat64 {| FromRate := 3; ToRate := 2; Channels := 2 |} iota20
  = if Go.panicmakeslicelen Go.sizeof_slice 2
       || Go.panicmakeslicelen Go.sizeof_float64
            (targetLength {| FromRate := 3; ToRate := 2; Channels := 2 |} iota20)
    then None
    else
      rd <- traverse (resampleChannelData {| FromRate := 3; ToRate := 2; Channels := 2 |})
              (deinterleave 2 iota20) ;;
      Some (map (fun i => interleaved 2 rd (Z.of_nat i))
              (seq 0 (Z.to_nat
                        (targetLength {| FromRate := 3; ToRate := 2; Channels := 2 |}
                           iota20)))).
Proof.
  apply (ResampleFloat64_by_channel {| FromRate := 3; ToRate := 2; Channels := 2 |} iota20).
  - simpl. lia.
  - discriminate.
  - simpl. lia.
Defined.

(** [ResampleFloat64] panics exactly when [make] refuses the slice of the
    channels (more than [maxAlloc] bytes of headers) or the buffer of the
    result (the length computed for it is negative or takes more than
    [maxAlloc] bytes), or the per-channel resampler panics on one of the
    channels: no index of the function leaves its slice. *)
Theorem ResampleFloat64_panics_iff (r : Resampler) (data : list float) :
  1 <= Channels r -> data <> [] -> FromRate r <> ToRate r ->
  ResampleFloat64 r data = None
  <-> Go.maxAlloc < Go.sizeof_slice * Channels r
      \/ targetLength r data < 0
      \/ Go.maxAlloc < Go.sizeof_float64 * targetLength r data
      \/ exists c, 0 <= c < Channels r
                   /\ resampleChannelData r (channel (Channels r) data c) = None.
Proof.
  intros HC Hdata Hrate. rewrite ChannelFacts.ResampleFloat64_channels by assumption.
  destruct (Go.make Go.sizeof_slice [] (Channels r)) as [chs0 |] eqn:Hchs; cbn [Go.bind].
  2: { apply GoFacts.make_none in Hchs. split; [intros _ | reflexivity].
       destruct Hchs as [| Hbig]; [lia | left; exact Hbig]. }
  apply GoFacts.make_fits in Hchs.
  destruct (Go.make Go.sizeof_float64 0%float (targetLength r data)) as [res0 |] eqn:Hres;
    cbn [Go.bind].
  2: { apply GoFacts.make_none in Hres. split; [intros _ | reflexivity].
       right. destruct Hres as [Hneg | Hbig]; [left; exact Hneg | right; left; exact Hbig]. }
  pose proof (GoFacts.make_fits _ _ _ _ Hres) as HfitN.
  apply GoFacts.make_inv in Hres. destruct Hres as (HN & _ & _).
  destruct (traverse _ _) as [rd |] eqn:Hrd; cbn [Go.bind].
  - split; [discriminate |].
    intros [Hbig | [Hneg | [Hbig | (c & Hc & Hpanic)]]]; [lia | lia | lia |].
    assert (Hnone : traverse (resampleChannelData r) (deinterleave (Channels r) data) = None).
    { apply ChannelFacts.traverse_none. exists (channel (Channels r) data c).
      split; [| exact Hpanic]. unfold deinterleave.
      apply in_map_iff. exists (Z.to_nat c). split; [now rewrite Z2Nat.id by lia |].
      apply in_seq. lia. }
    congruence.
  - split; [| reflexivity]. intros _. right. right. right.
    apply ChannelFacts.traverse_none in Hrd. destruct Hrd as (ch & Hin & Hpanic).
    unfold deinterleave in Hin. apply in_map_iff in Hin.
    destruct Hin as (c & <- & Hc). apply in_seq in Hc.
    exists (Z.of_nat c). split; [lia | exact Hpanic].
Qed.

Lemma ResampleFloat64_panics_iff_witness :
  ResampleFloat64 (mono 1 2) iota20 = None
  <-> Go.maxAlloc < Go.sizeof_slice * 1
      \/ targetLength (mono 1 2) iota20 < 0
      \/ Go.maxAlloc < Go.sizeof_float64 * targetLength (mono 1 2) iota20
      \/ exists c, 0 <= c < 1
                   /\ resampleChannelData (mono 1 2) (channel 1 iota20 c) = None.
Proof.
  apply (ResampleFloat64_panics_iff (mono 1 2) iota20).
  - simpl. lia.
  - discriminate.
  - simpl. lia.
Defined.

(** A buffer too short to resample comes back as silence: when no channel
    has more than 16 samples the result is what the two allocations of the
    call give, the slice of the channels and then the zero-filled buffer
    of the length computed for the result; it is a panic when [make]
    refuses one of them. *)
Theorem ResampleFloat64_short (r : Resampler) (data : list float) :
  1 <= Channels r -> data <> [] -> FromRate r <> ToRate r ->
  len data <= 16 * Channels r ->
  ResampleFloat64 r data
  = (_ <- Go.make Go.sizeof_slice (@nil float) (Channels r) ;;
     Go.make Go.sizeof_float64 0%float (targetLength r data)).
Proof.
  intros HC Hdata Hrate Hshort.
  rewrite ChannelFacts.ResampleFloat64_channels by assumption.
  destruct (Go.make Go.sizeof_slice [] (Channels r)); cbn [Go.bind]; [| reflexivity].
  unfold Go.make.
  destruct (Go.panicmakeslicelen Go.sizeof_float64 (targetLength r data));
    [reflexivity |].
  cbn [Go.bind]. rewrite repeat_length.
  rewrite (ChannelFacts.traverse_map _ (fun ch => repeat 0%float (length ch))).
  - cbn [Go.bind]. f_equal.
    rewrite (map_ext _ (fun _ => 0%float))
      by (intros i; apply ChannelFacts.interleaved_zero).
    generalize (Z.to_nat (targetLength r data)) as n. intros n.
    generalize 0%nat as k. induction n as [| n IH]; intros k; simpl; [reflexivity |].
    f_equal. apply IH.
  - intros ch Hin. apply ChannelFacts.resampleChannelData_zero.
    unfold deinterleave in Hin. apply in_map_iff in Hin.
    destruct Hin as (c & <- & Hc). apply in_seq in Hc.
    pose proof (ChannelFacts.channel_count (Channels r) (Z.of_nat c) data HC ltac:(lia)) as Hcnt.
    nia.
Qed.

Lemma ResampleFloat64_short_witness :
  ResampleFloat64 {| FromRate := 44100; ToRate := 48000; Channels := 2 |} iota20
  = Some (repeat 0%float 21).
Proof.
  apply (ResampleFloat64_short {| FromRate := 44100; ToRate := 48000; Channels := 2 |}).
  - simpl. lia.
  - discriminate.
  - simpl. lia.
  - vm_compute. discriminate.
Defined.

(** ** The end of a channel, and the window of the spline *)

Module TailFacts.

Import Binary64.

Lemma window_of_prefix {T : Type} (l l' : list T) (a n k : nat) :
  (a + n <= k)%nat -> firstn k l = firstn k l' ->
  firstn n (skipn a l) = firstn n (skipn a l').
Proof.
  intros Hk Heq.
  assert (H : forall s : list T, firstn n (skipn a s) = firstn n (skipn a (firstn k s))).
  { intros s. rewrite skipn_firstn_comm, firstn_firstn. f_equal. lia. }
  rewrite (H l), (H l'), Heq. reflexivity.
Qed.

Lemma rawSample_prefix (data data' : list float) (x : float) :
  nonneg x -> length data = length data' -> 16 < len data <= Go.int_max ->
  firstn (length data - 13) data = firstn (length data - 13) data' ->
  PrimFloat.ltb x (Go.float64_of_int (len data - 16)) = true ->
  rawSample data x = rawSample data' x.
Proof.
  intros Hx Hlen Hdata Heq Hlt. unfold Go.int_max in Hdata.
  assert (Ha : 0 < len data - 16 < 2 ^ 63) by lia.
  pose proof (uint64_below x _ Hx Ha Hlt) as Hn.
  pose proof (uint64_round_trip x _ Hx Ha Hlt) as Hrt.
  unfold rawSample. rewrite Hrt.
  set (yi0 := Go.uint64_of_float64 x) in *.
  assert (Hslice : Go.slice data yi0 (yi0 + 4) = Go.slice data' yi0 (yi0 + 4)).
  { unfold Go.slice. rewrite <- Hlen.
    destruct ((0 <=? yi0) && (yi0 <=? yi0 + 4) && (yi0 + 4 <=? Z.of_nat (length data)));
      [| reflexivity].
    f_equal. apply (window_of_prefix _ _ _ _ (length data - 13)); [| exact Heq].
    unfold len in *. lia. }
  rewrite Hslice. reflexivity.
Qed.

Lemma resampleLoop_prefix (data data' : list float) (step : float) :
  nonneg step -> length data = length data' -> 16 < len data <= Go.int_max ->
  firstn (length data - 13) data = firstn (length data - 13) data' ->
  forall (fuel : nat) (x : float) (i : Z) (output : list float),
    nonneg x ->
    resampleLoop fuel data (Go.float64_of_int (len data - 16)) step x i output
    = resampleLoop fuel data' (Go.float64_of_int (len data - 16)) step x i output.
Proof.
  intros Hstep Hlen Hdata Heq.
  induction fuel as [| fuel IH]; intros x i output Hx; simpl.
  - reflexivity.
  - destruct (PrimFloat.ltb x _) eqn:Hlt; [| reflexivity].
    unfold resampleAt. rewrite (rawSample_prefix data data' x Hx Hlen Hdata Heq Hlt).
    destruct (rawSample data' x) as [yo |]; cbn [Go.bind]; [| reflexivity].
    destruct (Go.store output i _) as [output' |]; cbn [Go.bind]; [| reflexivity].
    apply IH, nonneg_add; assumption.
Qed.

End TailFacts.

(** The last 13 samples of a channel never reach its output: two channels
    of the same length that differ only there are resampled to the same
    buffer (or both panic). *)
Theorem resampleChannelData_ignores_tail (r : Resampler) (data data' : list float) :
  valid_config r -> len data <= Go.int_max ->
  length data = length data' ->
  firstn (length data - 13) data = firstn (length data - 13) data' ->
  resampleChannelData r data = resampleChannelData r data'.
Proof.
  intros Hr Hmax Hlen Heq. unfold resampleChannelData. rewrite <- Hlen.
  fold (len data).
  destruct (Z.leb_spec (len data) 16) as [| Hgt]; [reflexivity |].
  destruct (Go.make _ 0%float _) as [output |]; cbn [Go.bind]; [| reflexivity].
  apply TailFacts.resampleLoop_prefix; try assumption.
  - apply nonneg_channelStep, Hr.
  - lia.
  - apply nonneg_channelStep, Hr.
Qed.

Lemma resampleChannelData_ignores_tail_witness :
  resampleChannelData (mono 1 2) iota20
  = resampleChannelData (mono 1 2) (firstn 7 iota20 ++ repeat 1%float 13).
Proof.
  apply (resampleChannelData_ignores_tail (mono 1 2)).
  - unfold valid_config, Go.int_max. simpl. lia.
  - unfold Go.int_max. vm_compute. discriminate.
  - reflexivity.
  - reflexivity.
Defined.

(** [spline] reads the first four samples of its window and no other: it
    panics on a shorter window (as [splineC1] and [splineC2] do), and on a
    longer one it returns what it returns on the first four. *)
Theorem spline_window (xi xo : float) (yi : list float) :
  (spline xi yi xo = None <-> (length yi < 4)%nat)
  /\ (splineC1 yi = None <-> (length yi < 4)%nat)
  /\ (splineC2 yi = None <-> (length yi < 4)%nat)
  /\ spline xi yi xo = spline xi (firstn 4 yi) xo.
Proof.
  destruct yi as [| y0 [| y1 [| y2 [| y3 rest]]]];
    try (repeat split; intros; simpl in *; try reflexivity; try discriminate; lia).
  assert (Hlen : ~ (length (y0 :: y1 :: y2 :: y3 :: rest) < 4)%nat) by (simpl; lia).
  unfold spline, splineC1, splineC2.
  assert (H0 : Go.index (y0 :: y1 :: y2 :: y3 :: rest) 0 = Some y0)
    by (rewrite GoFacts.index_ok by (unfold len; simpl length; lia); reflexivity).
  assert (H1 : Go.index (y0 :: y1 :: y2 :: y3 :: rest) 1 = Some y1)
    by (rewrite GoFacts.index_ok by (unfold len; simpl length; lia); reflexivity).
  assert (H2 : Go.index (y0 :: y1 :: y2 :: y3 :: rest) 2 = Some y2)
    by (rewrite GoFacts.index_ok by (unfold len; simpl length; lia); reflexivity).
  assert (H3 : Go.index (y0 :: y1 :: y2 :: y3 :: rest) 3 = Some y3)
    by (rewrite GoFacts.index_ok by (unfold len; simpl length; lia); reflexivity).
  rewrite H0, H1, H2, H3. cbn [Go.bind firstn].
  change (Go.index [y0; y1; y2; y3] 0) with (Some y0).
  change (Go.index [y0; y1; y2; y3] 1) with (Some y1).
  change (Go.index [y0; y1; y2; y3] 2) with (Some y2).
  change (Go.index [y0; y1; y2; y3] 3) with (Some y3).
  cbn [Go.bind].
  split; [| split; [| split; [| reflexivity]]].
  - split; [| intros H; contradiction].
    destruct (PrimFloat.leb xo (xi + 1)); [discriminate |].
    destruct (PrimFloat.leb xo (xi + 2)); discriminate.
  - split; [discriminate | intros H; contradiction].
  - split; [discriminate | intros H; contradiction].
Qed.

(** ** The storage of a result *)

(** The result never shares memory with the input unless the rates are
    equal. From a store [st], [ResampleFloat64] returns nil (for an empty
    buffer), the input slice (for equal rates), or, when the rates differ,
    a slice of an array that [st] does not have; [ResampleInt16] returns a
    slice of a new array of int16 in every case, equal rates included. *)
Theorem Resample_result_storage (growslice : nat -> nat) (st : Mem.store)
    (data : Mem.slice) :
  (forall s, fst (Mem.ResampleFloat64 growslice data st) = Some s ->
             float_result st data s)
  /\ (forall s, fst (Mem.ResampleInt16 growslice data st) = Some s ->
                (length (Mem.ints st) <= Mem.base s)%nat).
Proof.
  assert (Hfloat : forall data', Mem.keeps st (Mem.ResampleFloat64 growslice data')
                                   (float_result st data')).
  { intros data'. unfold Mem.ResampleFloat64.
    destruct (Mem.len data' =? 0); [apply MemFacts.keeps_ret; left; reflexivity |].
    eapply MemFacts.keeps_bind; [apply MemFacts.keeps_this | cbv beta; intros r ->].
    destruct (Z.eqb_spec (FromRate (Mem.receiver st)) (ToRate (Mem.receiver st)))
      as [Hrate | Hrate].
    { apply MemFacts.keeps_lift. intros s Hs. right. left. split; assumption. }
    eapply MemFacts.keeps_bind.
    { apply MemFacts.keeps_lift with (Q := Forall (Mem.spare st)).
      intros channels. unfold Go.make.
      destruct (Go.panicmakeslicelen Go.sizeof_slice (Channels (Mem.receiver st)));
        [discriminate |].
      intros [= <-]. apply Forall_forall. intros s Hs.
      apply repeat_spec in Hs. subst s. intros Hlt. simpl in Hlt. lia. }
    cbv beta; intros channels0 Hch0.
    eapply MemFacts.keeps_bind.
    { apply MemFacts.keeps_for_range with (I := Forall (Mem.spare st)); [| exact Hch0].
      intros i s Hs. apply MemFacts.keeps_splitBody, Hs. }
    cbv beta; intros channels _.
    eapply MemFacts.keeps_bind; [apply MemFacts.keeps_this | cbv beta; intros r' _].
    eapply MemFacts.keeps_bind; [apply MemFacts.keeps_make | cbv beta; intros resampled Hres].
    eapply MemFacts.keeps_bind;
      [apply MemFacts.keeps_lift; intros ? _; exact I | cbv beta; intros rd0 _].
    eapply MemFacts.keeps_bind.
    { apply MemFacts.keeps_for_range with (I := fun _ => True); [| exact I].
      intros i s _. unfold Mem.resampleBody.
      eapply MemFacts.keeps_bind;
        [apply MemFacts.keeps_lift; intros ? _; exact I | cbv beta; intros ch _].
      eapply MemFacts.keeps_bind;
        [apply MemFacts.keeps_resampleChannelData | cbv beta; intros out _].
      apply MemFacts.keeps_lift; trivial. }
    cbv beta; intros rd _.
    eapply MemFacts.keeps_bind.
    { apply MemFacts.keeps_for_range with (I := fun _ => True); [| exact I].
      intros i s _. apply MemFacts.keeps_mergeBody, Hres. }
    cbv beta; intros _ _. apply MemFacts.keeps_ret. right. right. split; assumption. }
  assert (Hint : Mem.keeps st (Mem.ResampleInt16 growslice data) (Mem.owned16 st)).
  { unfold Mem.ResampleInt16.
    eapply MemFacts.keeps_bind; [apply MemFacts.keeps_make | cbv beta; intros f64data Hf].
    eapply MemFacts.keeps_bind.
    { apply MemFacts.keeps_for_range with (I := fun _ => True); [| exact I].
      intros i s _.
      eapply MemFacts.keeps_bind; [apply MemFacts.keeps_load16 | cbv beta; intros d _].
      apply MemFacts.keeps_store_at, Hf. }
    cbv beta; intros _ _.
    eapply MemFacts.keeps_bind;
      [apply MemFacts.keeps_ResampleFloat64 | cbv beta; intros resampledf64 _].
    eapply MemFacts.keeps_bind;
      [apply MemFacts.keeps_make16 | cbv beta; intros resampledi16 Hi].
    eapply MemFacts.keeps_bind.
    { apply MemFacts.keeps_for_range with (I := fun _ => True); [| exact I].
      intros i s _.
      eapply MemFacts.keeps_bind; [apply MemFacts.keeps_load | cbv beta; intros v _].
      apply MemFacts.keeps_store16_at, Hi. }
    cbv beta; intros _ _. apply MemFacts.keeps_ret. exact Hi. }
  split.
  - apply (Hfloat data st (MemFacts.extends_refl st)).
  - apply (Hint st (MemFacts.extends_refl st)).
Qed.

Lemma Resample_result_storage_witness :
  let grow := fun c : nat => (2 * c + 1)%nat in
  let st := {| Mem.floats := [iota20]; Mem.ints := [[0; 16384; -16384]];
               Mem.receiver := mono 1 2 |} in
  let data := {| Mem.base := 0; Mem.off := 0; Mem.slen := 20; Mem.scap := 20 |} in
  exists s, fst (Mem.ResampleFloat64 grow data st) = Some s /\ (1 <= Mem.base s)%nat.
Proof.
  intros grow st data.
  destruct (fst (Mem.ResampleFloat64 grow data st)) as [s |] eqn:Hs;
    [| vm_compute in Hs; discriminate].
  exists s. split; [reflexivity |].
  destruct (Resample_result_storage grow st data) as [Hfloat _].
  destruct (Hfloat s Hs) as [-> | [[Hrate _] | [_ Hown]]].
  - vm_compute in Hs. discriminate.
  - discriminate.
  - exact Hown.
Defined.

(** ** Steps that are powers of two *)

Module DyadicFacts.

Import Binary64.

Lemma digits_shift (n : Z) :
  0 < n < 2 ^ prec ->
  0 < Zdigits2 n <= prec
  /\ 2 ^ (prec - 1) <= n * 2 ^ (prec - Zdigits2 n) < 2 ^ prec.
Proof.
  intros Hn. pose proof (Zdigits2_bounds n (proj1 Hn)) as Hd.
  assert (Hprec : prec = 53) by reflexivity. rewrite Hprec in *.
  assert (Hpos : 0 < Zdigits2 n).
  { destruct (Z.ltb_spec 0 (Zdigits2 n)) as [| Hle]; [assumption |].
    destruct Hd as [_ Hd]. 
    assert (2 ^ Zdigits2 n <= 1).
    { destruct (Z.eq_dec (Zdigits2 n) 0) as [-> | ]; [simpl; lia |].
      rewrite Z.pow_neg_r by lia. lia. }
    lia. }
  assert (Hle : Zdigits2 n <= 53).
  { destruct (Z.leb_spec (Zdigits2 n) 53) as [| Hgt]; [assumption |].
    assert (2 ^ 53 <= 2 ^ (Zdigits2 n - 1)) by (apply Z.pow_le_mono_r; lia). lia. }
  split; [lia |].
  set (d := Zdigits2 n) in *.
  assert (H1 : 2 ^ (53 - 1) = 2 ^ (d - 1) * 2 ^ (53 - d)).
  { rewrite <- Z.pow_add_r by lia. f_equal. lia. }
  assert (H2 : 2 ^ 53 = 2 ^ d * 2 ^ (53 - d)).
  { rewrite <- Z.pow_add_r by lia. f_equal. lia. }
  assert (HP : 0 < 2 ^ (53 - d)) by (apply Z.pow_pos_nonneg; lia).
  rewrite H1, H2. nia.
Qed.

Lemma dyadic_normal (n k : Z) :
  0 < n < 2 ^ prec -> - 1000 <= k <= 900 ->
  normal (n * 2 ^ (prec - Zdigits2 n)) (k - (prec - Zdigits2 n)).
Proof.
  intros Hn Hk. destruct (digits_shift n Hn) as [Hd Hm].
  split; [exact Hm |].
  assert (Hprec : prec = 53) by reflexivity.
  assert (Hemin : emin = -1074) by reflexivity.
  assert (Hemax : emax = 1024) by reflexivity. lia.
Qed.

Lemma Prim2SF_dyadic (n k : Z) :
  0 < n < 2 ^ prec -> - 1000 <= k <= 900 ->
  Prim2SF (dyadic n k) = fin (n * 2 ^ (prec - Zdigits2 n)) (k - (prec - Zdigits2 n)).
Proof. intros Hn Hk. apply Prim2SF_F, dyadic_normal; assumption. Qed.

(** Adding [2^k] to [n * 2^k] is exact. *)
Lemma dyadic_succ (n k : Z) :
  0 < n -> n + 1 < 2 ^ prec -> - 1000 <= k <= 900 ->
  (dyadic n k + dyadic 1 k)%float = dyadic (n + 1) k.
Proof.
  intros Hn Hn1 Hk.
  assert (Hprec : prec = 53) by reflexivity.
  assert (Hemin : emin = -1074) by reflexivity.
  assert (Hemax : emax = 1024) by reflexivity.
  assert (H1p : 1 < 2 ^ prec) by reflexivity.
  destruct (digits_shift n ltac:(lia)) as [Hd Hm].
  destruct (digits_shift (n + 1) ltac:(lia)) as [Hd' Hm'].
  pose proof (dyadic_normal n k ltac:(lia) Hk) as Hnorm.
  pose proof (dyadic_normal 1 k ltac:(lia) Hk) as Hnorm1.
  pose proof (dyadic_normal (n + 1) k ltac:(lia) Hk) as Hnorm'.
  apply Prim2SF_inj.
  rewrite add_spec, !Prim2SF_dyadic by lia.
  change (Zdigits2 1) with 1 in *.
  set (d := Zdigits2 n) in *. set (d' := Zdigits2 (n + 1)) in *.
  rewrite SF64add_normal by (try assumption; lia).
  replace (k - (prec - d) - (k - (prec - 1))) with (d - 1) by lia.
  assert (HM : n * 2 ^ (prec - d) * 2 ^ (d - 1) + 1 * 2 ^ (prec - 1)
               = (n + 1) * 2 ^ (prec - d') * 2 ^ (d' - 1)).
  { rewrite <- !Z.mul_assoc, <- !Z.pow_add_r by lia.
    replace (prec - d + (d - 1)) with (prec - 1) by lia.
    replace (prec - d' + (d' - 1)) with (prec - 1) by lia. lia. }
  rewrite HM.
  rewrite (Zdigits2_shift _ (d' - 1) prec) by (rewrite ?Hprec in *; lia).
  replace (prec + (d' - 1) - prec) with (d' - 1) by lia.
  rewrite round_shift_multiple by lia.
  destruct (Z.ltb_spec ((n + 1) * 2 ^ (prec - d')) (2 ^ prec)) as [_ |]; [| lia].
  rewrite finite_or_inf_fin by lia.
  f_equal. lia.
Qed.

Lemma advance_dyadic (k : Z) :
  - 1000 <= k <= 900 ->
  forall (j : nat) (n : Z),
    0 < n -> n + Z.of_nat j < 2 ^ prec ->
    advance (dyadic 1 k) j (dyadic n k) = dyadic (n + Z.of_nat j) k.
Proof.
  intros Hk. induction j as [| j IH]; intros n Hn Hb.
  - simpl. now rewrite Z.add_0_r.
  - cbn [advance]. rewrite dyadic_succ by lia.
    rewrite IH by lia. f_equal. lia.
Qed.

(** [n * 2^k] against the integer [a]. *)
Lemma dyadic_ltb (n k a : Z) :
  0 < n < 2 ^ prec -> - 52 <= k <= 52 -> 0 < a < 2 ^ prec ->
  PrimFloat.ltb (dyadic n k) (Go.float64_of_int a)
  = (n * 2 ^ (k + 52) <? a * 2 ^ 52).
Proof.
  intros Hn Hk Ha.
  assert (Hprec : prec = 53) by reflexivity.
  assert (Hemin : emin = -1074) by reflexivity.
  destruct (digits_shift n Hn) as [Hd Hm].
  pose proof (dyadic_normal n k Hn ltac:(lia)) as Hnorm.
  destruct (float64_of_int_exact a Ha) as (ma & ea & Hsf & Hna & Hea & Hval).
  rewrite ltb_spec, Prim2SF_dyadic, Hsf by lia.
  rewrite SFltb_units by (apply normal_positive_float; assumption).
  rewrite (units_integer a ma ea) by (try lia; exact Hval).
  unfold units. set (d := Zdigits2 n) in *.
  rewrite <- Z.mul_assoc, <- Z.pow_add_r by lia.
  replace (prec - d + (k - (prec - d) - emin)) with (k + 52 + 1022) by lia.
  replace (- emin) with (52 + 1022) by lia.
  rewrite !Z.pow_add_r, !Z.mul_assoc by lia.
  assert (HP : 0 < 2 ^ 1022) by (apply Z.pow_pos_nonneg; lia).
  destruct (Z.ltb_spec (n * 2 ^ (k + 52) * 2 ^ 1022) (a * 2 ^ 52 * 2 ^ 1022));
    destruct (Z.ltb_spec (n * 2 ^ (k + 52)) (a * 2 ^ 52)); try reflexivity; nia.
Qed.

Lemma div_eucl_pair (a b : Z) : Z.div_eucl a b = (a / b, a mod b).
Proof. unfold Z.div, Z.modulo. destruct (Z.div_eucl a b). reflexivity. Qed.

(** Dividing by [2^k] moves the exponent. *)
Lemma SF64div_pow2 (m e k : Z) :
  normal m e -> emin <= e - k - 1 -> e - k <= emax - prec ->
  SF64div (fin m e) (fin (2 ^ (prec - 1)) (k - (prec - 1))) = fin m (e - k).
Proof.
  intros [Hm He] Hlo Hhi.
  assert (Hprec : prec = 53) by reflexivity.
  assert (Hemin_v : emin = -1074) by reflexivity.
  assert (Hemax_v : emax = 1024) by reflexivity.
  assert (Hp52 : 2 ^ (prec - 1) = 4503599627370496) by reflexivity.
  assert (Hp53 : 2 ^ prec = 9007199254740992) by reflexivity.
  unfold SF64div, SFdiv, fin. cbn [xorb].
  assert (Hm0 : 0 < m) by (rewrite Hp52 in Hm; lia).
  unfold SFdiv_core_binary.
  rewrite (Z2Pos.id m) by exact Hm0.
  rewrite (Z2Pos.id (2 ^ (prec - 1))) by reflexivity.
  rewrite (Zdigits2_unique m prec) by assumption.
  change (Zdigits2 (2 ^ (prec - 1))) with prec.
  rewrite fexp_normal by lia.
  rewrite Z.min_l by lia.
  replace (e - (k - (prec - 1)) - (prec + e - (prec + (k - (prec - 1))) - prec))
    with 53 by lia.
  cbv iota. rewrite Z.shiftl_mul_pow2 by lia.
  rewrite div_eucl_pair.
  assert (Hq : m * 2 ^ 53 / 2 ^ (prec - 1) = m * 2 ^ 1).
  { rewrite Hp52. change (2 ^ 53) with (2 ^ 1 * 4503599627370496).
    rewrite Z.mul_assoc. apply Z.div_mul. lia. }
  assert (Hr : (m * 2 ^ 53) mod 2 ^ (prec - 1) = 0).
  { rewrite Hp52. change (2 ^ 53) with (2 ^ 1 * 4503599627370496).
    rewrite Z.mul_assoc. apply Z.mod_mul. lia. }
  rewrite Hq, Hr.
  change (new_location (2 ^ (prec - 1)) 0) with loc_Exact.
  rewrite (binary_round_aux_normal false (m * 2 ^ 1) _ 1).
  - rewrite round_shift_multiple by lia.
    destruct (Z.ltb_spec m (2 ^ prec)) as [_ |]; [| lia].
    rewrite finite_or_inf_fin by lia. unfold fin. f_equal. lia.
  - lia.
  - lia.
  - apply (Zdigits2_shift m 1 prec); lia.
  - lia.
Qed.

(** [int(math.Ceil(x))] for a positive float below 2^63. *)
Lemma ceil_fin (x : float) (m e : Z) :
  Prim2SF x = fin m e -> normal m e -> e <= 10 ->
  Go.int_of_float64 (Go.math_Ceil x)
  = if 0 <=? e then m * 2 ^ e
    else if m mod 2 ^ (- e) =? 0 then m / 2 ^ (- e) else m / 2 ^ (- e) + 1.
Proof.
  intros Hx [Hm He] He10.
  assert (Hp52 : 2 ^ (prec - 1) = 4503599627370496) by reflexivity.
  assert (Hp53 : 2 ^ prec = 9007199254740992) by reflexivity.
  rewrite Hp52, Hp53 in Hm.
  unfold Go.math_Ceil. rewrite Hx. unfold fin. rewrite Z2Pos.id by lia.
  destruct (Z.leb_spec 0 e) as [Hpos | Hneg].
  - unfold Go.int_of_float64, Go.trunc. rewrite Hx. unfold fin.
    rewrite Z2Pos.id by lia. destruct (Z.leb_spec 0 e); [| lia].
    rewrite Z.shiftl_mul_pow2 by lia.
    assert (Hpow : 0 < 2 ^ e <= 2 ^ 10).
    { split; [apply Z.pow_pos_nonneg; lia | apply Z.pow_le_mono_r; lia]. }
    change (2 ^ 10) with 1024 in Hpow.
    unfold Go.int_min, Go.int_max. change (2 ^ 63) with 9223372036854775808.
    destruct (Z.leb_spec (Z.opp 9223372036854775808) (m * 2 ^ e)); [| nia].
    destruct (Z.leb_spec (m * 2 ^ e) (9223372036854775808 - 1)); [reflexivity | nia].
  - rewrite Z.shiftr_div_pow2, Z.shiftl_mul_pow2 by lia.
    assert (HP : 2 <= 2 ^ (- e)).
    { change 2 with (2 ^ 1) at 1. apply Z.pow_le_mono_r; lia. }
    pose proof (Z.div_mod m (2 ^ (- e)) ltac:(lia)) as Hdm.
    pose proof (Z.mod_pos_bound m (2 ^ (- e)) ltac:(lia)) as Hmod.
    assert (Hq : 0 <= m / 2 ^ (- e) < 4503599627370496).
    { split; [apply Z.div_pos; lia |]. apply Z.div_lt_upper_bound; lia. }
    assert (Hexact : (m =? m / 2 ^ (- e) * 2 ^ (- e)) = (m mod 2 ^ (- e) =? 0)).
    { destruct (Z.eqb_spec m (m / 2 ^ (- e) * 2 ^ (- e)));
        destruct (Z.eqb_spec (m mod 2 ^ (- e)) 0); try reflexivity; lia. }
    rewrite Hexact.
    apply Int16Facts.int_of_float64_of_int. rewrite Hp53.
    destruct (m mod 2 ^ (- e) =? 0); lia.
Qed.

Lemma float64_of_int_shift (a : Z) :
  0 < a < 2 ^ prec ->
  exists t, 0 <= t <= 52
            /\ Prim2SF (Go.float64_of_int a) = fin (a * 2 ^ t) (- t)
            /\ normal (a * 2 ^ t) (- t).
Proof.
  intros Ha. destruct (float64_of_int_exact a Ha) as (ma & ea & Hsf & Hn & Hea & Hval).
  exists (- ea). split; [lia |].
  assert (Hma : ma = a * 2 ^ (- ea)).
  { assert (Hsplit : 2 ^ 52 = 2 ^ (ea + 52) * 2 ^ (- ea)).
    { rewrite <- Z.pow_add_r by lia. f_equal. lia. }
    assert (HP : 0 < 2 ^ (ea + 52)) by (apply Z.pow_pos_nonneg; lia).
    rewrite Hsplit in Hval. nia. }
  rewrite <- Hma, Z.opp_involutive. split; assumption.
Qed.

(** The capacity of the output for the step [2^k]: the least integer not
    below [a / 2^k]. *)
Lemma capacity_dyadic (r : Resampler) (a k : Z) :
  channelStep r = dyadic 1 k -> - 52 <= k <= 52 ->
  0 < a < 2 ^ prec -> a * 2 ^ (- k) < 2 ^ prec ->
  capacity r a = dyadic_passes a k + 1.
Proof.
  intros Hstep Hk Ha Hfit.
  assert (Hprec : prec = 53) by reflexivity.
  assert (Hemin_v : emin = -1074) by reflexivity.
  assert (Hemax_v : emax = 1024) by reflexivity.
  assert (Hp52 : 2 ^ (prec - 1) = 4503599627370496) by reflexivity.
  assert (Hp53 : 2 ^ prec = 9007199254740992) by reflexivity.
  destruct (float64_of_int_shift a Ha) as (t & Ht & Hsf & Hn).
  unfold capacity. rewrite Hstep.
  assert (Hq : Prim2SF (Go.float64_of_int a / dyadic 1 k) = fin (a * 2 ^ t) (- t - k)).
  { rewrite div_spec, Hsf, Prim2SF_dyadic by lia.
    change (Zdigits2 1) with 1. rewrite Z.mul_1_l.
    apply SF64div_pow2; [exact Hn | lia | lia]. }
  assert (HPt : 0 < 2 ^ t) by (apply Z.pow_pos_nonneg; lia).
  destruct Hn as [Hm _]. rewrite Hp52, Hp53 in *.
  unfold dyadic_passes.
  destruct (Z.leb_spec k 0) as [Hk0 | Hk0].
  - (* the quotient is the integer a * 2^(-k) *)
    assert (HPk : 0 < 2 ^ (- k)) by (apply Z.pow_pos_nonneg; lia).
    assert (Htk : 0 <= t + k).
    { destruct (Z.leb_spec 0 (t + k)) as [| Hlt]; [assumption | exfalso].
      assert (Hsplit : 2 ^ (- k) = 2 ^ (- k - t) * 2 ^ t).
      { rewrite <- Z.pow_add_r by lia. f_equal. lia. }
      assert (2 <= 2 ^ (- k - t)).
      { change 2 with (2 ^ 1) at 1. apply Z.pow_le_mono_r; lia. }
      nia. }
    assert (Hsplit : 2 ^ t = 2 ^ (- k) * 2 ^ (t + k)).
    { rewrite <- Z.pow_add_r by lia. f_equal. lia. }
    rewrite (ceil_fin _ _ _ Hq); [| split; [rewrite Hp52, Hp53 |]; lia | lia].
    destruct (Z.leb_spec 0 (- t - k)).
    + replace (- t - k) with 0 by lia. replace t with (- k) by lia. lia.
    + replace (- (- t - k)) with (t + k) by lia.
      rewrite Hsplit, Z.mul_assoc, Z.mod_mul, Z.div_mul
        by (apply Z.pow_nonzero; lia).
      cbn [Z.eqb]. lia.
  - assert (HPk : 0 < 2 ^ k) by (apply Z.pow_pos_nonneg; lia).
    rewrite (ceil_fin _ _ _ Hq); [| split; [rewrite Hp52, Hp53 |]; lia | lia].
    destruct (Z.leb_spec 0 (- t - k)); [lia |].
    replace (- (- t - k)) with (k + t) by lia.
    rewrite Z.pow_add_r by lia.
    rewrite Z.mul_mod_distr_r, Z.div_mul_cancel_r by lia.
    pose proof (Z.div_mod a (2 ^ k) ltac:(lia)) as Hdm.
    pose proof (Z.mod_pos_bound a (2 ^ k) ltac:(lia)) as Hmod.
    assert (Hceil : (a - 1) / 2 ^ k + 1
                    = if a mod 2 ^ k =? 0 then a / 2 ^ k else a / 2 ^ k + 1).
    { destruct (Z.eqb_spec (a mod 2 ^ k) 0) as [H0 | H0].
      - rewrite <- (Z.div_unique (a - 1) (2 ^ k) (a / 2 ^ k - 1) (2 ^ k - 1));
          [lia | lia | nia].
      - rewrite <- (Z.div_unique (a - 1) (2 ^ k) (a / 2 ^ k) (a mod 2 ^ k - 1));
          [lia | lia | nia]. }
    rewrite Hceil.
    destruct (Z.eqb_spec (a mod 2 ^ k * 2 ^ t) 0); destruct (Z.eqb_spec (a mod 2 ^ k) 0);
      try reflexivity; nia.
Qed.

(** The passes of the loop for the step [2^k]. *)
Lemma iterations_dyadic (a k : Z) :
  - 52 <= k <= 52 -> 0 < a < 2 ^ prec -> a * 2 ^ (- k) < 2 ^ prec ->
  0 <= dyadic_passes a k
  /\ iterations (dyadic 1 k) (Go.float64_of_int a) (Z.to_nat (dyadic_passes a k)).
Proof.
  intros Hk Ha Hfit.
  assert (Hp53 : 2 ^ prec = 9007199254740992) by reflexivity.
  assert (Hcursor : forall j : nat,
             Z.of_nat j <= dyadic_passes a k ->
             PrimFloat.ltb (advance (dyadic 1 k) j (dyadic 1 k)) (Go.float64_of_int a)
             = ((1 + Z.of_nat j) * 2 ^ (k + 52) <? a * 2 ^ 52)).
  { intros j Hj.
    assert (Hb : 1 + Z.of_nat j < 2 ^ prec).
    { unfold dyadic_passes in Hj. destruct (Z.leb_spec k 0).
      - lia.
      - assert (HPk : 0 < 2 ^ k) by (apply Z.pow_pos_nonneg; lia).
        assert ((a - 1) / 2 ^ k <= a - 1) by (apply Z.div_le_upper_bound; nia).
        lia. }
    rewrite advance_dyadic by lia.
    apply dyadic_ltb; lia. }
  assert (Hsplit : forall x, 0 <= x <= 52 -> 2 ^ 52 = 2 ^ (52 - x) * 2 ^ x).
  { intros x Hx. rewrite <- Z.pow_add_r by lia. f_equal. lia. }
  assert (HP : 0 <= dyadic_passes a k
               /\ (forall j, 1 + j <= dyadic_passes a k ->
                             (1 + j) * 2 ^ (k + 52) < a * 2 ^ 52)
               /\ a * 2 ^ 52 <= (1 + dyadic_passes a k) * 2 ^ (k + 52)).
  { unfold dyadic_passes. destruct (Z.leb_spec k 0) as [Hk0 | Hk0].
    - assert (HPk : 0 < 2 ^ (- k)) by (apply Z.pow_pos_nonneg; lia).
      assert (HPk' : 0 < 2 ^ (k + 52)) by (apply Z.pow_pos_nonneg; lia).
      rewrite (Hsplit (- k)) by lia. replace (52 - - k) with (k + 52) by lia.
      split; [nia |]. split; [intros j Hj; nia | nia].
    - assert (HPk : 0 < 2 ^ k) by (apply Z.pow_pos_nonneg; lia).
      rewrite (Z.pow_add_r 2 k 52) by lia.
      pose proof (Z.div_mod (a - 1) (2 ^ k) ltac:(lia)) as Hdm.
      pose proof (Z.mod_pos_bound (a - 1) (2 ^ k) ltac:(lia)) as Hmod.
      assert (0 <= (a - 1) / 2 ^ k) by (apply Z.div_pos; lia).
      split; [lia |]. split; [intros j Hj; nia | nia]. }
  destruct HP as (Hnn & Hbelow & Hexit).
  split; [exact Hnn |]. split.
  - intros j Hj. rewrite Hcursor by lia. apply Z.ltb_lt, Hbelow. lia.
  - rewrite Hcursor by lia. rewrite Z2Nat.id by lia. apply Z.ltb_ge. exact Hexit.
Qed.

End DyadicFacts.

(** When the step is a power of two the cursor is exact and the loop stays
    within its output: for a configuration of [NewResampler] whose step is
    [2^k] (|k| <= 52) and a channel of more than 16 samples, with
    [availSamples] and [availSamples / 2^k] below 2^53, the capacity of
    the output is one more than the number of multiples of [2^k] strictly
    between 0 and [availSamples]; and when that capacity is one that
    [make] allocates, [resampleChannelData] returns as many samples as
    there are such multiples, one fewer than the capacity. *)
Theorem resampleChannelData_dyadic (r : Resampler) (data : list float) (k : Z) :
  valid_config r -> channelStep r = dyadic 1 k -> - 52 <= k <= 52 ->
  16 < len data -> len data - 16 < 2 ^ 53 ->
  (len data - 16) * 2 ^ (- k) < 2 ^ 53 ->
  capacity r (len data - 16) = dyadic_passes (len data - 16) k + 1
  /\ (Go.sizeof_float64 * (dyadic_passes (len data - 16) k + 1) <= Go.maxAlloc ->
      exists out, resampleChannelData r data = Some out
                  /\ len out = dyadic_passes (len data - 16) k).
Proof.
  intros Hr Hstep Hk Hlen Ha Hfit.
  change (2 ^ 53) with (2 ^ prec) in Ha, Hfit.
  assert (Hrange : 0 < len data - 16 < 2 ^ prec) by lia.
  pose proof (DyadicFacts.capacity_dyadic r _ k Hstep Hk Hrange Hfit) as Hcap.
  destruct (DyadicFacts.iterations_dyadic _ k Hk Hrange Hfit) as [Hnn Hiter].
  split; [exact Hcap |]. intros Halloc.
  destruct (resampleChannelData_returns r data (Z.to_nat (dyadic_passes (len data - 16) k)))
    as (out & Hout & Hlo).
  - exact Hr.
  - unfold Go.int_max. change (2 ^ prec) with 9007199254740992 in Ha. lia.
  - rewrite Hstep. exact Hiter.
  - rewrite Hcap. lia.
  - rewrite Hcap. exact Halloc.
  - exists out. split; [exact Hout |]. unfold len at 1. rewrite Hlo. lia.
Qed.

Lemma resampleChannelData_dyadic_witness :
  let r := {| FromRate := 44100; ToRate := 22050; Channels := 2 |} in
  capacity r (len iota20 - 16) = dyadic_passes (len iota20 - 16) 1 + 1
  /\ exists out, resampleChannelData r iota20 = Some out
                 /\ len out = dyadic_passes (len iota20 - 16) 1.
Proof.
  intros r.
  destruct (resampleChannelData_dyadic r iota20 1) as [Hcap Hout].
  - unfold valid_config, Go.int_max. simpl. lia.
  - vm_compute. reflexivity.
  - lia.
  - vm_compute. reflexivity.
  - vm_compute. reflexivity.
  - vm_compute. reflexivity.
  - split; [exact Hcap |]. apply Hout. vm_compute. discriminate.
Defined.

(** With a step that is a power of two a call panics only in [make]: for
    a configuration of [NewResampler] with different rates whose step is
    [2^k] (|k| <= 52) and a non-empty buffer, when the buffer and the
    buffer stretched by [1 / 2^k] are float64 arrays that [make] allocates,
    as are the slice of the channels and the result, whose computed length
    is not negative, [ResampleFloat64] returns a buffer of that length. *)
Theorem ResampleFloat64_dyadic (r : Resampler) (data : list float) (k : Z) :
  valid_config r -> channelStep r = dyadic 1 k -> - 52 <= k <= 52 ->
  data <> [] -> FromRate r <> ToRate r ->
  Go.sizeof_float64 * len data <= Go.maxAlloc ->
  Go.sizeof_float64 * (len data * 2 ^ (- k)) <= Go.maxAlloc ->
  Go.sizeof_slice * Channels r <= Go.maxAlloc ->
  0 <= targetLength r data ->
  Go.sizeof_float64 * targetLength r data <= Go.maxAlloc ->
  exists out, ResampleFloat64 r data = Some out /\ len out = targetLength r data.
Proof.
  intros Hr Hstep Hk Hdata Hrate HlenA HfitA HCA HN HNA.
  assert (HC : 1 <= Channels r) by apply Hr.
  assert (Hmax : Go.maxAlloc = 281474976710656) by reflexivity.
  assert (Hlen : len data < 2 ^ 53)
    by (unfold Go.sizeof_float64 in HlenA; change (2 ^ 53) with 9007199254740992; lia).
  assert (Hfit : len data * 2 ^ (- k) < 2 ^ 53)
    by (unfold Go.sizeof_float64 in HfitA; change (2 ^ 53) with 9007199254740992; lia).
  rewrite ChannelFacts.ResampleFloat64_channels by assumption.
  rewrite GoFacts.make_ok by (try exact HCA; lia). cbn [Go.bind].
  rewrite GoFacts.make_ok by (try exact HNA; exact HN). cbn [Go.bind].
  rewrite repeat_length.
  assert (Hall : forall ch, In ch (deinterleave (Channels r) data) ->
                            resampleChannelData r ch <> None).
  { intros ch Hin. unfold deinterleave in Hin. apply in_map_iff in Hin.
    destruct Hin as (c & <- & Hc). apply in_seq in Hc.
    pose proof (ChannelFacts.channel_count (Channels r) (Z.of_nat c) data HC ltac:(lia))
      as Hcnt.
    set (ch := channel (Channels r) data (Z.of_nat c)) in *.
    pose proof (GoFacts.len_nonneg ch) as Hch0.
    pose proof (GoFacts.len_nonneg data) as Hdata0.
    assert (Hle : len ch <= len data).
    { destruct (Z.eq_dec (len ch) 0) as [-> | Hne]; [exact Hdata0 |].
      assert ((len ch - 1) * 1 <= (len ch - 1) * Channels r)
        by (apply Z.mul_le_mono_nonneg_l; lia).
      lia. }
    destruct (Z.leb_spec (len ch) 16) as [Hshort | Hlong].
    { rewrite ChannelFacts.resampleChannelData_zero by exact Hshort. discriminate. }
    assert (HP : 0 <= 2 ^ (- k)) by (apply Z.pow_nonneg; lia).
    assert (Hrange : 0 < len ch - 16 < 2 ^ prec)
      by (change (2 ^ prec) with (2 ^ 53); lia).
    assert (Hmono : (len ch - 16) * 2 ^ (- k) <= len data * 2 ^ (- k))
      by (apply Z.mul_le_mono_nonneg_r; [exact HP | lia]).
    assert (Hfit' : (len ch - 16) * 2 ^ (- k) < 2 ^ prec)
      by (change (2 ^ prec) with (2 ^ 53); lia).
    pose proof (DyadicFacts.capacity_dyadic r _ k Hstep Hk Hrange Hfit') as Hcap.
    destruct (DyadicFacts.iterations_dyadic _ k Hk Hrange Hfit') as [Hnn Hiter].
    destruct (resampleChannelData_returns r ch
                (Z.to_nat (dyadic_passes (len ch - 16) k))) as (out & Hout & _).
    - exact Hr.
    - unfold Go.int_max. change (2 ^ 53) with 9007199254740992 in Hlen. lia.
    - rewrite Hstep. exact Hiter.
    - rewrite Hcap. lia.
    - rewrite Hcap. unfold dyadic_passes, Go.sizeof_float64 in *.
      destruct (Z.leb_spec k 0) as [Hk0 | Hk0]; [lia |].
      assert (HPk : 0 < 2 ^ k) by (apply Z.pow_pos_nonneg; lia).
      assert ((len ch - 16 - 1) / 2 ^ k <= len ch - 16 - 1).
      { apply Z.div_le_upper_bound; [exact HPk |].
        rewrite <- (Z.mul_1_l (len ch - 16 - 1)) at 1.
        apply Z.mul_le_mono_nonneg_r; lia. }
      lia.
    - rewrite Hout. discriminate. }
  destruct (traverse _ _) as [rd |] eqn:Hrd; cbn [Go.bind].
  - eexists. split; [reflexivity |].
    unfold len. rewrite length_map, length_seq. lia.
  - apply ChannelFacts.traverse_none in Hrd. destruct Hrd as (ch & Hin & Hnone).
    exfalso. exact (Hall ch Hin Hnone).
Qed.

Lemma ResampleFloat64_dyadic_witness :
  let r := {| FromRate := 44100; ToRate := 22050; Channels := 2 |} in
  let data := iota20 ++ iota20 ++ iota20 in
  exists out, ResampleFloat64 r data = Some out /\ len out = targetLength r data.
Proof.
  intros r data. apply (ResampleFloat64_dyadic r data 1).
  - unfold valid_config, Go.int_max. simpl. lia.
  - vm_compute. reflexivity.
  - lia.
  - discriminate.
  - simpl. lia.
  - vm_compute. discriminate.
  - vm_compute. discriminate.
  - vm_compute. discriminate.
  - vm_compute. discriminate.
  - vm_compute. discriminate.
Defined.

(** ** The split loop and the interleaving loop *)

Module LayoutFacts.

Import ChannelFacts.

(** Position [j] of channel [c] is index [c + j n] of the buffer. *)
Lemma channel_nth (n c : Z) (data : list float) :
  1 <= n -> 0 <= c < n ->
  forall j, 0 <= j -> c + j * n < len data ->
    nth_error (channel n data c) (Z.to_nat j) = nth_error data (Z.to_nat (c + j * n)).
Proof.
  intros Hn Hc. induction data as [| d l IH] using rev_ind; intros j Hj Hlt.
  - change (len []) with 0 in Hlt. nia.
  - assert (Hl : len (l ++ [d]) = len l + 1).
    { unfold len. rewrite length_app. simpl. lia. }
    rewrite Hl in Hlt. pose proof (GoFacts.len_nonneg l) as Hl0.
    pose proof (channel_count n c l Hn Hc) as Hcnt.
    rewrite channel_snoc.
    destruct (Z.eq_dec (c + j * n) (len l)) as [Heq | Hne].
    + assert (Hrem : Z.rem (len l) n = c).
      { rewrite Z.rem_mod_nonneg by lia. rewrite <- Heq, Z.mod_add by lia.
        apply Z.mod_small. lia. }
      rewrite Hrem, Z.eqb_refl.
      assert (HL : j = len (channel n l c)) by nia.
      rewrite Heq, HL. unfold len. rewrite !Nat2Z.id.
      rewrite !nth_error_app2, !Nat.sub_diag by lia. reflexivity.
    + assert (Hin : c + j * n < len l) by lia.
      specialize (IH j Hj Hin).
      assert (Hsome : nth_error l (Z.to_nat (c + j * n)) <> None).
      { apply nth_error_Some. unfold len in Hin. nia. }
      rewrite (nth_error_app1 l) by (apply nth_error_Some; exact Hsome).
      rewrite nth_error_app1; [exact IH |].
      apply nth_error_Some. rewrite IH. exact Hsome.
Qed.

Lemma nth_deinterleave (n : Z) (data : list float) (c : Z) :
  0 <= c < n -> nth (Z.to_nat c) (deinterleave n data) [] = channel n data c.
Proof.
  intros Hc. unfold deinterleave.
  rewrite (nth_indep _ [] (channel n data (Z.of_nat 0)))
    by (rewrite length_map, length_seq; lia).
  rewrite (map_nth (fun k => channel n data (Z.of_nat k))), seq_nth by lia.
  now rewrite Nat.add_0_l, Z2Nat.id by lia.
Qed.

Lemma interleaved_deinterleave (n : Z) (data : list float) (i : Z) :
  1 <= n -> 0 <= i < len data ->
  interleaved n (deinterleave n data) i = nth (Z.to_nat i) data 0%float.
Proof.
  intros Hn Hi. unfold interleaved.
  rewrite Z.rem_mod_nonneg, Z.quot_div_nonneg by lia.
  pose proof (Z.mod_pos_bound i n ltac:(lia)) as Hmod.
  pose proof (Z.div_mod i n ltac:(lia)) as Hdm.
  assert (Hdiv : 0 <= i / n) by (apply Z.div_pos; lia).
  rewrite nth_deinterleave by lia.
  pose proof (channel_nth n (i mod n) data Hn Hmod (i / n) Hdiv) as Hnth.
  replace (i mod n + i / n * n) with i in Hnth by lia.
  specialize (Hnth (proj2 Hi)).
  destruct (nth_error data (Z.to_nat i)) as [v |] eqn:Hv;
    [| apply nth_error_None in Hv; unfold len in Hi; lia].
  assert (Hlt : (Z.to_nat (i / n) < length (channel n data (i mod n)))%nat).
  { apply nth_error_Some. rewrite Hnth. discriminate. }
  destruct (Z.eqb_spec (len (channel n data (i mod n))) 0) as [H0 | _];
    [unfold len in H0; lia |].
  rewrite Z.min_l by (unfold len; lia).
  rewrite (nth_error_nth _ _ _ Hnth), (nth_error_nth _ _ _ Hv). reflexivity.
Qed.

End LayoutFacts.

(** The interleaving loop undoes the split loop. With at least one
    channel, the split loop on the slice of channels that [make] has
    allocated returns the channels of the buffer, channel [c] with sample
    [c + j * Channels] at its position [j]; and the interleaving loop, run
    on these channels as they are, fills an allocated buffer of the length
    of the input with the samples of the input, in their order. *)
Theorem merge_split (r : Resampler) (data : list float)
    (channels0 : list (list float)) :
  1 <= Channels r ->
  Go.make Go.sizeof_slice [] (Channels r) = Some channels0 ->
  exists channels,
    for_upto (len data) (splitBody r data) channels0 = Some channels
    /\ (forall c j, 0 <= c < Channels r -> 0 <= j -> c + j * Channels r < len data ->
          nth_error (nth (Z.to_nat c) channels []) (Z.to_nat j)
          = nth_error data (Z.to_nat (c + j * Channels r)))
    /\ (forall resampled,
          Go.make Go.sizeof_float64 0%float (len data) = Some resampled ->
          for_upto (len resampled) (mergeBody r channels channels) resampled
          = Some data).
Proof.
  intros HC Hmk. apply GoFacts.make_inv in Hmk. destruct Hmk as (_ & -> & _).
  exists (deinterleave (Channels r) data).
  split; [| split].
  - unfold for_upto, len. rewrite Nat2Z.id.
    pose proof (ChannelFacts.split_deinterleave r data HC (length data) 0%nat eq_refl)
      as Hsplit.
    cbn [firstn] in Hsplit. rewrite ChannelFacts.deinterleave_nil in Hsplit.
    exact Hsplit.
  - intros c j Hc Hj Hlt. rewrite LayoutFacts.nth_deinterleave by exact Hc.
    apply LayoutFacts.channel_nth; assumption.
  - intros resampled Hres. apply GoFacts.make_inv in Hres. destruct Hres as (_ & -> & _).
    unfold for_upto. unfold len at 1 2. rewrite repeat_length, !Nat2Z.id.
    assert (Hlen : len (deinterleave (Channels r) data) = Channels r).
    { unfold len. rewrite ChannelFacts.length_deinterleave. lia. }
    pose proof (ChannelFacts.merge_interleaved r _ _ HC Hlen Hlen (length data) [])
      as Hmerge.
    cbn [app length] in Hmerge. change (len []) with 0 in Hmerge.
    replace (Z.to_nat (len data)) with (length data) by (unfold len; now rewrite Nat2Z.id).
    rewrite Hmerge. f_equal.
    apply nth_ext with (d := 0%float) (d' := 0%float);
      [now rewrite length_map, length_seq |].
    intros k Hk. rewrite length_map, length_seq in Hk.
    rewrite (nth_indep _ 0%float
               (interleaved (Channels r) (deinterleave (Channels r) data) (Z.of_nat 0)))
      by (rewrite length_map, length_seq; exact Hk).
    rewrite (map_nth (fun i => interleaved (Channels r) (deinterleave (Channels r) data)
                                 (Z.of_nat i))), seq_nth by exact Hk.
    rewrite Nat.add_0_l, LayoutFacts.interleaved_deinterleave by (unfold len; lia).
    now rewrite Nat2Z.id.
Qed.

Lemma merge_split_witness :
  exists channels,
    for_upto (len iota20) (splitBody {| FromRate := 1; ToRate := 2; Channels := 3 |} iota20)
      [[]; []; []] = Some channels
    /\ for_upto 20
         (mergeBody {| FromRate := 1; ToRate := 2; Channels := 3 |} channels channels)
         (repeat 0%float 20)
       = Some iota20.
Proof.
  destruct (merge_split {| FromRate := 1; ToRate := 2; Channels := 3 |} iota20
              [[]; []; []])
    as (channels & Hsplit & _ & Hmerge).
  - simpl. lia.
  - reflexivity.
  - exists channels. split; [exact Hsplit |].
    apply (Hmerge (repeat 0%float 20)). reflexivity.
Defined.
